(** * ink: character diff, operational transform, version store and sync server

    A shallow embedding of
      - [src/server/versioning.ts]  (character diff, [VersionHistory]),
      - [src/common/ot.ts]          (operations: convert, transform, apply),
      - the sync server             (the websocket [open], [close] and
                                     [message] handlers, [GET /api/note]),
      - [src/client/app.ts]         (the sync state of the page),
      - [src/mini-git.ts]           (the diff of lines),
      - mini-linear.ts              (models, queue and mock server),
    followed by the properties of the specification that are stated about
    them, and by further properties of the code.

    Conventions of the embedding.
      - A JavaScript string is the list of its UTF-16 code units
        ([jsstring]); [split('')], [length], [slice], [+] and [===] all work
        on code units.
      - A JavaScript number that the code uses as a position, a length or an
        offset is an integer ([Z]), with the sum, the difference and the
        order of the integers.  The code computes on doubles, which gives
        the same as long as the operands and the result are safe integers
        ([safe_integer]).
      - The object store is a [Map] from hash strings to objects; it is a
        [gmap].  [Map.set] overwrites, [Map.get] of a missing key is
        [undefined].
      - TypeScript casts ([as Commit], [as GitBlob], [server_content!]) do
        nothing at run time, so the value that flows out of the store is a
        [Content]: [null], [undefined], or whatever object is stored.  A
        method call on a value that has no such method raises a [TypeError];
        code that can raise lives in the [Result] monad. *)

From Stdlib Require Import ZArith NArith Ascii Sorted.
From Stdlib Require String.
From stdpp Require Import gmap strings list fin_maps.

(** ** JavaScript strings *)

Abbreviation jsstring := (list N).

(** A literal: the code units of an ASCII string. *)
Definition js (s : string) : jsstring :=
  map N_of_ascii (String.list_ascii_of_string s).

(** [s.length] *)
Definition jslength (s : jsstring) : Z := Z.of_nat (length s).

(** The index that [String.prototype.slice] computes from an argument:
    a negative argument counts from the end, and both ends are clamped. *)
Definition slice_index (len i : Z) : Z :=
  if (i <? 0)%Z then Z.max (len + i) 0 else Z.min i len.

(** [s.slice(start, end)] *)
Definition slice (s : jsstring) (start end_ : Z) : jsstring :=
  let from := slice_index (jslength s) start in
  let to := slice_index (jslength s) end_ in
  take (Z.to_nat (to - from)) (drop (Z.to_nat from) s).

(** [s.slice(start)] *)
Definition slice_from (s : jsstring) (start : Z) : jsstring :=
  drop (Z.to_nat (slice_index (jslength s) start)) s.

(** ** Run-time values and exceptions *)

Abbreviation Hash := (list N).

(** [interface Commit] *)
Record Commit := mkCommit {
  tree : Hash;
  parent : option Hash;
  message : jsstring;
  timestamp : jsstring
}.

(** [type GitObject = GitBlob | Tree | Commit].  A [Tree] is built only as
    [{ [filename]: blobHash }], an object with one own property. *)
Inductive GitObject :=
  | GBlob (content : jsstring)
  | GTree (filename : jsstring) (blobHash : Hash)
  | GCommit (c : Commit).

(** What a read from the store yields at run time. *)
Inductive Content :=
  | CNull
  | CUndefined
  | CObject (g : GitObject).

Abbreviation CStr s := (CObject (GBlob s)).

#[global] Instance Commit_eq_dec : EqDecision Commit.
Proof. solve_decision. Defined.
#[global] Instance GitObject_eq_dec : EqDecision GitObject.
Proof. solve_decision. Defined.
#[global] Instance Content_eq_dec : EqDecision Content.
Proof. solve_decision. Defined.

(** [a === b].  Strings compare by value.  Objects compare by reference; the
    objects compared here are read from one state of one store, where an
    object sits under the key computed from its own serialization, so two
    of them with the same fields are the same object. *)
Definition strict_eq (a b : Content) : bool := bool_decide (a = b).

(** The method whose call failed, and the value it failed on: a receiver
    that was [null], [undefined] or an object without that method, or the
    [undefined] that [hasher.update] refuses as its argument. *)
Inductive JsError :=
  | TypeError (method : string) (receiver : Content).

Inductive Result (A : Type) :=
  | Ok (a : A)
  | Throw (e : JsError).
Arguments Ok {A} a.
Arguments Throw {A} e.

#[global] Instance JsError_eq_dec : EqDecision JsError.
Proof. solve_decision. Defined.
#[global] Instance Result_eq_dec `{EqDecision A} : EqDecision (Result A).
Proof. solve_decision. Defined.

#[global] Instance Result_bind : MBind Result := fun A B k r =>
  match r with
  | Ok a => k a
  | Throw e => Throw e
  end.

(** [v.split('')]: an array of one-code-unit strings, for a string [v]. *)
Definition split_chars (v : Content) : Result (list jsstring) :=
  match v with
  | CStr s => Ok (map (fun c => [c]) s)
  | _ => Throw (TypeError "split" v)
  end.

(** [v.slice(start, end)] and [v.slice(start)] *)
Definition slice_of (v : Content) (start end_ : Z) : Result jsstring :=
  match v with
  | CStr s => Ok (slice s start end_)
  | _ => Throw (TypeError "slice" v)
  end.

Definition slice_from_of (v : Content) (start : Z) : Result jsstring :=
  match v with
  | CStr s => Ok (slice_from s start)
  | _ => Throw (TypeError "slice" v)
  end.

(** ** versioning.ts: the character diff *)

Inductive CharDiffType := cd_added | cd_removed | cd_unchanged.

(** [interface CharDiff] *)
Record CharDiff := mkCharDiff {
  char : jsstring;
  cd_type : CharDiffType
}.

Inductive DiffType := added | removed | unchanged | modified.

(** [interface DiffResult]: the fields that the code reads. *)
Record DiffResult := mkDiffResult {
  d_type : DiffType;
  line : jsstring;
  charDiffs : option (list CharDiff);
  oldLine : option jsstring
}.

(** [dp[i][j]] and [dp[i][j] = v] on the table, a list of rows. *)
Definition dp_get (dp : list (list Z)) (i j : nat) : Z :=
  default 0%Z (row ← dp !! i; row !! j).

Definition dp_set (dp : list (list Z)) (i j : nat) (v : Z) : list (list Z) :=
  alter (fun row => <[j := v]> row) i dp.

(** The body of the inner [for] loop of the table fill. *)
Definition dp_cell (chars1 chars2 : list jsstring) (i : nat)
    (dp : list (list Z)) (j : nat) : list (list Z) :=
  if bool_decide (chars1 !! (i - 1) = chars2 !! (j - 1))
  then dp_set dp i j (dp_get dp (i - 1) (j - 1) + 1)%Z
  else dp_set dp i j (Z.max (dp_get dp (i - 1) j) (dp_get dp i (j - 1))).

(** The table after both [for] loops: [i] from 1 to [n], [j] from 1 to [m],
    starting from [(n+1) x (m+1)] zeros. *)
Definition dp_fill (chars1 chars2 : list jsstring) : list (list Z) :=
  let n := length chars1 in
  let m := length chars2 in
  foldl (fun dp i => foldl (dp_cell chars1 chars2 i) dp (seq 1 m))
        (replicate (S n) (replicate (S m) 0%Z)) (seq 1 n).

(** [chars[k]!], read where the guards of the loop keep [k] in range. *)
Definition char_at (chars : list jsstring) (k : nat) : jsstring :=
  default [] (chars !! k).

(** The [while (i > 0 || j > 0)] loop that rebuilds the diff from the table;
    [result.unshift] is a cons.  Every iteration decreases [i + j], which
    bounds the number of iterations. *)
Fixpoint backtrack (fuel : nat) (chars1 chars2 : list jsstring)
    (dp : list (list Z)) (i j : nat) (result : list CharDiff) : list CharDiff :=
  match fuel with
  | O => result
  | S fuel' =>
    if negb ((0 <? i) || (0 <? j)) then result
    else if (0 <? i) && (0 <? j)
            && bool_decide (chars1 !! (i - 1) = chars2 !! (j - 1)) then
      backtrack fuel' chars1 chars2 dp (i - 1) (j - 1)
        (mkCharDiff (char_at chars1 (i - 1)) cd_unchanged :: result)
    else if (0 <? j)
            && ((i =? 0) || (dp_get dp (i - 1) j <=? dp_get dp i (j - 1))%Z) then
      backtrack fuel' chars1 chars2 dp i (j - 1)
        (mkCharDiff (char_at chars2 (j - 1)) cd_added :: result)
    else if (0 <? i)
            && ((j =? 0) || (dp_get dp i (j - 1) <? dp_get dp (i - 1) j)%Z) then
      backtrack fuel' chars1 chars2 dp (i - 1) j
        (mkCharDiff (char_at chars1 (i - 1)) cd_removed :: result)
    else result
  end.

(** [generateCharacterDiff(line1, line2)] *)
Definition generateCharacterDiff (line1 line2 : Content) : Result (list CharDiff) :=
  chars1 ← split_chars line1;
  chars2 ← split_chars line2;
  let n := length chars1 in
  let m := length chars2 in
  let dp := dp_fill chars1 chars2 in
  Ok (backtrack (n + m) chars1 chars2 dp n m []).

(** The [switch] in the loop of [diff]: one result per character. *)
Definition diff_entry (charDiff : CharDiff) : DiffResult :=
  match cd_type charDiff with
  | cd_unchanged => mkDiffResult unchanged (char charDiff) None None
  | cd_added => mkDiffResult added (char charDiff) None None
  | cd_removed => mkDiffResult removed (char charDiff) None None
  end.

(** [diff(text1, text2)] *)
Definition diff (text1 text2 : Content) : Result (list DiffResult) :=
  if strict_eq text1 text2 then Ok []
  else
    charDiffs ← generateCharacterDiff text1 text2;
    Ok (map diff_entry charDiffs).

(** ** ot.ts: operations *)

Inductive OpType := retain | insert | delete.

(** [interface Operation] *)
Record Operation := mkOperation {
  op_type : OpType;
  op_length : option Z;
  op_text : option jsstring;
  position : Z
}.

#[global] Instance OpType_eq_dec : EqDecision OpType.
Proof. solve_decision. Defined.
#[global] Instance Operation_eq_dec : EqDecision Operation.
Proof. solve_decision. Defined.

Definition Retain (len pos : Z) : Operation := mkOperation retain (Some len) None pos.
Definition Insert (text : jsstring) (pos : Z) : Operation := mkOperation insert None (Some text) pos.
Definition Delete (len pos : Z) : Operation := mkOperation delete (Some len) None pos.

(** [{ ...op, position: p }] *)
Definition with_position (op : Operation) (p : Z) : Operation :=
  mkOperation (op_type op) (op_length op) (op_text op) p.

(** [op.text?.length || 0] and [op.length || 0] *)
Definition text_length (op : Operation) : Z :=
  match op_text op with
  | Some t => jslength t
  | None => 0%Z
  end.

Definition length_or_0 (op : Operation) : Z :=
  match op_length op with
  | Some l => l
  | None => 0%Z
  end.

(** The inner loop of the ['modified'] case: state is the operations pushed
    so far and [charPos]. *)
Definition charDiff_step (st : list Operation * Z) (charDiff : CharDiff)
    : list Operation * Z :=
  let '(operations, charPos) := st in
  match cd_type charDiff with
  | cd_unchanged => (operations ++ [Retain 1 charPos], (charPos + 1)%Z)
  | cd_added => (operations ++ [Insert (char charDiff) charPos], charPos)
  | cd_removed => (operations ++ [Delete 1 charPos], (charPos + 1)%Z)
  end.

(** The body of the loop of [diffToOperations]: state is [operations] and
    [position]. *)
Definition diffToOperations_step (st : list Operation * Z) (d : DiffResult)
    : list Operation * Z :=
  let '(operations, pos) := st in
  match d_type d with
  | unchanged =>
      (operations ++ [Retain (jslength (line d)) pos], (pos + jslength (line d))%Z)
  | added =>
      (operations ++ [Insert (line d) pos], pos)
  | removed =>
      (operations ++ [Delete (jslength (line d)) pos], (pos + jslength (line d))%Z)
  | modified =>
      match charDiffs d with
      | Some cds =>
          (fst (foldl charDiff_step (operations, pos) cds),
           (pos + match oldLine d with Some o => jslength o | None => 0 end)%Z)
      | None => (operations, pos)
      end
  end.

(** [diffToOperations(diffs)] *)
Definition diffToOperations (diffs : list DiffResult) : list Operation :=
  fst (foldl diffToOperations_step ([], 0%Z) diffs).

(** The variables of the loop of [transformOperations]. *)
Record TransformState := mkTransformState {
  clientIndex : nat;
  serverIndex : nat;
  positionOffset : Z;
  transformed : list Operation
}.

(** [Number.MAX_SAFE_INTEGER], and the integers on which the arithmetic of
    JavaScript numbers is exact. *)
Definition MAX_SAFE_INTEGER : Z := 9007199254740991.

Definition safe_integer (z : Z) : Prop :=
  (- MAX_SAFE_INTEGER <= z <= MAX_SAFE_INTEGER)%Z.

(** One iteration of [while (clientIndex < clientOps.length)]; [None] when
    the loop condition is false.  The positions, the lengths and the offset
    are integers: what the iteration computes here is what the code
    computes as long as they and their sums are safe integers. *)
Definition transform_step (clientOps serverOps : list Operation)
    (s : TransformState) : option TransformState :=
  let ci := clientIndex s in
  let si := serverIndex s in
  let off := positionOffset s in
  let out := transformed s in
  if ci <? length clientOps then
    match clientOps !! ci with
    | None => Some (mkTransformState (ci + 1) si off out)
    | Some clientOp =>
      match serverOps !! si with
      | None =>
          Some (mkTransformState (ci + 1) si off
                  (out ++ [with_position clientOp (position clientOp + off)]))
      | Some serverOp =>
          if (position clientOp <? position serverOp)%Z then
            Some (mkTransformState (ci + 1) si off
                    (out ++ [with_position clientOp (position clientOp + off)]))
          else if (position serverOp <? position clientOp)%Z then
            match op_type serverOp with
            | insert =>
                Some (mkTransformState ci (si + 1) (off + text_length serverOp) out)
            | delete =>
                Some (mkTransformState ci (si + 1) (off - length_or_0 serverOp) out)
            | retain =>
                Some (mkTransformState ci (si + 1) off out)
            end
          else
            match op_type clientOp, op_type serverOp with
            | insert, insert =>
                Some (mkTransformState (ci + 1) (si + 1) off
                        (out ++ [with_position clientOp
                                   (position clientOp + text_length serverOp)]))
            | delete, delete =>
                Some (mkTransformState (ci + 1) (si + 1) off out)
            | _, _ =>
                Some (mkTransformState (ci + 1) (si + 1) off
                        (out ++ [with_position clientOp (position clientOp + off)]))
            end
      end
    end
  else None.

Fixpoint transform_loop (fuel : nat) (clientOps serverOps : list Operation)
    (s : TransformState) : TransformState :=
  match fuel with
  | O => s
  | S fuel' =>
    match transform_step clientOps serverOps s with
    | None => s
    | Some s' => transform_loop fuel' clientOps serverOps s'
    end
  end.

(** [transformOperations(clientOps, serverOps)].  Every iteration advances
    [clientIndex], or advances [serverIndex] below [serverOps.length], so
    the two lengths bound the number of iterations. *)
Definition transformOperations (clientOps serverOps : list Operation)
    : list Operation :=
  transformed
    (transform_loop (length clientOps + length serverOps) clientOps serverOps
       (mkTransformState 0 0 0%Z [])).

(** [[...operations].sort((a, b) => a.position - b.position)]: the sort is
    stable, so it is the insertion of each operation, last first, before the
    first operation that is not at a smaller position. *)
Fixpoint insert_by_position (op : Operation) (sorted : list Operation)
    : list Operation :=
  match sorted with
  | [] => [op]
  | op' :: rest =>
      if (position op <=? position op')%Z then op :: sorted
      else op' :: insert_by_position op rest
  end.

Definition sort_by_position (operations : list Operation) : list Operation :=
  foldr insert_by_position [] operations.

(** [s + op.text]: an absent text is the string "undefined". *)
Definition text_or_undefined (op : Operation) : jsstring :=
  match op_text op with
  | Some t => t
  | None => js "undefined"
  end.

(** The body of the loop of [applyOperations]: state is [result] and
    [offset].  The offset and the adjusted position are integers: they are
    what the code computes as long as they are safe integers. *)
Definition apply_step (st : Content * Z) (op : Operation) : Result (Content * Z) :=
  let '(result, offset) := st in
  let adjustedPosition := (position op + offset)%Z in
  match op_type op with
  | insert =>
      before ← slice_of result 0 adjustedPosition;
      after ← slice_from_of result adjustedPosition;
      Ok (CStr (before ++ text_or_undefined op ++ after),
          (offset + text_length op)%Z)
  | delete =>
      before ← slice_of result 0 adjustedPosition;
      after ← slice_from_of result (adjustedPosition + length_or_0 op);
      Ok (CStr (before ++ after), (offset - length_or_0 op)%Z)
  | retain => Ok (result, offset)
  end.

Fixpoint apply_loop (st : Content * Z) (sortedOps : list Operation)
    : Result (Content * Z) :=
  match sortedOps with
  | [] => Ok st
  | op :: rest => apply_step st op ≫= fun st' => apply_loop st' rest
  end.

(** [applyOperations(content, operations)] *)
Definition applyOperations (content : Content) (operations : list Operation)
    : Result Content :=
  st ← apply_loop (content, 0%Z) (sort_by_position operations);
  Ok (fst st).

(** The object that [operationalTransform] returns; [error] is the string
    "OT failed: " followed by the message of the exception caught. *)
Record OTResult := mkOTResult {
  success : bool;
  mergedContent : option Content;
  error : option JsError
}.

(** The [try] block of [operationalTransform], in two parts: up to the
    value of [transformedClientOps], and the whole block. *)
Definition transformedClientOps (baseContent clientContent serverContent : Content)
    (diffFunction : Content -> Content -> Result (list DiffResult))
    : Result (list Operation) :=
  serverDiffs ← diffFunction baseContent serverContent;
  clientDiffs ← diffFunction baseContent clientContent;
  let serverOps := diffToOperations serverDiffs in
  let clientOps := diffToOperations clientDiffs in
  Ok (transformOperations clientOps serverOps).

Definition operationalTransform_try (baseContent clientContent serverContent : Content)
    (diffFunction : Content -> Content -> Result (list DiffResult))
    : Result Content :=
  ops ← transformedClientOps baseContent clientContent serverContent diffFunction;
  applyOperations serverContent ops.

(** [operationalTransform(baseContent, clientContent, serverContent, diffFunction)] *)
Definition operationalTransform (baseContent clientContent serverContent : Content)
    (diffFunction : Content -> Content -> Result (list DiffResult))
    : OTResult :=
  match operationalTransform_try baseContent clientContent serverContent diffFunction with
  | Ok merged => mkOTResult true (Some merged) None
  | Throw e => mkOTResult false None (Some e)
  end.

(** ** The hasher and the serializer

    [hashObject] hashes a string with [Bun.CryptoHasher('sha1')]: the string
    is encoded as UTF-8 and the SHA-1 digest is printed in lowercase
    hexadecimal.  Objects are serialized with [JSON.stringify] first. *)

Module Sha1.
Local Open Scope N_scope.

Definition w32 (x : N) : N := N.land x 0xFFFFFFFF.
Definition rotl (n x : N) : N :=
  w32 (N.lor (N.shiftl x n) (N.shiftr x (32 - n))).
Definition add32 (x y : N) : N := w32 (x + y).

(** The bytes of [x], most significant first, in [k] bytes. *)
Definition be_bytes (k : nat) (x : N) : list N :=
  map (fun i => N.land (N.shiftr x (8 * N.of_nat i)) 0xFF) (rev (seq 0 k)).

(** Padding: a [1] bit, zeros up to 56 modulo 64 bytes, the bit length. *)
Definition pad (msg : list N) : list N :=
  let len := N.of_nat (length msg) in
  msg ++ [0x80] ++ replicate (N.to_nat ((119 - len mod 64) mod 64)) 0
      ++ be_bytes 8 (8 * len).

Fixpoint be_words (fuel : nat) (bs : list N) : list N :=
  match fuel, bs with
  | S f, b0 :: b1 :: b2 :: b3 :: rest =>
      (N.shiftl b0 24 + N.shiftl b1 16 + N.shiftl b2 8 + b3) :: be_words f rest
  | _, _ => []
  end.

Record state := mkState { ha : N; hb : N; hc : N; hd : N; he : N }.

Definition f (t : nat) (b c d : N) : N :=
  if (t <? 20)%nat then N.lor (N.land b c) (N.land (N.lxor b 0xFFFFFFFF) d)
  else if (t <? 40)%nat then N.lxor (N.lxor b c) d
  else if (t <? 60)%nat then N.lor (N.lor (N.land b c) (N.land b d)) (N.land c d)
  else N.lxor (N.lxor b c) d.

Definition k (t : nat) : N :=
  if (t <? 20)%nat then 0x5A827999
  else if (t <? 40)%nat then 0x6ED9EBA1
  else if (t <? 60)%nat then 0x8F1BBCDC
  else 0xCA62C1D6.

(** The message schedule as a window of sixteen words: the head is [W t],
    and [W (t+16)] is appended. *)
Definition next_window (w : list N) : list N :=
  tail w ++ [rotl 1 (N.lxor (N.lxor (nth 13 w 0) (nth 8 w 0))
                            (N.lxor (nth 2 w 0) (nth 0 w 0)))].

Fixpoint rounds (n t : nat) (w : list N) (s : state) : state :=
  match n with
  | O => s
  | S n' =>
    let temp :=
      add32 (add32 (add32 (add32 (rotl 5 (ha s)) (f t (hb s) (hc s) (hd s)))
                          (he s)) (k t)) (nth 0 w 0) in
    rounds n' (S t) (next_window w)
      (mkState temp (ha s) (rotl 30 (hb s)) (hc s) (hd s))
  end.

Definition block (s : state) (w : list N) : state :=
  let r := rounds 80 0 w s in
  mkState (add32 (ha s) (ha r)) (add32 (hb s) (hb r)) (add32 (hc s) (hc r))
          (add32 (hd s) (hd r)) (add32 (he s) (he r)).

Fixpoint blocks (fuel : nat) (ws : list N) (s : state) : state :=
  match fuel with
  | O => s
  | S fuel' =>
    match ws with
    | [] => s
    | _ => blocks fuel' (drop 16 ws) (block s (take 16 ws))
    end
  end.

Definition hex_digit (d : N) : N := if d <? 10 then 48 + d else 87 + d.

(** [x] in [k] lowercase hexadecimal digits. *)
Definition hex (k : nat) (x : N) : jsstring :=
  map (fun i => hex_digit (N.land (N.shiftr x (4 * N.of_nat i)) 0xF))
      (rev (seq 0 k)).

Definition digest_hex (bytes : list N) : jsstring :=
  let p := pad bytes in
  let ws := be_words (length p) p in
  let s := blocks (length ws) ws
             (mkState 0x67452301 0xEFCDAB89 0x98BADCFE 0x10325476 0xC3D2E1F0) in
  hex 8 (ha s) ++ hex 8 (hb s) ++ hex 8 (hc s) ++ hex 8 (hd s) ++ hex 8 (he s).

(** The UTF-8 encoding of a string; a surrogate without its pair is encoded
    as U+FFFD. *)
Fixpoint utf8 (s : jsstring) : list N :=
  match s with
  | [] => []
  | c :: rest =>
    if c <? 0x80 then c :: utf8 rest
    else if c <? 0x800 then
      (0xC0 + N.shiftr c 6) :: (0x80 + N.land c 0x3F) :: utf8 rest
    else if (0xD800 <=? c) && (c <? 0xDC00) then
      match rest with
      | d :: rest' =>
        if (0xDC00 <=? d) && (d <? 0xE000) then
          let cp := 0x10000 + N.shiftl (c - 0xD800) 10 + (d - 0xDC00) in
          (0xF0 + N.shiftr cp 18) :: (0x80 + N.land (N.shiftr cp 12) 0x3F)
            :: (0x80 + N.land (N.shiftr cp 6) 0x3F) :: (0x80 + N.land cp 0x3F)
            :: utf8 rest'
        else 0xEF :: 0xBF :: 0xBD :: utf8 rest
      | [] => [0xEF; 0xBF; 0xBD]
      end
    else if (0xDC00 <=? c) && (c <? 0xE000) then
      0xEF :: 0xBF :: 0xBD :: utf8 rest
    else
      (0xE0 + N.shiftr c 12) :: (0x80 + N.land (N.shiftr c 6) 0x3F)
        :: (0x80 + N.land c 0x3F) :: utf8 rest
  end.

End Sha1.

(** [hasher.update(content); hasher.digest('hex')] *)
Definition sha1_hex (content : jsstring) : Hash :=
  Sha1.digest_hex (Sha1.utf8 content).

(** A digest is computed by evaluation only, never unfolded by a tactic. *)
#[global] Opaque sha1_hex.

Module Json.
Local Open Scope N_scope.

(** The escape [\uXXXX]. *)
Definition unicode_escape (c : N) : jsstring := [92; 117] ++ Sha1.hex 4 c.

(** The characters of a string between the quotes of its JSON form: quote
    and backslash are escaped, control characters have their short or
    [\u] escape, and a surrogate without its pair has its [\u] escape. *)
Fixpoint escape (s : jsstring) : jsstring :=
  match s with
  | [] => []
  | c :: rest =>
    if c =? 0x22 then [92; 0x22] ++ escape rest
    else if c =? 0x5C then [92; 92] ++ escape rest
    else if c =? 0x08 then [92; 98] ++ escape rest
    else if c =? 0x09 then [92; 116] ++ escape rest
    else if c =? 0x0A then [92; 110] ++ escape rest
    else if c =? 0x0C then [92; 102] ++ escape rest
    else if c =? 0x0D then [92; 114] ++ escape rest
    else if c <? 0x20 then unicode_escape c ++ escape rest
    else if (0xD800 <=? c) && (c <? 0xDC00) then
      match rest with
      | d :: rest' =>
        if (0xDC00 <=? d) && (d <? 0xE000) then c :: d :: escape rest'
        else unicode_escape c ++ escape rest
      | [] => unicode_escape c
      end
    else if (0xDC00 <=? c) && (c <? 0xE000) then unicode_escape c ++ escape rest
    else c :: escape rest
  end.

Definition quote (s : jsstring) : jsstring := [0x22] ++ escape s ++ [0x22].

End Json.

(** [JSON.stringify(data)] for a tree and for a commit, whose properties
    were created in the order [tree], [parent], [message], [timestamp]. *)
Definition JSON_stringify (data : GitObject) : jsstring :=
  match data with
  | GBlob s => Json.quote s
  | GTree filename blobHash =>
      js "{" ++ Json.quote filename ++ js ":" ++ Json.quote blobHash ++ js "}"
  | GCommit c =>
      js "{" ++ Json.quote (js "tree") ++ js ":" ++ Json.quote (tree c)
        ++ js "," ++ Json.quote (js "parent") ++ js ":"
        ++ match parent c with Some p => Json.quote p | None => js "null" end
        ++ js "," ++ Json.quote (js "message") ++ js ":" ++ Json.quote (message c)
        ++ js "," ++ Json.quote (js "timestamp") ++ js ":" ++ Json.quote (timestamp c)
        ++ js "}"
  end.

(** ** versioning.ts: [VersionHistory] *)

Record VersionHistory := mkVersionHistory {
  db : gmap Hash GitObject;
  HEAD : option Hash;
  filename : jsstring
}.

#[global] Instance VersionHistory_eq_dec : EqDecision VersionHistory.
Proof. solve_decision. Defined.

(** [new VersionHistory(filename)] *)
Definition new_VersionHistory (filename : jsstring) : VersionHistory :=
  mkVersionHistory ∅ None filename.

Definition getHeadHash (vh : VersionHistory) : option Hash := HEAD vh.

(** [hashObject(data)] *)
Definition hashObject (data : GitObject) : Hash :=
  let content :=
    match data with
    | GBlob s => s
    | _ => JSON_stringify data
    end in
  sha1_hex content.

(** [this.db.has(key)] *)
Definition db_has (d : gmap Hash GitObject) (key : Hash) : bool :=
  bool_decide (is_Some (d !! key)).

(** [if (!d.has(key)) d.set(key, value)] *)
Definition put_if_absent (d : gmap Hash GitObject) (key : Hash) (value : GitObject)
    : gmap Hash GitObject :=
  if db_has d key then d else <[key := value]> d.

(** [commit(content, message)] on the object that the caller hands over.
    The annotation [content: string] does nothing at run time, and
    [hashObject] serializes what is not a string.  The two readings of the
    clock are inputs: [now_message] is read only for an empty [message],
    [now_timestamp] always. *)
Definition commit_object (vh : VersionHistory) (content : GitObject)
    (message_ : jsstring) (now_message now_timestamp : jsstring)
    : VersionHistory * Hash :=
  let blobHash := hashObject content in
  let db1 := put_if_absent (db vh) blobHash content in
  let treeData := GTree (filename vh) blobHash in
  let treeHash := hashObject treeData in
  let db2 := put_if_absent db1 treeHash treeData in
  let commitData :=
    mkCommit treeHash (HEAD vh)
      (match message_ with
       | [] => js "Commit at " ++ now_message
       | _ => message_
       end)
      now_timestamp in
  let commitHash := hashObject (GCommit commitData) in
  (mkVersionHistory (<[commitHash := GCommit commitData]> db2)
     (Some commitHash) (filename vh),
   commitHash).

(** [commit(content, message)] on a string. *)
Definition commit (vh : VersionHistory) (content message_ : jsstring)
    (now_message now_timestamp : jsstring) : VersionHistory * Hash :=
  commit_object vh (GBlob content) message_ now_message now_timestamp.

(** The value of a property read [o[key]]. *)
Inductive PropValue :=
  | PUndefined
  | PNull
  | PString (s : jsstring)
  | PNumber (n : Z)
  | PBuiltin.

(** The property names that every object inherits from [Object.prototype],
    and those that a string inherits from [String.prototype] in addition
    (ECMAScript 2024 with Annex B).  Their values are functions or objects. *)
Definition Object_prototype_names : list jsstring :=
  map js ["constructor"; "__defineGetter__"; "__defineSetter__";
          "hasOwnProperty"; "__lookupGetter__"; "__lookupSetter__";
          "isPrototypeOf"; "propertyIsEnumerable"; "toString"; "valueOf";
          "__proto__"; "toLocaleString"].

Definition String_prototype_names : list jsstring :=
  map js ["anchor"; "at"; "big"; "blink"; "bold"; "charAt"; "charCodeAt";
          "codePointAt"; "concat"; "endsWith"; "fixed"; "fontcolor";
          "fontsize"; "includes"; "indexOf"; "isWellFormed"; "italics";
          "lastIndexOf"; "link"; "localeCompare"; "match"; "matchAll";
          "normalize"; "padEnd"; "padStart"; "repeat"; "replace";
          "replaceAll"; "search"; "slice"; "small"; "split"; "startsWith";
          "strike"; "sub"; "substr"; "substring"; "sup"; "toLocaleLowerCase";
          "toLocaleUpperCase"; "toLowerCase"; "toUpperCase"; "toWellFormed";
          "trim"; "trimEnd"; "trimLeft"; "trimRight"; "trimStart"].

Definition inherited (names : list jsstring) (key : jsstring) : PropValue :=
  if bool_decide (key ∈ names) then PBuiltin else PUndefined.

(** The index that a property name denotes, when it is the decimal form of
    a natural number without a leading zero. *)
Definition array_index (key : jsstring) : option nat :=
  match key with
  | [] => None
  | c :: rest =>
    if forallb (fun d => (48 <=? d)%N && (d <=? 57)%N) key
       && negb ((c =? 48)%N && negb (bool_decide (rest = [])))
    then Some (foldl (fun acc d => 10 * acc + N.to_nat (d - 48)) 0 key)
    else None
  end.

(** [o[key]] for the objects of the store. *)
Definition get_property (o : GitObject) (key : jsstring) : PropValue :=
  match o with
  | GBlob s =>
      match array_index key ≫= (s !!.) with
      | Some c => PString [c]
      | None =>
          if bool_decide (key = js "length") then PNumber (jslength s)
          else inherited (String_prototype_names ++ Object_prototype_names) key
      end
  | GTree filename blobHash =>
      if bool_decide (key = filename) then PString blobHash
      else inherited Object_prototype_names key
  | GCommit c =>
      if bool_decide (key = js "tree") then PString (tree c)
      else if bool_decide (key = js "parent") then
        match parent c with Some p => PString p | None => PNull end
      else if bool_decide (key = js "message") then PString (message c)
      else if bool_decide (key = js "timestamp") then PString (timestamp c)
      else inherited Object_prototype_names key
  end.

(** [!v] on a property value and on a stored object. *)
Definition falsy (v : PropValue) : bool :=
  match v with
  | PUndefined | PNull | PString [] => true
  | PNumber n => (n =? 0)%Z
  | _ => false
  end.

Definition falsy_object (o : GitObject) : bool :=
  match o with
  | GBlob [] => true
  | _ => false
  end.

(** [this.db.get(key)], where the key is a value read from an object: only
    strings are keys of the store. *)
Definition db_get (d : gmap Hash GitObject) (key : PropValue) : option GitObject :=
  match key with
  | PString h => d !! h
  | _ => None
  end.

(** [getContent(commitHash)] *)
Definition getContent (vh : VersionHistory) (commitHash : option Hash) : Content :=
  match commitHash with
  | None | Some [] => CNull
  | Some h =>
    match db vh !! h with
    | None => CNull
    | Some commit_ =>
      if falsy_object commit_ then CNull
      else
        match db_get (db vh) (get_property commit_ (js "tree")) with
        | None => CNull
        | Some tree_ =>
          if falsy_object tree_ then CNull
          else
            let blobHash := get_property tree_ (filename vh) in
            if falsy blobHash then CNull
            else
              match db_get (db vh) blobHash with
              | Some blob => CObject blob
              | None => CUndefined
              end
        end
    end
  end.

Definition getCurrentContent (vh : VersionHistory) : Content :=
  getContent vh (HEAD vh).

(** A value in a template literal.  The values read as the message of a
    commit are [undefined] and strings; a number or a built-in is never
    read there, and is printed as nothing. *)
Definition template (v : PropValue) : jsstring :=
  match v with
  | PUndefined => js "undefined"
  | PNull => js "null"
  | PString s => s
  | _ => []
  end.

(** The [while (currentHash)] loop of [log]: the lines printed.  A hash
    that is not a string with characters ends the loop, at the test or at
    the [break]. *)
Fixpoint log_loop (fuel : nat) (vh : VersionHistory) (currentHash : PropValue)
    : list jsstring :=
  match fuel with
  | O => []
  | S fuel' =>
    match currentHash with
    | PString (x :: h) =>
      match db vh !! (x :: h) with
      | None => []
      | Some commit_ =>
        if falsy_object commit_ then []
        else
          let headMarker :=
            if bool_decide (Some (x :: h) = HEAD vh) then js " (HEAD)" else [] in
          (js "- " ++ take 12 (x :: h) ++ headMarker ++ js ": "
             ++ template (get_property commit_ (js "message")))
          :: log_loop fuel' vh (get_property commit_ (js "parent"))
      end
    | _ => []
    end
  end.

(** [log()]: the lines printed to the console. *)
Definition log (fuel : nat) (vh : VersionHistory) : list jsstring :=
  [js "--- Commit History ---"]
  ++ log_loop fuel vh (match HEAD vh with Some h => PString h | None => PNull end)
  ++ [js "--------------------"].

(** ** The sync server *)

(** A websocket, with the [data] attached at upgrade. *)
Record Ws := mkWs {
  ws_id : nat;
  noteId : jsstring
}.

#[global] Instance Ws_eq_dec : EqDecision Ws.
Proof. solve_decision. Defined.

(** A parsed frame from a client, [{ type, payload }]: a ['sync'] frame with
    its [base_hash] (a string or [null]) and [operations], or a frame of
    another type. *)
Inductive ClientMsg :=
  | Sync (base_hash : option Hash) (operations : list Operation)
  | NotSync (type : jsstring).

(** A frame to a client.  The payload of a [conflict] is the [error] of the
    result of [operationalTransform]. *)
Inductive ServerMsg :=
  | MsgError (message : jsstring)
  | MsgAck (new_hash : Hash)
  | MsgUpdate (latest_hash : Hash) (operations : list Operation)
  | MsgConflict (message : option JsError)
  | MsgUserCount (count : nat).

(** The two module-level maps.  A [Set] of sockets is the list of its
    elements in insertion order. *)
Record Server := mkServer {
  noteHistories : gmap jsstring VersionHistory;
  noteConnections : gmap jsstring (list Ws)
}.

#[global] Instance ServerMsg_eq_dec : EqDecision ServerMsg.
Proof. solve_decision. Defined.
#[global] Instance Server_eq_dec : EqDecision Server.
Proof. solve_decision. Defined.

Abbreviation Sent := (list (Ws * ServerMsg)).

(** How a handler ends: it returns, or an exception leaves it. *)
Inductive Outcome :=
  | Returned (st : Server) (sent : Sent)
  | Uncaught (e : JsError) (st : Server) (sent : Sent).

#[global] Instance Outcome_eq_dec : EqDecision Outcome.
Proof. solve_decision. Defined.

(** [getHistoryForNote(noteId)]; [now] is the clock read by the initial
    commit of a new history. *)
Definition getHistoryForNote (st : Server) (noteId : jsstring) (now : jsstring)
    : Server * VersionHistory :=
  match noteHistories st !! noteId with
  | Some vh => (st, vh)
  | None =>
      let newHistory :=
        fst (commit (new_VersionHistory noteId) [] (js "Initial empty commit")
               now now) in
      (mkServer (<[noteId := newHistory]> (noteHistories st)) (noteConnections st),
       newHistory)
  end.

(** [broadcastUserCount(noteId)] *)
Definition broadcastUserCount (st : Server) (noteId : jsstring) : Sent :=
  match noteConnections st !! noteId with
  | Some connections =>
      map (fun ws => (ws, MsgUserCount (length connections))) connections
  | None => []
  end.

(** [websocket.open(ws)] *)
Definition websocket_open (st : Server) (ws : Ws) : Server * Sent :=
  let connections := default [] (noteConnections st !! noteId ws) in
  let connections' :=
    if bool_decide (ws ∈ connections) then connections else connections ++ [ws] in
  let st' := mkServer (noteHistories st)
               (<[noteId ws := connections']> (noteConnections st)) in
  (st', broadcastUserCount st' (noteId ws)).

(** [for (const client of noteConnections.get(noteId) || []) if (client !== ws)
    client.send(updateMessage)] *)
Definition send_to_others (st : Server) (ws : Ws) (updateMessage : ServerMsg) : Sent :=
  map (fun client => (client, updateMessage))
      (filter (fun client => client ≠ ws)
              (default [] (noteConnections st !! noteId ws))).

(** A history is an object held by [noteHistories]; a commit mutates it in
    place. *)
Definition set_history (st : Server) (noteId : jsstring) (vh : VersionHistory) : Server :=
  mkServer (<[noteId := vh]> (noteHistories st)) (noteConnections st).

(** [websocket.message(ws, message)].  [now_init] is the clock read if the
    history of the note has to be created, [now] the clock read by the
    commit of this request.

    The content handed to [commit] is whatever [applyOperations] returned.
    An object of the store is committed like a string.  On [undefined],
    [JSON.stringify] gives [undefined] and [hasher.update] raises before
    the store is touched.  [null] would be stored by [commit], and the
    store of this model holds no [null]: for that case alone the result is
    [None].  The handler never gets there, since it has returned on a base
    content that is [null] and [diff] raises on a server content that is
    [null] (lemma [websocket_message_cases]). *)
Definition websocket_message (st : Server) (ws : Ws) (msg : ClientMsg)
    (now_init now : jsstring) : option Outcome :=
  match msg with
  | NotSync _ => Some (Returned st [])
  | Sync base_hash client_ops =>
    let '(st1, noteHistory) := getHistoryForNote st (noteId ws) now_init in
    let base_content := getContent noteHistory base_hash in
    let server_content := getCurrentContent noteHistory in
    if strict_eq base_content CNull then
      Some (Returned st1
              [(ws, MsgError (js "Base hash not found. Please reload."))])
    else if bool_decide (base_hash = getHeadHash noteHistory) then
      match applyOperations base_content client_ops with
      | Throw e => Some (Uncaught e st1 [])
      | Ok (CObject client_content) =>
          let '(noteHistory', newCommitHash) :=
            commit_object noteHistory client_content (js "Update from client")
              now now in
          Some (Returned (set_history st1 (noteId ws) noteHistory')
                  ((ws, MsgAck newCommitHash)
                   :: send_to_others st1 ws
                        (MsgUpdate newCommitHash client_ops)))
      | Ok CUndefined => Some (Uncaught (TypeError "update" CUndefined) st1 [])
      | Ok CNull => None
      end
    else
      match applyOperations base_content client_ops with
      | Throw e => Some (Uncaught e st1 [])
      | Ok client_content =>
        let r := operationalTransform base_content client_content server_content diff in
        if negb (success r) then
          Some (Returned st1 [(ws, MsgConflict (error r))])
        else
          match default CUndefined (mergedContent r) with
          | CObject merged =>
              let '(noteHistory', newCommitHash) :=
                commit_object noteHistory merged (js "Merged update from client")
                  now now in
              let st2 := set_history st1 (noteId ws) noteHistory' in
              let ack := (ws, MsgAck newCommitHash) in
              match diff server_content (CObject merged) with
              | Throw e => Some (Uncaught e st2 [ack])
              | Ok server_update_diff =>
                  let server_update_ops := diffToOperations server_update_diff in
                  if 0 <? length server_update_ops then
                    Some (Returned st2
                            (ack :: send_to_others st1 ws
                                      (MsgUpdate newCommitHash server_update_ops)))
                  else Some (Returned st2 [ack])
              end
          | CUndefined => Some (Uncaught (TypeError "update" CUndefined) st1 [])
          | CNull => None
          end
      end
  end.

(** [websocket.close(ws)]: the socket is taken out of the set of its note,
    the count is broadcast to the set, and an empty set is removed from the
    map. *)
Definition websocket_close (st : Server) (ws : Ws) : Server * Sent :=
  match noteConnections st !! noteId ws with
  | Some connections =>
      let connections' := filter (fun client => client ≠ ws) connections in
      let st' := mkServer (noteHistories st)
                   (<[noteId ws := connections']> (noteConnections st)) in
      let sent := broadcastUserCount st' (noteId ws) in
      if length connections' =? 0 then
        (mkServer (noteHistories st) (base.delete (noteId ws) (noteConnections st)), sent)
      else (st', sent)
  | None => (st, [])
  end.

(** The body of the response to [GET /api/note/<noteId>]. *)
Record NoteResponse := mkNoteResponse {
  latest_hash : option Hash;
  latest_content : Content
}.

(** The branch of [fetch] for [GET /api/note/<noteId>]; [now] is the clock
    read if the history has to be created. *)
Definition fetch_note (st : Server) (noteId : jsstring) (now : jsstring)
    : Server * NoteResponse :=
  let '(st1, noteHistory) := getHistoryForNote st noteId now in
  (st1, mkNoteResponse (getHeadHash noteHistory) (getCurrentContent noteHistory)).

(** ** The client (app.ts)

    The variables of the page that the sync protocol uses, and the value of
    the editor.  The status line, the counters and the timers are left
    out. *)

Record Client := mkClient {
  latestHash : option Hash;
  synchronizedContent : Content;
  inFlightOps : option (list Operation);
  pendingOps : option (list Operation);
  editor_value : jsstring
}.

(** How a handler of the page ends: it returns, with the frames it sent; an
    exception leaves it; or the page is reloaded. *)
Inductive ClientOutcome :=
  | CReturned (c : Client) (sent : list ClientMsg)
  | CUncaught (e : JsError) (c : Client)
  | CReload.

(** [editor.value = content]: the value of a text area is a string; [null]
    becomes the empty string, and any other value is converted. *)
Definition to_editor (content : Content) : jsstring :=
  match content with
  | CStr s => s
  | CNull => []
  | CUndefined => js "undefined"
  | CObject _ => js "[object Object]"
  end.

(** The assignments of [ws.onopen], when the response is [ok]. *)
Definition ws_onopen (c : Client) (data : NoteResponse) : Client :=
  mkClient (latest_hash data) (latest_content data) (inFlightOps c) (pendingOps c)
    (to_editor (latest_content data)).

(** [sendOperations(ops)]; [ws_open] is [ws.readyState === WebSocket.OPEN]. *)
Definition sendOperations (ws_open : bool) (c : Client) (ops : list Operation)
    : Client * list ClientMsg :=
  if negb ws_open then (c, [])
  else
    match inFlightOps c with
    | Some _ =>
        (mkClient (latestHash c) (synchronizedContent c) (inFlightOps c)
           (Some (match pendingOps c with
                  | Some pending => pending ++ ops
                  | None => ops
                  end))
           (editor_value c),
         [])
    | None =>
        (mkClient (latestHash c) (synchronizedContent c) (Some ops) (pendingOps c)
           (editor_value c),
         [Sync (latestHash c) ops])
    end.

(** [content = applyOperations(content, ops)] under [if (ops)]. *)
Definition apply_if_some (content : Content) (ops : option (list Operation))
    : Result Content :=
  match ops with
  | Some ops => applyOperations content ops
  | None => Ok content
  end.

(** [handleAck(payload)] *)
Definition handleAck (ws_open : bool) (c : Client) (new_hash : Hash) : ClientOutcome :=
  match apply_if_some (synchronizedContent c) (inFlightOps c) with
  | Throw e =>
      CUncaught e (mkClient (Some new_hash) (synchronizedContent c) (inFlightOps c)
                     (pendingOps c) (editor_value c))
  | Ok content =>
      let c1 := mkClient (Some new_hash) content None (pendingOps c) (editor_value c) in
      match pendingOps c with
      | Some pending =>
          let '(c2, sent) := sendOperations ws_open c1 pending in
          CReturned (mkClient (latestHash c2) (synchronizedContent c2) (inFlightOps c2)
                       None (editor_value c2))
                    sent
      | None => CReturned c1 []
      end
  end.

(** [handleUpdate(payload)] *)
Definition handleUpdate (c : Client) (latest_hash : Hash) (incomingOps : list Operation)
    : ClientOutcome :=
  match applyOperations (synchronizedContent c) incomingOps with
  | Throw e => CUncaught e c
  | Ok content =>
    let inFlight' := (fun ops => transformOperations ops incomingOps) <$> inFlightOps c in
    match apply_if_some content inFlight' with
    | Throw e =>
        CUncaught e (mkClient (Some latest_hash) content inFlight' (pendingOps c)
                       (editor_value c))
    | Ok newEditorContent1 =>
      let pending' := (fun ops => transformOperations ops incomingOps) <$> pendingOps c in
      match apply_if_some newEditorContent1 pending' with
      | Throw e =>
          CUncaught e (mkClient (Some latest_hash) content inFlight' pending'
                         (editor_value c))
      | Ok newEditorContent =>
          CReturned (mkClient (Some latest_hash) content inFlight' pending'
                       (to_editor newEditorContent))
                    []
      end
    end
  end.

(** The [switch] of [ws.onmessage]. *)
Definition ws_onmessage (ws_open : bool) (c : Client) (m : ServerMsg) : ClientOutcome :=
  match m with
  | MsgAck new_hash => handleAck ws_open c new_hash
  | MsgUpdate latest_hash operations => handleUpdate c latest_hash operations
  | MsgConflict _ => CReload
  | MsgUserCount _ => CReturned c []
  | MsgError _ => CReturned c []
  end.

(** The user edits the text area. *)
Definition edit_text (c : Client) (text : jsstring) : Client :=
  mkClient (latestHash c) (synchronizedContent c) (inFlightOps c) (pendingOps c) text.

(** The callback that the [input] listener runs, 500 ms after the last
    input. *)
Definition input_callback (ws_open : bool) (c : Client) : ClientOutcome :=
  let currentText := editor_value c in
  match apply_if_some (synchronizedContent c) (inFlightOps c) with
  | Throw e => CUncaught e c
  | Ok base1 =>
    match apply_if_some base1 (pendingOps c) with
    | Throw e => CUncaught e c
    | Ok baseContentForDiff =>
      match diff baseContentForDiff (CStr currentText) with
      | Throw e => CUncaught e c
      | Ok d =>
          let ops := diffToOperations d in
          if 0 <? length ops then
            let '(c', sent) := sendOperations ws_open c ops in CReturned c' sent
          else CReturned c []
      end
    end
  end.

(** ** mini-git.ts: the diff of lines

    The file has its own copy of [generateCharacterDiff], the same as the
    one of versioning.ts, and a [diff] that works on lines. *)

Module MiniGit.

(** [text.split('\n')] *)
Fixpoint split_lines (s : jsstring) : list jsstring :=
  match s with
  | [] => [[]]
  | c :: rest =>
    if (c =? 10)%N then [] :: split_lines rest
    else
      match split_lines rest with
      | l :: ls => (c :: l) :: ls
      | [] => [[c]]
      end
  end.

Definition split_lines_of (v : Content) : Result (list jsstring) :=
  match v with
  | CStr s => Ok (split_lines s)
  | _ => Throw (TypeError "split" v)
  end.

(** The loop that turns the raw results into the final ones: a removed
    line followed by an added line becomes one modified line with its
    character diffs. A raw result [{ line, type }] is held as a [CharDiff]
    whose [char] is the line. *)
Fixpoint post_process (rawResults : list CharDiff) : Result (list DiffResult) :=
  match rawResults with
  | [] => Ok []
  | current :: rest =>
    let plain :=
      finalResult ← post_process rest;
      Ok (diff_entry current :: finalResult) in
    match cd_type current, rest with
    | cd_removed, next :: rest' =>
      match cd_type next with
      | cd_added =>
          charDiffs ← generateCharacterDiff (CStr (char current)) (CStr (char next));
          finalResult ← post_process rest';
          Ok (mkDiffResult modified [] (Some charDiffs) (Some (char current))
                :: finalResult)
      | _ => plain
      end
    | _, _ => plain
    end
  end.

(** [diff(text1, text2)]: the table and the loop back through it are those
    of [generateCharacterDiff], on lines. *)
Definition diff (text1 text2 : Content) : Result (list DiffResult) :=
  lines1 ← split_lines_of text1;
  lines2 ← split_lines_of text2;
  let n := length lines1 in
  let m := length lines2 in
  let dp := dp_fill lines1 lines2 in
  post_process (backtrack (n + m) lines1 lines2 dp n m []).

End MiniGit.

(** ** mini-linear.ts: models, the queue and the mock server

    A model object is known by its id: the pool holds one model for each id,
    and every reference to a model is to the one in the pool. *)

Module MiniLinear.
Section Values.

(** The values of the properties are any values: [undefined] is what a
    property that is not there reads as, [strict_equal] is [===], and
    [string_value] is a string as a value. *)
Context {V : Type}.
Variable undefined : V.
Variable strict_equal : V -> V -> bool.
Variable string_value : jsstring -> V.

(** The keys that the setters of [Issue] pass to [setProperty]. *)
Inductive Field := title | assigneeId.

Definition field_key (key : Field) : jsstring :=
  match key with
  | title => js "title"
  | assigneeId => js "assigneeId"
  end.

Record PendingChange := mkPendingChange {
  oldValue : V;
  newValue : V
}.

(** [class SyncableModel] *)
Record SyncableModel := mkSyncableModel {
  id : jsstring;
  _data : gmap jsstring V;
  _pendingChanges : gmap jsstring PendingChange
}.

(** [interface Transaction]; [type] and [modelName] are constants. *)
Record Transaction := mkTransaction {
  transactionId : jsstring;
  modelId : jsstring;
  payload : gmap jsstring V
}.

(** The queue, the mock server and the sync engine: [outbox], [database]
    and [lastSyncId], and [objectPool]. *)
Record World := mkWorld {
  database : gmap jsstring (gmap jsstring V);
  lastSyncId : Z;
  objectPool : gmap jsstring SyncableModel;
  outbox : list Transaction
}.

(** [new Issue(id, initialData, queue)]: [{ ...initialData, id }] *)
Definition new_Issue (id : jsstring) (initialData : gmap jsstring V) : SyncableModel :=
  mkSyncableModel id (<[js "id" := string_value id]> initialData) ∅.

(** [setProperty(key, value)] *)
Definition setProperty (m : SyncableModel) (key : Field) (value : V) : SyncableModel :=
  let old := default undefined (_data m !! field_key key) in
  if strict_equal old value then m
  else
    mkSyncableModel (id m)
      (<[field_key key := value]> (_data m))
      (<[field_key key := mkPendingChange old value]> (_pendingChanges m)).

(** [get data()]: the base data with the pending changes on top. *)
Definition data (m : SyncableModel) : gmap jsstring V :=
  (newValue <$> _pendingChanges m) ∪ _data m.

(** The getters of [Issue]. *)
Definition get_field (m : SyncableModel) (key : Field) : V :=
  default undefined (data m !! field_key key).

(** [_applyServerUpdate(serverData)]: [{ ...this._data, ...serverData }] *)
Definition _applyServerUpdate (m : SyncableModel) (serverData : gmap jsstring V)
    : SyncableModel :=
  mkSyncableModel (id m) (serverData ∪ _data m) (_pendingChanges m).

(** [getModel(id, initialData)] *)
Definition getModel (pool : gmap jsstring SyncableModel) (id : jsstring)
    (initialData : gmap jsstring V) : gmap jsstring SyncableModel :=
  match pool !! id with
  | Some _ => pool
  | None => <[id := new_Issue id initialData]> pool
  end.

(** [handleDeltaPacket(delta)], for the [modelId] and the [data] of the
    packet. *)
Definition handleDeltaPacket (pool : gmap jsstring SyncableModel)
    (modelId : jsstring) (data : gmap jsstring V) : gmap jsstring SyncableModel :=
  match pool !! modelId with
  | Some model => <[modelId := _applyServerUpdate model data]> pool
  | None => getModel pool modelId data
  end.

(** The body of the loop of [processTransactions].  The database is an
    object: a [modelId] that is a name of [Object.prototype] is outside this
    model. *)
Definition process_transaction (w : World) (tx : Transaction) : option World :=
  if bool_decide (modelId tx ∈ Object_prototype_names) then None
  else
    let entry := payload tx ∪ default ∅ (database w !! modelId tx) in
    Some (mkWorld (<[modelId tx := entry]> (database w))
            (lastSyncId w + 1)
            (handleDeltaPacket (objectPool w) (modelId tx) entry)
            (outbox w)).

Fixpoint processTransactions (w : World) (transactions : list Transaction)
    : option World :=
  match transactions with
  | [] => Some w
  | tx :: rest => process_transaction w tx ≫= fun w' => processTransactions w' rest
  end.

(** [flush()] *)
Definition flush (w : World) : option World :=
  match outbox w with
  | [] => Some w
  | transactionsToSend =>
      processTransactions
        (mkWorld (database w) (lastSyncId w) (objectPool w) []) transactionsToSend
  end.

(** [enqueue(transaction)] *)
Definition enqueue (w : World) (transaction : Transaction) : option World :=
  flush (mkWorld (database w) (lastSyncId w) (objectPool w)
           (outbox w ++ [transaction])).

(** [save()] on the model that the pool holds for [ref]; [uuid] is the
    value of [uuidv4()].  There is no result when no model is held for
    [ref]. *)
Definition save (w : World) (ref : jsstring) (uuid : jsstring) : option World :=
  m ← objectPool w !! ref;
  if bool_decide (_pendingChanges m = ∅) then Some w
  else
    w' ← enqueue w (mkTransaction uuid (id m) (newValue <$> _pendingChanges m));
    m' ← objectPool w' !! ref;
    Some (mkWorld (database w') (lastSyncId w')
            (<[ref := mkSyncableModel (id m') (_data m') ∅]> (objectPool w'))
            (outbox w')).

End Values.
End MiniLinear.

(** * The vocabulary of the properties *)

(** ** A character diff as an edit script *)

(** The characters that a script reads from the left string, and those that
    it writes to the right string. *)
Definition source_of (E : list CharDiff) : jsstring :=
  concat (map (fun cd => match cd_type cd with cd_added => [] | _ => char cd end) E).

Definition target_of (E : list CharDiff) : jsstring :=
  concat (map (fun cd => match cd_type cd with cd_removed => [] | _ => char cd end) E).

Definition single (s : jsstring) : Prop := length s = 1.

(** The operations that [diffToOperations] pushes for a script, with the
    cursor at [p]. *)
Fixpoint script_ops (p : Z) (E : list CharDiff) : list Operation :=
  match E with
  | [] => []
  | cd :: E' =>
    match cd_type cd with
    | cd_unchanged =>
        Retain (jslength (char cd)) p :: script_ops (p + jslength (char cd)) E'
    | cd_added => Insert (char cd) p :: script_ops p E'
    | cd_removed =>
        Delete (jslength (char cd)) p :: script_ops (p + jslength (char cd)) E'
    end
  end.

(** ** Shape of a list of operations *)

Definition position_le (x y : Operation) : Prop := (position x <= position y)%Z.

(** The number of source characters that a list of operations accounts
    for: the lengths of its retains and deletes. *)
Definition consumed (ops : list Operation) : Z :=
  foldr (fun op acc =>
           match op_type op with
           | insert => acc
           | _ => (length_or_0 op + acc)%Z
           end) 0%Z ops.

(** An insert carries one character; a retain or a delete has length 1 and
    sits at a position from [lo] and below [hi]. *)
Definition unit_op (lo hi : Z) (op : Operation) : Prop :=
  match op_type op with
  | insert => exists c, op_text op = Some [c]
  | _ => op_length op = Some 1%Z /\ (lo <= position op < hi)%Z
  end.

Definition generated_wellformed (a : jsstring) (ops : list Operation) : Prop :=
  Sorted position_le ops
  /\ Forall (unit_op 0 (jslength a)) ops
  /\ consumed ops = jslength a.

(** What is left to read of the two lists. *)
Definition transform_measure (clientOps serverOps : list Operation)
    (s : TransformState) : nat :=
  (length clientOps - clientIndex s) + (length serverOps - serverIndex s).

(** ** The invariants of the version store, as the specification lists them *)

(** [HEAD] is null or a key of the store. *)
Definition head_in_store (vh : VersionHistory) : Prop :=
  match HEAD vh with
  | None => True
  | Some h => is_Some (db vh !! h)
  end.

(** The tree hash of a commit is the key of a tree, and the blob hash of
    that tree is a key. *)
Definition links_resolve (d : gmap Hash GitObject) (c : Commit) : Prop :=
  exists filename blobHash,
    d !! tree c = Some (GTree filename blobHash) /\ is_Some (d !! blobHash).

(** The chain from a hash through the parents ends at a commit without a
    parent, and the links of every commit on it resolve. *)
Inductive chain_ok (d : gmap Hash GitObject) : option Hash -> Prop :=
  | chain_end : chain_ok d None
  | chain_commit (h : Hash) (c : Commit) :
      d !! h = Some (GCommit c) ->
      links_resolve d c ->
      chain_ok d (parent c) ->
      chain_ok d (Some h).

Definition store_invariant (vh : VersionHistory) : Prop :=
  head_in_store vh /\ chain_ok (db vh) (HEAD vh).

(** The key [k] is free, or it holds the very object [o]: a put of [o] at
    [k] leaves [o] there. *)
Definition free_or_same (d : gmap Hash GitObject) (k : Hash) (o : GitObject) : Prop :=
  d !! k = None \/ d !! k = Some o.

(** ** What a transform may do to the client operations *)

(** [rebased clientOps out]: [out] is [clientOps] in order, every operation
    with a position of its own and otherwise as it was, and with some of the
    deletes left out. *)
Inductive rebased : list Operation -> list Operation -> Prop :=
  | rebased_nil : rebased [] []
  | rebased_keep (op : Operation) (p : Z) (clientOps out : list Operation) :
      rebased clientOps out ->
      rebased (op :: clientOps) (with_position op p :: out)
  | rebased_drop (op : Operation) (clientOps out : list Operation) :
      op_type op = delete ->
      rebased clientOps out ->
      rebased (op :: clientOps) out.

Definition is_retain (op : Operation) : Prop := op_type op = retain.

(** ** The two texts of a diff *)

(** What an entry of a diff reads from the left text, and what it writes to
    the right text: its line, or for a modified line what its character
    diffs read and write. *)
Definition old_part (r : DiffResult) : jsstring :=
  match d_type r with
  | added => []
  | modified => source_of (default [] (charDiffs r))
  | _ => line r
  end.

Definition new_part (r : DiffResult) : jsstring :=
  match d_type r with
  | removed => []
  | modified => target_of (default [] (charDiffs r))
  | _ => line r
  end.

Definition old_text (d : list DiffResult) : jsstring := concat (map old_part d).
Definition new_text (d : list DiffResult) : jsstring := concat (map new_part d).

(** An entry of a character diff: one character, and added, removed or
    unchanged. *)
Definition char_entry (r : DiffResult) : Prop :=
  single (line r) /\ d_type r <> modified /\ charDiffs r = None /\ oldLine r = None.

(** [diff.oldLine?.length || 0] *)
Definition oldLine_length (r : DiffResult) : Z :=
  match oldLine r with
  | Some o => jslength o
  | None => 0%Z
  end.

(** A modified entry with character diffs is consistent when they are of
    one character each and its old line is as long as what they read. *)
Definition consistent (r : DiffResult) : Prop :=
  forall E, d_type r = modified -> charDiffs r = Some E ->
    Forall (fun cd => single (char cd)) E
    /\ oldLine_length r = jslength (source_of E).

(** The steps of an entry: a line as one step, and the character diffs of a
    modified line. *)
Definition entry_script (r : DiffResult) : list CharDiff :=
  match d_type r with
  | unchanged => [mkCharDiff (line r) cd_unchanged]
  | added => [mkCharDiff (line r) cd_added]
  | removed => [mkCharDiff (line r) cd_removed]
  | modified => default [] (charDiffs r)
  end.

(** ** What every history satisfies *)

(** Every object of the store sits under the key computed from it. *)
Definition content_addressed (d : gmap Hash GitObject) : Prop :=
  forall k o, d !! k = Some o -> hashObject o = k.

(** [HEAD], when it is not null, is a digest and the key of a commit
    object. *)
Definition head_is_commit (vh : VersionHistory) : Prop :=
  forall h, HEAD vh = Some h ->
    length h = 40 /\ exists c, db vh !! h = Some (GCommit c).

(** A call of [commit]: its arguments, and the two readings of the clock. *)
Record CommitCall := mkCommitCall {
  call_content : jsstring;
  call_message : jsstring;
  call_now_message : jsstring;
  call_now_timestamp : jsstring
}.

Definition commit_call (vh : VersionHistory) (c : CommitCall) : VersionHistory :=
  (commit vh (call_content c) (call_message c)
     (call_now_message c) (call_now_timestamp c)).1.

(** The history after a sequence of calls of [commit]. *)
Definition commits (vh : VersionHistory) (calls : list CommitCall) : VersionHistory :=
  foldl commit_call vh calls.

(** The keys of a commit of [content] are clean: the keys of the blob and of
    the tree are free or hold this blob and this tree, the key of the commit
    is free, and the three keys are three different keys. *)
Definition clean_keys (vh : VersionHistory) (content : jsstring) (commitHash : Hash)
    : Prop :=
  free_or_same (db vh) (hashObject (GBlob content)) (GBlob content)
  /\ free_or_same (db vh)
       (hashObject (GTree (filename vh) (hashObject (GBlob content))))
       (GTree (filename vh) (hashObject (GBlob content)))
  /\ db vh !! commitHash = None
  /\ hashObject (GTree (filename vh) (hashObject (GBlob content)))
     <> hashObject (GBlob content)
  /\ commitHash <> hashObject (GTree (filename vh) (hashObject (GBlob content)))
  /\ commitHash <> hashObject (GBlob content).

(** ** What the server sends and keeps *)

Definition is_update (m : ServerMsg) : Prop :=
  match m with
  | MsgUpdate _ _ => True
  | _ => False
  end.

Definition state_of (o : Outcome) : Server :=
  match o with
  | Returned st _ => st
  | Uncaught _ st _ => st
  end.

Definition sent_of (o : Outcome) : Sent :=
  match o with
  | Returned _ sent => sent
  | Uncaught _ _ sent => sent
  end.

(** The sockets of a note. *)
Definition connections_of (st : Server) (note : jsstring) : list Ws :=
  default [] (noteConnections st !! note).

(** The sets of sockets are sets, none is empty, and a socket sits in the
    set of its own note. *)
Definition connections_ok (st : Server) : Prop :=
  forall n l, noteConnections st !! n = Some l ->
    l <> [] /\ NoDup l /\ Forall (fun ws => noteId ws = n) l.

(** What happens to the server. *)
Inductive Event :=
  | EvOpen (ws : Ws)
  | EvClose (ws : Ws)
  | EvMessage (ws : Ws) (msg : ClientMsg) (now_init now : jsstring)
  | EvGet (noteId : jsstring) (now : jsstring).

Definition server_step (st : Server) (ev : Event) : option Server :=
  match ev with
  | EvOpen ws => Some (websocket_open st ws).1
  | EvClose ws => Some (websocket_close st ws).1
  | EvMessage ws msg now_init now =>
      state_of <$> websocket_message st ws msg now_init now
  | EvGet noteId now => Some (fetch_note st noteId now).1
  end.

Fixpoint server_run (st : Server) (evs : list Event) : option Server :=
  match evs with
  | [] => Some st
  | ev :: evs' => server_step st ev ≫= fun st' => server_run st' evs'
  end.

(** The history of a note has the note as its file name and at least one
    commit, and its store is content-addressed. *)
Definition histories_ok (st : Server) : Prop :=
  forall n vh, noteHistories st !! n = Some vh ->
    filename vh = n /\ is_Some (HEAD vh) /\ head_is_commit vh
    /\ content_addressed (db vh).

Definition server_ok (st : Server) : Prop := connections_ok st /\ histories_ok st.

(** ** The client and the server together *)

(** The text that the client takes the editor to show: its synchronized
    content with the operations in flight and the pending ones applied. *)
Definition client_view (c : Client) : Result Content :=
  apply_if_some (synchronizedContent c) (inFlightOps c) ≫= fun base1 =>
  apply_if_some base1 (pendingOps c).

(** The client has nothing in flight and nothing pending. *)
Definition idle (c : Client) : Prop := inFlightOps c = None /\ pendingOps c = None.

(** The client is idle at the head of a history, with its content. *)
Definition in_sync (c : Client) (vh : VersionHistory) (content : jsstring) : Prop :=
  idle c /\ latestHash c = HEAD vh /\ synchronizedContent c = CStr content
  /\ getCurrentContent vh = CStr content.

(** ** The length that a list of operations adds *)

Definition length_change (op : Operation) : Z :=
  match op_type op with
  | insert => text_length op
  | delete => (- length_or_0 op)%Z
  | retain => 0%Z
  end.

Definition net_length (ops : list Operation) : Z :=
  foldr (fun op acc => (length_change op + acc)%Z) 0%Z ops.

(** ** The commits of a history, newest first *)

Inductive chain (d : gmap Hash GitObject) : option Hash -> list (Hash * Commit) -> Prop :=
  | chain_nil : chain d None []
  | chain_cons (h : Hash) (c : Commit) (l : list (Hash * Commit)) :
      d !! h = Some (GCommit c) ->
      chain d (parent c) l ->
      chain d (Some h) ((h, c) :: l).

(** The line of [log] for a commit. *)
Definition log_line (headMarker : jsstring) (hc : Hash * Commit) : jsstring :=
  js "- " ++ take 12 hc.1 ++ headMarker ++ js ": " ++ message hc.2.

(** ** The size of a script *)

#[global] Instance CharDiffType_eq_dec : EqDecision CharDiffType.
Proof. solve_decision. Defined.
#[global] Instance DiffType_eq_dec : EqDecision DiffType.
Proof. solve_decision. Defined.

(** The number of unchanged entries of a script, and the entries that it
    reads and writes, as lists. *)
Definition kept (E : list CharDiff) : nat :=
  length (filter (fun cd => cd_type cd = cd_unchanged) E).

Definition sources (E : list CharDiff) : list jsstring :=
  map char (filter (fun cd => cd_type cd <> cd_added) E).

Definition targets (E : list CharDiff) : list jsstring :=
  map char (filter (fun cd => cd_type cd <> cd_removed) E).

(** The length of a longest common subsequence of the first [i] elements of
    [xs] and the first [j] elements of [ys]. *)
Fixpoint lcs (xs ys : list jsstring) (i : nat) : nat -> nat :=
  match i with
  | O => fun _ => O
  | S i' =>
    fix row (j : nat) : nat :=
      match j with
      | O => O
      | S j' =>
        if bool_decide (xs !! i' = ys !! j') then S (lcs xs ys i' j')
        else Nat.max (lcs xs ys i' (S j')) (row j')
      end
  end.

(** The table has [n + 1] rows of [m + 1] cells. *)
Definition table_ok (n m : nat) (dp : list (list Z)) : Prop :=
  length dp = S n /\ Forall (fun row => length row = S m) dp.

(** The table is filled up to row [i], column [j]. *)
Definition filled (xs ys : list jsstring) (i j : nat) (dp : list (list Z)) : Prop :=
  table_ok (length xs) (length ys) dp
  /\ forall i' j', i' <= length xs -> j' <= length ys ->
       i' < i \/ (i' = i /\ j' <= j) \/ i' = 0 \/ j' = 0 ->
       dp_get dp i' j' = Z.of_nat (lcs xs ys i' j').

(** ** The lines of a diff *)

(** The lines that a diff of lines takes from the old text, and those that
    it gives to the new text. *)
Definition old_lines (d : list DiffResult) : list jsstring :=
  omap (fun r => match d_type r with
                 | added => None
                 | modified => oldLine r
                 | _ => Some (line r)
                 end) d.

Definition new_lines (d : list DiffResult) : list jsstring :=
  omap (fun r => match d_type r with
                 | removed => None
                 | modified => Some (target_of (default [] (charDiffs r)))
                 | _ => Some (line r)
                 end) d.

(** A text without its line feeds. *)
Definition without_newlines (s : jsstring) : jsstring :=
  filter (fun c => c <> 10%N) s.

(** ** Concrete runs *)

Module Scenario.

Definition room : jsstring := js "n".
Definition alice : Ws := mkWs 1 room.
Definition bob : Ws := mkWs 2 room.

Definition t0 : jsstring := js "2024-01-01T00:00:00.000Z".
Definition t1 : jsstring := js "2024-01-01T00:00:01.000Z".
Definition t2 : jsstring := js "2024-01-01T00:00:02.000Z".
Definition t3 : jsstring := js "2024-01-01T00:00:03.000Z".
Definition t4 : jsstring := js "2024-01-01T00:00:04.000Z".

(** The state in which a handler left the server. *)
Definition after (o : option Outcome) : Server :=
  match o with
  | Some (Returned st _) => st
  | Some (Uncaught _ st _) => st
  | None => mkServer ∅ ∅
  end.

Definition history (st : Server) : VersionHistory :=
  default (new_VersionHistory room) (noteHistories st !! room).

Definition head (st : Server) : option Hash := HEAD (history st).

(** The operations that a client sends to turn [a] into [b]. *)
Definition edit (a b : jsstring) : list Operation :=
  match diff (CStr a) (CStr b) with
  | Ok d => diffToOperations d
  | Throw _ => []
  end.

(** Alice and Bob are connected, and the history of the room exists with
    its initial empty commit. *)
Definition connected : Server :=
  (websocket_open (websocket_open (mkServer ∅ ∅) alice).1 bob).1.
Definition opened : Server := (getHistoryForNote connected room t0).1.

(** The content is "ab". *)
Definition with_ab : Server :=
  after (websocket_message opened alice
           (Sync (head opened) [Insert (js "ab") 0]) t0 t1).

(** Alice has inserted "X" at 1, and Alice has deleted the first
    character, from "ab". *)
Definition with_aXb : Server :=
  after (websocket_message with_ab alice
           (Sync (head with_ab) [Insert (js "X") 1]) t0 t2).
Definition with_b : Server :=
  after (websocket_message with_ab alice
           (Sync (head with_ab) [Delete 1 0]) t0 t2).

(** The JSON text of the tree that a commit of "x" builds in this room. *)
Definition tree_text : jsstring :=
  JSON_stringify (GTree room (hashObject (GBlob (js "x")))).

(** The content is "x", and then the text of the tree of "x". *)
Definition with_x : Server :=
  after (websocket_message opened alice
           (Sync (head opened) (edit [] (js "x"))) t0 t1).
Definition with_tree_text : Server :=
  after (websocket_message with_x alice
           (Sync (head with_x) (edit (js "x") tree_text)) t0 t2).

(** Alice syncs at that head with no operation: the head reads as the tree
    of "x", and this object is committed. *)
Definition with_tree_object : Server :=
  after (websocket_message with_tree_text alice
           (Sync (head with_tree_text) []) t0 t3).

(** A note named "0", with one socket.  The content is the JSON text of
    the tree that a commit of "x" builds in this note, and then "x": the
    tree of the head is that text, a string, whose property "0" is its first
    character, which is no key of the store. *)
Definition zero : Ws := mkWs 3 (js "0").
Definition zero_text : jsstring :=
  JSON_stringify (GTree (js "0") (hashObject (GBlob (js "x")))).
Definition head_of (st : Server) (ws : Ws) : option Hash :=
  noteHistories st !! noteId ws ≫= HEAD.
Definition zero_opened : Server :=
  (getHistoryForNote (websocket_open (mkServer ∅ ∅) zero).1 (js "0") t0).1.
Definition zero_with_text : Server :=
  after (websocket_message zero_opened zero
           (Sync (head_of zero_opened zero) (edit [] zero_text)) t0 t1).
Definition zero_with_x : Server :=
  after (websocket_message zero_with_text zero
           (Sync (head_of zero_with_text zero) (edit zero_text (js "x"))) t0 t2).

(** Two runs of a history with the default file name.  The first commits
    "x" and then the JSON text of the tree of "x"; the second commits them
    in the other order. *)
Definition note : jsstring := js "note.txt".
Definition note_text : jsstring :=
  JSON_stringify (GTree note (hashObject (GBlob (js "x")))).

Definition note_x : VersionHistory * Hash :=
  commit (new_VersionHistory note) (js "x") (js "first") t0 t1.
Definition note_x_text : VersionHistory * Hash :=
  commit note_x.1 note_text (js "second") t0 t2.

Definition note_text_first : VersionHistory * Hash :=
  commit (new_VersionHistory note) note_text (js "first") t0 t1.
Definition note_text_x : VersionHistory * Hash :=
  commit note_text_first.1 (js "x") (js "second") t0 t2.

End Scenario.

Import Scenario.

(** * Properties *)

(** ** Slices inside the string *)

Lemma jslength_nonneg (s : jsstring) : (0 <= jslength s)%Z.
Proof. unfold jslength. lia. Qed.

Lemma jslength_app (s t : jsstring) : jslength (s ++ t) = (jslength s + jslength t)%Z.
Proof. unfold jslength. rewrite length_app. lia. Qed.

Lemma slice_prefix (out rest : jsstring) :
  slice (out ++ rest) 0 (jslength out) = out.
Proof.
  unfold slice, slice_index. rewrite jslength_app.
  pose proof (jslength_nonneg out). pose proof (jslength_nonneg rest).
  destruct (0 <? 0)%Z eqn:E0; [lia |].
  destruct (jslength out <? 0)%Z eqn:E1; [lia |].
  rewrite Z.min_l by lia. rewrite Z.min_l by lia.
  unfold jslength. rewrite Z.sub_0_r, Nat2Z.id. change (Z.to_nat 0) with 0.
  rewrite drop_0. by rewrite take_app_length.
Qed.

Lemma slice_from_suffix (out mid rest : jsstring) :
  slice_from (out ++ mid ++ rest) (jslength out + jslength mid) = rest.
Proof.
  unfold slice_from, slice_index. rewrite !jslength_app.
  pose proof (jslength_nonneg out). pose proof (jslength_nonneg mid).
  pose proof (jslength_nonneg rest).
  destruct (jslength out + jslength mid <? 0)%Z eqn:E1; [lia |].
  rewrite Z.min_l by lia. unfold jslength.
  rewrite <- Nat2Z.inj_add, Nat2Z.id, app_assoc, <- length_app.
  by rewrite drop_app_length.
Qed.

Lemma slice_from_suffix0 (out rest : jsstring) :
  slice_from (out ++ rest) (jslength out) = rest.
Proof.
  pose proof (slice_from_suffix out [] rest) as H. simpl in H.
  unfold jslength in H at 2. simpl in H. by rewrite Z.add_0_r in H.
Qed.

(** The index that [slice] uses is always inside the string. *)
Lemma slice_index_clamped (s : jsstring) (i : Z) :
  (0 <= slice_index (jslength s) i <= jslength s)%Z.
Proof.
  unfold slice_index. pose proof (jslength_nonneg s).
  destruct (i <? 0)%Z eqn:E; [apply Z.ltb_lt in E | apply Z.ltb_ge in E]; lia.
Qed.

(** ** The character diff is an edit script *)

Lemma char_at_take (chars : list jsstring) (i : nat) :
  0 < i -> i <= length chars ->
  concat (take i chars) = concat (take (i - 1) chars) ++ char_at chars (i - 1).
Proof.
  intros Hi Hle. unfold char_at.
  destruct (lookup_lt_is_Some_2 chars (i - 1)) as [x Hx]; [lia |].
  rewrite Hx. simpl.
  replace i with (S (i - 1)) at 1 by lia.
  rewrite (take_S_r _ _ _ Hx), concat_app. simpl. by rewrite app_nil_r.
Qed.

Lemma char_at_single (chars : list jsstring) (k : nat) :
  Forall single chars -> k < length chars -> single (char_at chars k).
Proof.
  intros Hall Hk. unfold char_at.
  destruct (lookup_lt_is_Some_2 chars k Hk) as [x Hx]. rewrite Hx. simpl.
  eapply Forall_lookup_1; eauto.
Qed.

Section Backtrack.
Variables (chars1 chars2 : list jsstring) (dp : list (list Z)).
Hypothesis single1 : Forall single chars1.
Hypothesis single2 : Forall single chars2.

(** The loop ends with the whole of both prefixes turned into script
    entries: the fuel [i + j] is enough, and the [break] is never taken
    before [i] and [j] are both 0. *)
Lemma backtrack_script (fuel : nat) : forall (i j : nat) (acc : list CharDiff),
  i + j <= fuel -> i <= length chars1 -> j <= length chars2 ->
  Forall (fun cd => single (char cd)) acc ->
  let E := backtrack fuel chars1 chars2 dp i j acc in
  source_of E = concat (take i chars1) ++ source_of acc
  /\ target_of E = concat (take j chars2) ++ target_of acc
  /\ Forall (fun cd => single (char cd)) E.
Proof.
  induction fuel as [| fuel IH]; intros i j acc Hfuel Hi Hj Hacc; simpl.
  - assert (i = 0) by lia. assert (j = 0) by lia. subst. simpl. auto.
  - destruct ((0 <? i) || (0 <? j)) eqn:Hloop; simpl.
    2:{ apply orb_false_iff in Hloop as [H1 H2].
        apply Nat.ltb_ge in H1, H2.
        assert (i = 0) by lia. assert (j = 0) by lia. subst. simpl. auto. }
    destruct ((0 <? i) && (0 <? j)
              && bool_decide (chars1 !! (i - 1) = chars2 !! (j - 1))) eqn:Hsame.
    { apply andb_true_iff in Hsame as [Hpos Heq].
      apply andb_true_iff in Hpos as [Hpi Hpj].
      apply Nat.ltb_lt in Hpi, Hpj. apply bool_decide_eq_true in Heq.
      destruct (IH (i - 1) (j - 1)
                  (mkCharDiff (char_at chars1 (i - 1)) cd_unchanged :: acc))
        as (Hs & Ht & Hall); try lia.
      { constructor; [| done]. simpl. apply char_at_single; [done | lia]. }
      split_and!; [| | done].
      - rewrite Hs, (char_at_take chars1 i) by lia.
        unfold source_of. simpl. by rewrite <- app_assoc.
      - rewrite Ht, (char_at_take chars2 j) by lia.
        unfold target_of, char_at. simpl. rewrite Heq. by rewrite <- app_assoc. }
    destruct ((0 <? j)
              && ((i =? 0) || (dp_get dp (i - 1) j <=? dp_get dp i (j - 1))%Z))
      eqn:Hadd.
    { apply andb_true_iff in Hadd as [Hpj _]. apply Nat.ltb_lt in Hpj.
      destruct (IH i (j - 1)
                  (mkCharDiff (char_at chars2 (j - 1)) cd_added :: acc))
        as (Hs & Ht & Hall); try lia.
      { constructor; [| done]. simpl. apply char_at_single; [done | lia]. }
      split_and!; [| | done].
      - rewrite Hs. unfold source_of. by simpl.
      - rewrite Ht, (char_at_take chars2 j) by lia.
        unfold target_of. simpl. by rewrite <- app_assoc. }
    destruct ((0 <? i)
              && ((j =? 0) || (dp_get dp i (j - 1) <? dp_get dp (i - 1) j)%Z))
      eqn:Hdel.
    { apply andb_true_iff in Hdel as [Hpi _]. apply Nat.ltb_lt in Hpi.
      destruct (IH (i - 1) j
                  (mkCharDiff (char_at chars1 (i - 1)) cd_removed :: acc))
        as (Hs & Ht & Hall); try lia.
      { constructor; [| done]. simpl. apply char_at_single; [done | lia]. }
      split_and!; [| | done].
      - rewrite Hs, (char_at_take chars1 i) by lia.
        unfold source_of. simpl. by rewrite <- app_assoc.
      - rewrite Ht. unfold target_of. by simpl. }
    exfalso.
    apply andb_false_iff in Hadd, Hdel.
    apply orb_true_iff in Hloop.
    destruct (0 <? i) eqn:Ei, (0 <? j) eqn:Ej;
      try apply Nat.ltb_lt in Ei; try apply Nat.ltb_lt in Ej;
      try apply Nat.ltb_ge in Ei; try apply Nat.ltb_ge in Ej.
    + destruct Hadd as [? | Hadd]; [done |].
      destruct Hdel as [? | Hdel]; [done |].
      apply orb_false_iff in Hadd as [_ Hadd].
      apply orb_false_iff in Hdel as [_ Hdel].
      apply Z.leb_gt in Hadd. apply Z.ltb_ge in Hdel. lia.
    + destruct Hdel as [? | Hdel]; [done |].
      apply orb_false_iff in Hdel as [Hj0 _].
      apply Nat.eqb_neq in Hj0. lia.
    + destruct Hadd as [? | Hadd]; [done |].
      apply orb_false_iff in Hadd as [Hi0 _].
      apply Nat.eqb_neq in Hi0. lia.
    + destruct Hloop; done.
Qed.
End Backtrack.

Lemma concat_singletons (s : jsstring) : concat (map (fun c => [c]) s) = s.
Proof. induction s as [| c s IH]; simpl; [done | by rewrite IH]. Qed.

Lemma singletons_single (s : jsstring) : Forall single (map (fun c => [c]) s).
Proof. apply Forall_forall. intros x Hx. apply list_elem_of_fmap in Hx as (c & -> & _). done. Qed.

(** [generateCharacterDiff] returns a script from [a] to [b]. *)
Lemma generateCharacterDiff_script (a b : jsstring) :
  exists E, generateCharacterDiff (CStr a) (CStr b) = Ok E
    /\ source_of E = a /\ target_of E = b
    /\ Forall (fun cd => single (char cd)) E.
Proof.
  unfold generateCharacterDiff. simpl.
  eexists. split; [reflexivity |].
  destruct (backtrack_script (map (fun c => [c]) a) (map (fun c => [c]) b)
              (dp_fill (map (fun c => [c]) a) (map (fun c => [c]) b))
              (singletons_single a) (singletons_single b)
              (length (map (fun c : N => [c]) a) + length (map (fun c : N => [c]) b))
              (length (map (fun c : N => [c]) a))
              (length (map (fun c : N => [c]) b)) [])
    as (Hs & Ht & Hall); try lia; [constructor |].
  rewrite !firstn_all, !concat_singletons in *.
  unfold source_of, target_of in *. simpl in *.
  rewrite app_nil_r in Hs, Ht. done.
Qed.

Lemma diff_strings (a b : jsstring) :
  exists d, diff (CStr a) (CStr b) = Ok d.
Proof.
  unfold diff. destruct (strict_eq _ _); [eauto |].
  destruct (generateCharacterDiff_script a b) as (E & -> & _). simpl. eauto.
Qed.

(** The operations of the diff of two different strings are those of a
    script from the first to the second. *)
Lemma diff_script (a b : jsstring) :
  a <> b ->
  exists E, diff (CStr a) (CStr b) = Ok (map diff_entry E)
    /\ source_of E = a /\ target_of E = b
    /\ Forall (fun cd => single (char cd)) E.
Proof.
  intros Hne. unfold diff, strict_eq.
  rewrite bool_decide_eq_false_2 by congruence.
  destruct (generateCharacterDiff_script a b) as (E & -> & Hs & Ht & Hall).
  simpl. eauto.
Qed.

(** ** From a script to operations, and back to the text *)

Lemma diffToOperations_fold (E : list CharDiff) : forall (ops0 : list Operation) (p : Z),
  foldl diffToOperations_step (ops0, p) (map diff_entry E)
  = (ops0 ++ script_ops p E, (p + jslength (source_of E))%Z).
Proof.
  induction E as [| cd E IH]; intros ops0 p; simpl.
  - unfold source_of, jslength. simpl. by rewrite app_nil_r, Z.add_0_r.
  - destruct cd as [c []]; unfold source_of; simpl;
      rewrite IH, <- app_assoc; simpl;
      fold (source_of E); rewrite ?jslength_app; f_equal; lia.
Qed.

Lemma diffToOperations_script (E : list CharDiff) :
  diffToOperations (map diff_entry E) = script_ops 0 E.
Proof. unfold diffToOperations. by rewrite diffToOperations_fold. Qed.

Lemma script_ops_lower_bound (E : list CharDiff) : forall p,
  Forall (fun op => (p <= position op)%Z) (script_ops p E).
Proof.
  induction E as [| cd E IH]; intros p; simpl; [constructor |].
  pose proof (jslength_nonneg (char cd)).
  destruct (cd_type cd); constructor; simpl; try lia;
    (eapply Forall_impl; [apply IH |]); simpl; intros; lia.
Qed.

Lemma HdRel_lower_bound (x : Operation) (l : list Operation) :
  Forall (fun op => (position x <= position op)%Z) l -> HdRel position_le x l.
Proof. destruct 1; constructor. done. Qed.

Lemma script_ops_sorted (E : list CharDiff) : forall p,
  Sorted position_le (script_ops p E).
Proof.
  induction E as [| cd E IH]; intros p; simpl; [constructor |].
  pose proof (jslength_nonneg (char cd)).
  destruct (cd_type cd); constructor; try apply IH;
    apply HdRel_lower_bound; simpl;
    (eapply Forall_impl; [apply script_ops_lower_bound |]); simpl; intros; lia.
Qed.

(** The sort returns the operations it was given, in nondecreasing
    position order. *)
Lemma insert_by_position_Permutation (op : Operation) (l : list Operation) :
  insert_by_position op l ≡ₚ op :: l.
Proof.
  induction l as [| op' l IH]; simpl; [done |].
  destruct (position op <=? position op')%Z; [done |].
  rewrite IH. apply Permutation_swap.
Qed.

Lemma sort_by_position_Permutation (l : list Operation) :
  sort_by_position l ≡ₚ l.
Proof.
  induction l as [| op l IH]; [done |].
  change (sort_by_position (op :: l))
    with (insert_by_position op (sort_by_position l)).
  by rewrite insert_by_position_Permutation, IH.
Qed.

Lemma insert_by_position_Sorted (op : Operation) (l : list Operation) :
  Sorted position_le l -> Sorted position_le (insert_by_position op l).
Proof.
  induction 1 as [| op' l Hl IH Hhd]; simpl.
  - repeat constructor.
  - destruct (position op <=? position op')%Z eqn:E.
    + apply Z.leb_le in E. repeat constructor; done.
    + apply Z.leb_gt in E. constructor; [exact IH |].
      destruct Hhd as [| y l' Hy]; simpl.
      * constructor. unfold position_le. lia.
      * destruct (position op <=? position y)%Z; constructor;
          unfold position_le in *; lia.
Qed.

Lemma sort_by_position_Sorted (l : list Operation) :
  Sorted position_le (sort_by_position l).
Proof.
  induction l as [| op l IH]; [constructor |].
  change (sort_by_position (op :: l))
    with (insert_by_position op (sort_by_position l)).
  by apply insert_by_position_Sorted.
Qed.

(** The stable sort leaves a sorted list as it is. *)
Lemma sort_by_position_sorted (l : list Operation) :
  Sorted position_le l -> sort_by_position l = l.
Proof.
  induction 1 as [| x l Hl IH Hhd]; [done |].
  change (sort_by_position (x :: l)) with (insert_by_position x (sort_by_position l)).
  rewrite IH.
  destruct Hhd as [| y l' Hxy]; simpl; [done |].
  unfold position_le in Hxy.
  destruct (position x <=? position y)%Z eqn:E; [done |].
  apply Z.leb_gt in E. lia.
Qed.

(** Applying the operations of a script rewrites its source into its
    target, in place. *)
Lemma apply_loop_script (E : list CharDiff) :
  forall (out rest : jsstring) (p off : Z),
  Forall (fun cd => single (char cd)) E ->
  (p + off)%Z = jslength out ->
  exists off',
    apply_loop (CStr (out ++ source_of E ++ rest), off) (script_ops p E)
    = Ok (CStr (out ++ target_of E ++ rest), off').
Proof.
  induction E as [| cd E IH]; intros out rest p off Hall Hpos; simpl.
  - eexists. reflexivity.
  - apply Forall_cons in Hall as [Hcd Hall].
    assert (Hlen : jslength (char cd) = 1%Z) by (unfold jslength; rewrite Hcd; done).
    unfold source_of, target_of. simpl.
    fold (source_of E). fold (target_of E).
    destruct (cd_type cd) eqn:Hty; simpl.
    + (* added *)
      unfold apply_step. simpl. rewrite Hpos.
      rewrite slice_prefix, slice_from_suffix0. simpl.
      destruct (IH (out ++ char cd) rest p (off + jslength (char cd))%Z Hall)
        as [off' Hoff'].
      { rewrite jslength_app. lia. }
      exists off'. unfold text_length, text_or_undefined. simpl.
      rewrite <- !app_assoc in Hoff'. rewrite <- !app_assoc. exact Hoff'.
    + (* removed *)
      unfold apply_step. simpl. rewrite Hpos.
      rewrite slice_prefix. unfold length_or_0. simpl.
      rewrite <- (app_assoc (char cd)), slice_from_suffix. simpl.
      destruct (IH out rest (p + jslength (char cd))%Z (off - jslength (char cd))%Z Hall)
        as [off' Hoff']; [lia |].
      exists off'. exact Hoff'.
    + (* unchanged *)
      destruct (IH (out ++ char cd) rest (p + jslength (char cd))%Z off Hall)
        as [off' Hoff'].
      { rewrite jslength_app. lia. }
      exists off'.
      rewrite <- !app_assoc in Hoff'. rewrite <- !app_assoc. exact Hoff'.
Qed.

(** On a string, the loop of [applyOperations] keeps a string. *)
Lemma apply_loop_string (ops : list Operation) : forall (s : jsstring) (off : Z),
  exists r off', apply_loop (CStr s, off) ops = Ok (CStr r, off').
Proof.
  induction ops as [| op ops IH]; intros s off; simpl.
  - eauto.
  - unfold apply_step. destruct (op_type op); simpl; apply IH.
Qed.

(** C1. For all strings [a] and [b]: [diff(a, a)] is the empty list, and
    [diff(a, b)] turned into operations by [diffToOperations] and applied to
    [a] by [applyOperations] gives exactly [b]; none of the calls raises. *)
Theorem diff_apply_roundtrip (a b : jsstring) :
  diff (CStr a) (CStr a) = Ok []
  /\ exists d, diff (CStr a) (CStr b) = Ok d
       /\ applyOperations (CStr a) (diffToOperations d) = Ok (CStr b).
Proof.
  split.
  - unfold diff, strict_eq. by rewrite bool_decide_eq_true_2.
  - destruct (decide (a = b)) as [-> | Hne].
    + exists []. split; [| done].
      unfold diff, strict_eq. by rewrite bool_decide_eq_true_2.
    + destruct (diff_script a b Hne) as (E & Hd & Hs & Ht & Hall).
      exists (map diff_entry E). split; [done |].
      rewrite diffToOperations_script. unfold applyOperations.
      rewrite sort_by_position_sorted by apply script_ops_sorted.
      destruct (apply_loop_script E [] [] 0 0 Hall) as [off' Hrun]; [done |].
      simpl in Hrun. rewrite !app_nil_r, Hs, Ht in Hrun.
      rewrite Hrun. done.
Qed.

(** ** Shape of the generated operations *)

Lemma unit_op_weaken (lo hi lo' hi' : Z) (op : Operation) :
  (lo' <= lo)%Z -> (hi <= hi')%Z -> unit_op lo hi op -> unit_op lo' hi' op.
Proof.
  unfold unit_op. intros Hlo Hhi. destruct (op_type op); [| done |];
    intros [? ?]; split; (done || lia).
Qed.

Lemma single_unit (s : jsstring) : single s -> exists c, s = [c].
Proof. destruct s as [| c [| ? ?]]; try done. eauto. Qed.

Lemma script_ops_unit (E : list CharDiff) : forall p,
  Forall (fun cd => single (char cd)) E ->
  Forall (unit_op p (p + jslength (source_of E))) (script_ops p E)
  /\ consumed (script_ops p E) = jslength (source_of E).
Proof.
  induction E as [| cd E IH]; intros p Hall; simpl; [by split; [constructor |] |].
  apply Forall_cons in Hall as [Hcd Hall].
  assert (Hlen : jslength (char cd) = 1%Z) by (unfold jslength; rewrite Hcd; done).
  pose proof (jslength_nonneg (source_of E)) as Hnn.
  unfold source_of. simpl. fold (source_of E).
  destruct (cd_type cd) eqn:Hty; simpl.
  - destruct (IH p Hall) as [Hshape Hsum]. split; [| done].
    constructor; [| done].
    unfold unit_op. simpl. destruct (single_unit _ Hcd) as [c ->]. eauto.
  - destruct (IH (p + jslength (char cd))%Z Hall) as [Hshape Hsum].
    rewrite jslength_app. split.
    + constructor.
      * unfold unit_op. simpl. rewrite Hlen. split; [done | lia].
      * eapply Forall_impl; [exact Hshape |]. intros op.
        apply unit_op_weaken; lia.
    + unfold length_or_0. simpl. by rewrite Hsum.
  - destruct (IH (p + jslength (char cd))%Z Hall) as [Hshape Hsum].
    rewrite jslength_app. split.
    + constructor.
      * unfold unit_op. simpl. rewrite Hlen. split; [done | lia].
      * eapply Forall_impl; [exact Hshape |]. intros op.
        apply unit_op_weaken; lia.
    + unfold length_or_0. simpl. by rewrite Hsum.
Qed.

(** C10, as the code has it. For all strings [a] and [b], [diff(a, b)]
    returns, and the operations that [diffToOperations] makes of it are: none
    at all when [a] and [b] are equal; otherwise a list in nondecreasing
    position order, in which every retain and delete has length 1 and a
    position from 0 and below the length of [a], every insert has a text of
    one character, and the lengths of the retains and deletes add up to the
    length of [a]. *)
Theorem generated_operations_wellformed (a b : jsstring) :
  exists d, diff (CStr a) (CStr b) = Ok d
    /\ if decide (a = b) then diffToOperations d = []
       else generated_wellformed a (diffToOperations d).
Proof.
  destruct (decide (a = b)) as [-> | Hne].
  - exists []. split; [| done].
    unfold diff, strict_eq. by rewrite bool_decide_eq_true_2.
  - destruct (diff_script a b Hne) as (E & Hd & Hs & Ht & Hall).
    exists (map diff_entry E). split; [done |].
    rewrite diffToOperations_script.
    destruct (script_ops_unit E 0 Hall) as [Hshape Hsum].
    rewrite Hs in Hshape, Hsum.
    split_and!; [apply script_ops_sorted | | done].
    by rewrite Z.add_0_l in Hshape.
Qed.

(** C10, as stated, fails when the two strings are equal and not empty: the
    diff of "a" with itself is empty, so its operations account for 0
    characters of a source of length 1. *)
Lemma generated_operations_equal_strings :
  ~ (exists d, diff (CStr (js "a")) (CStr (js "a")) = Ok d
       /\ generated_wellformed (js "a") (diffToOperations d)).
Proof.
  intros (d & Hd & _ & _ & Hsum).
  vm_compute in Hd. injection Hd as <-. vm_compute in Hsum. discriminate.
Qed.

(** ** [applyOperations] on a string *)

(** C9. For every string and every list of operations, whatever their
    positions and whether or not they carry a length or a text,
    [applyOperations] returns a string and does not raise: the index that
    [slice] computes from any position is inside the string.  With three
    strings, [operationalTransform] with [diff] succeeds, so that its failure
    branch is not reached through [applyOperations]. *)
Theorem applyOperations_total :
  (forall (content : jsstring) (operations : list Operation),
     exists r, applyOperations (CStr content) operations = Ok (CStr r))
  /\ (forall (s : jsstring) (i : Z),
        (0 <= slice_index (jslength s) i <= jslength s)%Z)
  /\ (forall (baseContent clientContent serverContent : jsstring),
        exists merged,
          operationalTransform (CStr baseContent) (CStr clientContent)
            (CStr serverContent) diff
          = mkOTResult true (Some (CStr merged)) None).
Proof.
  assert (Happly : forall (content : jsstring) (operations : list Operation),
            exists r, applyOperations (CStr content) operations = Ok (CStr r)).
  { intros content operations. unfold applyOperations.
    destruct (apply_loop_string (sort_by_position operations) content 0)
      as (r & off' & ->).
    simpl. eauto. }
  split_and!; [exact Happly | exact slice_index_clamped |].
  intros baseContent clientContent serverContent.
  unfold operationalTransform, operationalTransform_try, transformedClientOps.
  destruct (diff_strings baseContent serverContent) as [sd ->].
  destruct (diff_strings baseContent clientContent) as [cd ->].
  simpl.
  destruct (Happly serverContent
              (transformOperations (diffToOperations cd) (diffToOperations sd)))
    as [merged ->].
  eauto.
Qed.

(** ** The loop of [transformOperations] *)

Lemma transform_step_decreases (clientOps serverOps : list Operation)
    (s s' : TransformState) :
  transform_step clientOps serverOps s = Some s' ->
  transform_measure clientOps serverOps s' < transform_measure clientOps serverOps s.
Proof.
  unfold transform_step, transform_measure.
  destruct (clientIndex s <? length clientOps) eqn:Hci; [| done].
  apply Nat.ltb_lt in Hci.
  destruct (clientOps !! clientIndex s) as [clientOp |];
    [| intros [= <-]; simpl; lia].
  destruct (serverOps !! serverIndex s) as [serverOp |] eqn:Hsi;
    [| intros [= <-]; simpl; lia].
  apply lookup_lt_Some in Hsi.
  destruct (position clientOp <? position serverOp)%Z;
    [intros [= <-]; simpl; lia |].
  destruct (position serverOp <? position clientOp)%Z.
  - destruct (op_type serverOp); intros [= <-]; simpl; lia.
  - destruct (op_type clientOp), (op_type serverOp); intros [= <-]; simpl; lia.
Qed.

(** With fuel for what is left to read, the loop stops because its
    condition is false, not because the fuel is used up. *)
Lemma transform_loop_finished (clientOps serverOps : list Operation) (fuel : nat) :
  forall s, transform_measure clientOps serverOps s <= fuel ->
  transform_step clientOps serverOps
    (transform_loop fuel clientOps serverOps s) = None.
Proof.
  induction fuel as [| fuel IH]; intros s Hm; simpl.
  - destruct (transform_step clientOps serverOps s) as [s' |] eqn:Hstep; [| done].
    apply transform_step_decreases in Hstep. lia.
  - destruct (transform_step clientOps serverOps s) as [s' |] eqn:Hstep; [| done].
    apply IH. apply transform_step_decreases in Hstep. lia.
Qed.

Lemma transformOperations_finished (clientOps serverOps : list Operation) :
  transform_step clientOps serverOps
    (transform_loop (length clientOps + length serverOps) clientOps serverOps
       (mkTransformState 0 0 0%Z [])) = None.
Proof. apply transform_loop_finished. unfold transform_measure. simpl. lia. Qed.

(** ** The sync handler *)

Lemma getHistoryForNote_lookup (st st1 : Server) (note now : jsstring)
    (vh : VersionHistory) :
  getHistoryForNote st note now = (st1, vh) ->
  noteHistories st1 !! note = Some vh
  /\ noteConnections st1 = noteConnections st
  /\ (is_Some (noteHistories st !! note) -> st1 = st).
Proof.
  unfold getHistoryForNote.
  destruct (noteHistories st !! note) as [vh0 |] eqn:Hlook.
  - intros [= <- <-]. done.
  - intros [= <- <-]. simpl. rewrite lookup_insert_eq.
    split_and!; [done | done |]. by intros [? ?].
Qed.

(** A hash that is not a key of the store has no content. *)
Lemma getContent_unknown (vh : VersionHistory) (h : Hash) :
  db vh !! h = None -> getContent vh (Some h) = CNull.
Proof. intros Hnone. unfold getContent. destruct h; [done |]. by rewrite Hnone. Qed.

(** The merge path between strings: the merged content is committed, the
    sender gets the [ack], and the others get the delta from the server
    content to the merged content, unless it is empty. *)
Lemma merge_path_strings (st st1 : Server) (ws : Ws) (base_hash : option Hash)
    (client_ops : list Operation) (now_init now : jsstring) (vh : VersionHistory)
    (base server client merged : jsstring) (d : list DiffResult) :
  getHistoryForNote st (noteId ws) now_init = (st1, vh) ->
  getContent vh base_hash = CStr base ->
  getCurrentContent vh = CStr server ->
  base_hash <> HEAD vh ->
  applyOperations (CStr base) client_ops = Ok (CStr client) ->
  operationalTransform_try (CStr base) (CStr client) (CStr server) diff
    = Ok (CStr merged) ->
  diff (CStr server) (CStr merged) = Ok d ->
  let result := commit vh merged (js "Merged update from client") now now in
  websocket_message st ws (Sync base_hash client_ops) now_init now
  = Some (Returned (set_history st1 (noteId ws) result.1)
            ((ws, MsgAck result.2)
             :: if 0 <? length (diffToOperations d)
                then send_to_others st1 ws (MsgUpdate result.2 (diffToOperations d))
                else [])).
Proof.
  intros Hroom Hbase Hserver Hne Hclient Hmerge Hdelta result.
  unfold websocket_message. rewrite Hroom, Hbase, Hserver.
  unfold strict_eq. rewrite bool_decide_eq_false_2 by done.
  unfold getHeadHash. rewrite bool_decide_eq_false_2 by done.
  rewrite Hclient. unfold operationalTransform. rewrite Hmerge.
  cbn [success negb mergedContent from_option id].
  subst result. unfold commit.
  destruct (commit_object vh (GBlob merged) _ now now) as [vh' h'].
  rewrite Hdelta. cbn [fst snd].
  by destruct (0 <? length (diffToOperations d)).
Qed.

(** The client content is computed before the [try] block of
    [operationalTransform]: an exception from that first
    [applyOperations] leaves the handler, and nothing is sent. *)
Lemma first_apply_uncaught (st st1 : Server) (ws : Ws) (base_hash : option Hash)
    (client_ops : list Operation) (now_init now : jsstring) (vh : VersionHistory)
    (e : JsError) :
  getHistoryForNote st (noteId ws) now_init = (st1, vh) ->
  getContent vh base_hash <> CNull ->
  applyOperations (getContent vh base_hash) client_ops = Throw e ->
  websocket_message st ws (Sync base_hash client_ops) now_init now
  = Some (Uncaught e st1 []).
Proof.
  intros Hroom Hbase Hthrow. unfold websocket_message. rewrite Hroom.
  unfold strict_eq. rewrite bool_decide_eq_false_2 by done.
  rewrite Hthrow. by case_bool_decide.
Qed.

(** C4, as stated, fails for a note that has no history yet: the handler
    creates the history, with its initial empty commit, before it sends the
    error. *)
Lemma unknown_base_hash_initial_commit :
  noteHistories connected !! room = None
  /\ websocket_message connected bob
       (Sync (Some (js "deadbeef")) [Insert (js "z") 0]) t0 t3
     = Some (Returned opened
               [(bob, MsgError (js "Base hash not found. Please reload."))])
  /\ noteHistories opened !! room
     = Some (commit (new_VersionHistory room) [] (js "Initial empty commit") t0 t0).1
  /\ is_Some (head opened).
Proof. split_and!; compute_done. Qed.

(** A base that the store cannot resolve, and no error: in the note "0"
    the content of the head reads as [undefined], which is not [null].  A
    sync from the head passes the test, and the exception of the first
    [applyOperations] leaves the handler; nothing is sent. *)
Lemma unresolved_base_without_error :
  getContent (default (new_VersionHistory (js "0"))
                (noteHistories zero_with_x !! js "0"))
    (head_of zero_with_x zero)
  = CUndefined
  /\ websocket_message zero_with_x zero
       (Sync (head_of zero_with_x zero) [Insert (js "z") 0]) t0 t3
     = Some (Uncaught (TypeError "slice" CUndefined) zero_with_x []).
Proof. split; compute_done. Qed.

(** C4, as the code has it. A sync whose [base_hash] is not a key of the
    store of the note, or for which [getContent] returns [null]: the handler
    sends the error "Base hash not found. Please reload." to the sender,
    nothing else to anyone (no [ack], no update), and returns.  If the note
    had a history, no commit is made: the whole server state is unchanged.
    If the note had none, the state that the handler leaves differs by the
    new history of the note, which holds its initial empty commit and
    nothing else. *)
Theorem unknown_base_hash (st st1 : Server) (ws : Ws) (base_hash : option Hash)
    (client_ops : list Operation) (now_init now : jsstring) (vh : VersionHistory) :
  getHistoryForNote st (noteId ws) now_init = (st1, vh) ->
  (exists h, base_hash = Some h /\ db vh !! h = None)
  \/ getContent vh base_hash = CNull ->
  websocket_message st ws (Sync base_hash client_ops) now_init now
  = Some (Returned st1
            [(ws, MsgError (js "Base hash not found. Please reload."))])
  /\ noteHistories st1 !! noteId ws = Some vh
  /\ (is_Some (noteHistories st !! noteId ws) -> st1 = st)
  /\ (noteHistories st !! noteId ws = None ->
        vh = (commit (new_VersionHistory (noteId ws)) [] (js "Initial empty commit")
                now_init now_init).1
        /\ st1 = mkServer (<[noteId ws := vh]> (noteHistories st))
                   (noteConnections st)).
Proof.
  intros Hroom Hbase.
  assert (Hnull : getContent vh base_hash = CNull).
  { destruct Hbase as [(h & -> & Hnone) | Hnull]; [| done].
    by apply getContent_unknown. }
  destruct (getHistoryForNote_lookup _ _ _ _ _ Hroom) as (Hlook & _ & Hsame).
  split_and!; [| done | done |].
  - unfold websocket_message. rewrite Hroom, Hnull. done.
  - intros Hnone. unfold getHistoryForNote in Hroom. rewrite Hnone in Hroom.
    by injection Hroom as <- <-.
Qed.

(** Scenario 6 of the specification: "deadbeef" is not in the store. *)
Lemma unknown_base_hash_witness :
  websocket_message with_ab bob (Sync (Some (js "deadbeef")) [Insert (js "z") 0]) t0 t3
  = Some (Returned with_ab
            [(bob, MsgError (js "Base hash not found. Please reload."))])
  /\ noteHistories with_ab !! noteId bob = Some (history with_ab).
Proof.
  destruct (unknown_base_hash with_ab with_ab bob (Some (js "deadbeef"))
              [Insert (js "z") 0] t0 t3 (history with_ab))
    as (Hsent & Hkept & _).
  - compute_done.
  - left. exists (js "deadbeef"). split; [done | compute_done].
  - split; [exact Hsent | exact Hkept].
Defined.

(** Inside the [try] block of [operationalTransform].  On the merge path,
    once the client content is computed: if a diff or the final
    [applyOperations] raises, the handler sends a [conflict] with the error
    to the sender and nothing else to anyone, and returns with the history
    of the note as it was: no commit, no update. *)
Lemma try_failure_is_conflict (st st1 : Server) (ws : Ws)
    (base_hash : option Hash) (client_ops : list Operation)
    (now_init now : jsstring) (vh : VersionHistory)
    (client_content : Content) (e : JsError) :
  getHistoryForNote st (noteId ws) now_init = (st1, vh) ->
  getContent vh base_hash <> CNull ->
  base_hash <> HEAD vh ->
  applyOperations (getContent vh base_hash) client_ops = Ok client_content ->
  operationalTransform_try (getContent vh base_hash) client_content
    (getCurrentContent vh) diff = Throw e ->
  websocket_message st ws (Sync base_hash client_ops) now_init now
  = Some (Returned st1 [(ws, MsgConflict (Some e))])
  /\ noteHistories st1 !! noteId ws = Some vh
  /\ (is_Some (noteHistories st !! noteId ws) -> st1 = st).
Proof.
  intros Hroom Hbase Hne Hclient Hraise.
  destruct (getHistoryForNote_lookup _ _ _ _ _ Hroom) as (Hlook & _ & Hsame).
  split_and!; [| done | done].
  unfold websocket_message. rewrite Hroom.
  unfold strict_eq. rewrite bool_decide_eq_false_2 by done.
  unfold getHeadHash. rewrite bool_decide_eq_false_2 by done.
  rewrite Hclient. unfold operationalTransform. rewrite Hraise. done.
Qed.

(** A run in which the diff against the server content raises: the head is
    the commit of the text of a tree, whose blob key is the key of that
    tree, so the content of the head reads as the tree object.  Bob syncs
    from the previous commit, and gets the [conflict]. *)
Lemma try_failure_run :
  websocket_message with_tree_text bob (Sync (head with_x) []) t0 t3
  = Some (Returned with_tree_text
            [(bob, MsgConflict
                     (Some (TypeError "split"
                              (CObject (GTree room (hashObject (GBlob (js "x"))))))))]).
Proof. compute_done. Qed.

(** C5. The first step of the merge path, the [applyOperations] that
    computes the client content, is outside the [try] block.  The head is
    the commit of the text of the tree of "x", whose content reads as that
    tree object, and Alice's sync of no operation at this head has
    committed the object again.  Bob then syncs an insert from the former
    head: the base is not [null] and is not the head, [applyOperations]
    calls [slice] on the tree object, and the exception leaves the handler.
    No [conflict] is sent, nothing is sent at all, and nothing is committed. *)
Theorem first_apply_outside_try :
  getContent (history with_tree_object) (head with_tree_text)
  = CObject (GTree room (hashObject (GBlob (js "x"))))
  /\ head with_tree_text <> head with_tree_object
  /\ websocket_message with_tree_object bob
       (Sync (head with_tree_text) [Insert (js "z") 0]) t0 t4
     = Some (Uncaught
               (TypeError "slice" (CObject (GTree room (hashObject (GBlob (js "x"))))))
               with_tree_object []).
Proof. split_and!; compute_done. Qed.

(** C2. When the loop of [transformOperations] is at a client insert and a
    server insert with the same position, the iteration pushes the client
    insert with its position increased by the length of the text of the
    server insert, whatever the offset, and advances both indices; here the
    position, the length and their sum are safe integers, so that the sum
    of the code is the sum of the integers.  In the scenario with base "ab",
    server content "aXb" and a client that inserted "Y" at 1 in "ab", the
    rebased insert is at 2 and [operationalTransform] returns the merged
    content "aXYb"; in every state of the server in which the base resolves
    to "ab" and the head to "aXb", the handler commits "aXYb". *)
Theorem insert_insert_tie :
  (forall (clientOps serverOps : list Operation) (s : TransformState)
          (clientOp serverOp : Operation) (text : jsstring),
     clientOps !! clientIndex s = Some clientOp ->
     serverOps !! serverIndex s = Some serverOp ->
     op_type clientOp = insert ->
     op_type serverOp = insert ->
     op_text serverOp = Some text ->
     position clientOp = position serverOp ->
     safe_integer (position clientOp) ->
     safe_integer (jslength text) ->
     safe_integer (position clientOp + jslength text) ->
     transform_step clientOps serverOps s
     = Some (mkTransformState (clientIndex s + 1) (serverIndex s + 1)
               (positionOffset s)
               (transformed s
                  ++ [with_position clientOp (position clientOp + jslength text)])))
  /\ (exists client_content,
        applyOperations (CStr (js "ab")) [Insert (js "Y") 1] = Ok client_content
        /\ transformedClientOps (CStr (js "ab")) client_content (CStr (js "aXb")) diff
           = Ok [Retain 1 0; Insert (js "Y") 2; Retain 1 1]
        /\ operationalTransform (CStr (js "ab")) client_content (CStr (js "aXb")) diff
           = mkOTResult true (Some (CStr (js "aXYb"))) None)
  /\ (forall (st st1 : Server) (ws : Ws) (base_hash : option Hash)
             (now_init now : jsstring) (vh : VersionHistory),
        getHistoryForNote st (noteId ws) now_init = (st1, vh) ->
        getContent vh base_hash = CStr (js "ab") ->
        getCurrentContent vh = CStr (js "aXb") ->
        base_hash <> HEAD vh ->
        let result := commit vh (js "aXYb") (js "Merged update from client") now now in
        websocket_message st ws (Sync base_hash [Insert (js "Y") 1]) now_init now
        = Some (Returned (set_history st1 (noteId ws) result.1)
                  ((ws, MsgAck result.2)
                   :: send_to_others st1 ws
                        (MsgUpdate result.2
                           [Retain 1 0; Retain 1 1; Insert (js "Y") 2; Retain 1 2])))).
Proof.
  split_and!.
  - intros clientOps serverOps s clientOp serverOp text Hc Hs Htc Hts Htext Hpos
      _ _ _.
    unfold transform_step.
    rewrite (proj2 (Nat.ltb_lt _ _) (lookup_lt_Some _ _ _ Hc)).
    rewrite Hc, Hs, Hpos, Z.ltb_irrefl, Htc, Hts.
    unfold text_length. by rewrite Htext.
  - exists (CStr (js "aYb")). by vm_compute.
  - intros st st1 ws base_hash now_init now vh Hroom Hbase Hserver Hne result.
    subst result.
    rewrite (merge_path_strings st st1 ws base_hash [Insert (js "Y") 1]
               now_init now vh (js "ab") (js "aXb") (js "aYb") (js "aXYb")
               (map diff_entry
                  [mkCharDiff (js "a") cd_unchanged; mkCharDiff (js "X") cd_unchanged;
                   mkCharDiff (js "Y") cd_added; mkCharDiff (js "b") cd_unchanged]));
      try done.
Qed.

(** The tie of C2 at the second iteration of the scenario (offset 0, client
    insert of "Y" and server insert of "X", both at 1), and scenario 3 of the
    specification run on the server: Bob's insert of "Y" arrives after
    Alice's insert of "X" has been committed. *)
Lemma insert_insert_tie_witness :
  transform_step
    [Retain 1 0; Insert (js "Y") 1; Retain 1 1]
    [Retain 1 0; Insert (js "X") 1; Retain 1 1]
    (mkTransformState 1 1 0 [Retain 1 0])
  = Some (mkTransformState 2 2 0 [Retain 1 0; Insert (js "Y") 2])
  /\ websocket_message with_aXb bob
       (Sync (head with_ab) [Insert (js "Y") 1])
       t0 t3
     = Some (Returned
               (set_history with_aXb room
                  (commit (history with_aXb) (js "aXYb")
                     (js "Merged update from client") t3 t3).1)
               [(bob,
                 MsgAck (commit (history with_aXb) (js "aXYb")
                           (js "Merged update from client") t3 t3).2);
                (alice,
                 MsgUpdate (commit (history with_aXb) (js "aXYb")
                              (js "Merged update from client") t3 t3).2
                   [Retain 1 0; Retain 1 1; Insert (js "Y") 2; Retain 1 2])]).
Proof.
  destruct insert_insert_tie as (Hstep & _ & Hrun).
  split.
  - exact (Hstep
             [Retain 1 0; Insert (js "Y") 1; Retain 1 1]
             [Retain 1 0; Insert (js "X") 1; Retain 1 1]
             (mkTransformState 1 1 0 [Retain 1 0])
             (Insert (js "Y") 1) (Insert (js "X") 1) (js "X")
             eq_refl eq_refl eq_refl eq_refl eq_refl eq_refl
             ltac:(split; by vm_compute)
             ltac:(split; by vm_compute)
             ltac:(split; by vm_compute)).
  - rewrite (Hrun with_aXb with_aXb bob (head with_ab) t0 t3 (history with_aXb));
      [| compute_done ..].
    assert (Hsend :
      send_to_others with_aXb bob
        (MsgUpdate (commit (history with_aXb) (js "aXYb")
                      (js "Merged update from client") t3 t3).2
           [Retain 1 0; Retain 1 1; Insert (js "Y") 2; Retain 1 2])
      = [(alice,
          MsgUpdate (commit (history with_aXb) (js "aXYb")
                       (js "Merged update from client") t3 t3).2
            [Retain 1 0; Retain 1 1; Insert (js "Y") 2; Retain 1 2])])
      by compute_done.
    rewrite Hsend. reflexivity.
Defined.

(** C6, as stated, fails on the rebased list: for the duplicate delete it
    is not empty. *)
Lemma duplicate_delete_rebased_not_empty :
  transformedClientOps (CStr (js "ab")) (CStr (js "b")) (CStr (js "b")) diff
  <> Ok [].
Proof. by vm_compute. Qed.

(** C6, as the code has it. A sync with the single operation
    [delete(length 1, position 0)] against a base "ab" when the head is
    already "b": both diffs give a delete at 0 and a retain at 1; the tie of
    the two deletes drops the client delete, and the rebased list is the one
    retain at position 1.  The merged content is "b", equal to the server
    content; it is committed, the sender gets the [ack] with the new hash,
    and no update is sent. *)
Theorem duplicate_delete (st st1 : Server) (ws : Ws) (base_hash : option Hash)
    (now_init now : jsstring) (vh : VersionHistory) :
  getHistoryForNote st (noteId ws) now_init = (st1, vh) ->
  getContent vh base_hash = CStr (js "ab") ->
  getCurrentContent vh = CStr (js "b") ->
  base_hash <> HEAD vh ->
  let result := commit vh (js "b") (js "Merged update from client") now now in
  applyOperations (CStr (js "ab")) [Delete 1 0] = Ok (CStr (js "b"))
  /\ transformedClientOps (CStr (js "ab")) (CStr (js "b")) (CStr (js "b")) diff
     = Ok [Retain 1 1]
  /\ operationalTransform (CStr (js "ab")) (CStr (js "b")) (CStr (js "b")) diff
     = mkOTResult true (Some (CStr (js "b"))) None
  /\ diff (CStr (js "b")) (CStr (js "b")) = Ok []
  /\ websocket_message st ws (Sync base_hash [Delete 1 0]) now_init now
     = Some (Returned (set_history st1 (noteId ws) result.1)
               [(ws, MsgAck result.2)]).
Proof.
  intros Hroom Hbase Hserver Hne result.
  split_and!; [by vm_compute | by vm_compute | by vm_compute | by vm_compute |].
  subst result.
  rewrite (merge_path_strings st st1 ws base_hash [Delete 1 0] now_init now vh
             (js "ab") (js "b") (js "b") (js "b") []); try done.
Qed.

(** Scenario 5 of the specification: Alice and Bob both delete the first
    character of "ab".  Alice's request is a fast-forward: "b" is committed,
    Alice gets the [ack] and Bob the update.  Bob's request, from the same
    base, then takes the merge path. *)
Lemma duplicate_delete_witness :
  getCurrentContent (history with_ab) = CStr (js "ab")
  /\ websocket_message with_ab alice (Sync (head with_ab) [Delete 1 0]) t0 t2
     = Some (Returned with_b
               [(alice, MsgAck (default [] (head with_b)));
                (bob, MsgUpdate (default [] (head with_b)) [Delete 1 0])])
  /\ getCurrentContent (history with_b) = CStr (js "b")
  /\ websocket_message with_b bob (Sync (head with_ab) [Delete 1 0]) t0 t3
     = Some (Returned
               (set_history with_b room
                  (commit (history with_b) (js "b")
                     (js "Merged update from client") t3 t3).1)
               [(bob, MsgAck (commit (history with_b) (js "b")
                                (js "Merged update from client") t3 t3).2)]).
Proof.
  split_and!; [compute_done | compute_done | compute_done |].
  apply (duplicate_delete with_b with_b bob (head with_ab) t0 t3 (history with_b)).
  - compute_done.
  - compute_done.
  - compute_done.
  - compute_done.
Defined.

(** C7, evaluated. With base "hello", server content "ello" and a client
    that inserted "!" at 5 in "hello": the server delete at 0 meets the
    client retain at 0, the tie consumes it without changing the offset, and
    the client insert is pushed at position 5, not 4.  The merged content is
    still "ello!", because [slice] clamps 5 to the end of "ello".  With the
    client insert at 4 (the client text "hell!o") the rebased insert stays
    at 4, and the merged content is "ello!" again, not "ell!o". *)
Theorem concurrent_delete_insert_rebase :
  (exists client_content,
     applyOperations (CStr (js "hello")) [Insert (js "!") 5] = Ok client_content
     /\ transformedClientOps (CStr (js "hello")) client_content (CStr (js "ello")) diff
        = Ok [Retain 1 0; Retain 1 1; Retain 1 2; Retain 1 3; Retain 1 4;
              Insert (js "!") 5]
     /\ operationalTransform (CStr (js "hello")) client_content (CStr (js "ello")) diff
        = mkOTResult true (Some (CStr (js "ello!"))) None)
  /\ (exists client_content,
        applyOperations (CStr (js "hello")) [Insert (js "!") 4] = Ok client_content
        /\ client_content = CStr (js "hell!o")
        /\ transformedClientOps (CStr (js "hello")) client_content (CStr (js "ello")) diff
           = Ok [Retain 1 0; Retain 1 1; Retain 1 2; Retain 1 3;
                 Insert (js "!") 4; Retain 1 4]
        /\ operationalTransform (CStr (js "hello")) client_content (CStr (js "ello")) diff
           = mkOTResult true (Some (CStr (js "ello!"))) None).
Proof.
  split.
  - exists (CStr (js "hello!")). by vm_compute.
  - exists (CStr (js "hell!o")). by vm_compute.
Qed.

(** ** The version store *)

(** A put at a key that is present changes nothing; a put at a key that is
    free or holds the same object leaves that object there. *)
Lemma put_if_absent_present (d : gmap Hash GitObject) (k : Hash) (v : GitObject) :
  is_Some (d !! k) -> put_if_absent d k v = d.
Proof. intros H. unfold put_if_absent, db_has. by rewrite bool_decide_eq_true_2. Qed.

Lemma put_if_absent_lookup (d : gmap Hash GitObject) (k : Hash) (v : GitObject) :
  free_or_same d k v -> put_if_absent d k v !! k = Some v.
Proof.
  unfold put_if_absent, db_has. intros [Hfree | Hsame].
  - rewrite bool_decide_eq_false_2 by (rewrite Hfree; by intros [? ?]).
    apply lookup_insert_eq.
  - by rewrite bool_decide_eq_true_2 by (rewrite Hsame; eauto).
Qed.

Lemma put_if_absent_lookup_ne (d : gmap Hash GitObject) (k k' : Hash) (v : GitObject) :
  k <> k' -> put_if_absent d k v !! k' = d !! k'.
Proof.
  intros Hne. unfold put_if_absent. destruct (db_has d k); [done |].
  by apply lookup_insert_ne.
Qed.

Lemma put_if_absent_subseteq (d : gmap Hash GitObject) (k : Hash) (v : GitObject) :
  d ⊆ put_if_absent d k v.
Proof.
  unfold put_if_absent, db_has. case_bool_decide as Hk; [done |].
  apply insert_subseteq. by apply eq_None_not_Some.
Qed.

(** A digest has forty characters. *)
Lemma sha1_hex_length (content : jsstring) : length (sha1_hex content) = 40.
Proof.
  with_strategy transparent [sha1_hex] unfold sha1_hex.
  unfold Sha1.digest_hex, Sha1.hex.
  by rewrite !length_app, !length_map, !length_rev, !length_seq.
Qed.

Lemma hashObject_nonempty (o : GitObject) : hashObject o <> [].
Proof.
  unfold hashObject. intros H. apply (f_equal length) in H.
  rewrite sha1_hex_length in H. discriminate.
Qed.

(** After a commit, [HEAD] is the hash returned, and it is the key of the
    new commit object. *)
Lemma commit_head (vh : VersionHistory) (content message_ now_message now_timestamp : jsstring) :
  let r := commit vh content message_ now_message now_timestamp in
  getHeadHash r.1 = Some r.2
  /\ (exists c, db r.1 !! r.2 = Some (GCommit c) /\ parent c = HEAD vh)
  /\ head_in_store r.1.
Proof.
  unfold commit, commit_object, getHeadHash, head_in_store. cbn [fst snd HEAD db].
  rewrite lookup_insert_eq. split_and!; [done | | done].
  eexists. split; [reflexivity | done].
Qed.

(** The round trip through a commit, when the three keys are three
    different keys, and the keys of the blob and of the tree are free or
    already hold this blob and this tree. *)
Lemma commit_getContent (vh : VersionHistory)
    (content message_ now_message now_timestamp : jsstring) :
  let blobHash := hashObject (GBlob content) in
  let treeData := GTree (filename vh) blobHash in
  let treeHash := hashObject treeData in
  let r := commit vh content message_ now_message now_timestamp in
  free_or_same (db vh) blobHash (GBlob content) ->
  free_or_same (db vh) treeHash treeData ->
  treeHash <> blobHash -> r.2 <> treeHash -> r.2 <> blobHash ->
  getContent r.1 (Some r.2) = CStr content.
Proof.
  intros blobHash treeData treeHash r Hblob Htree Htb Hct Hcb.
  assert (Hb : db r.1 !! blobHash = Some (GBlob content)).
  { subst r. unfold commit, commit_object in *. cbn [fst snd db] in *.
    rewrite lookup_insert_ne by done.
    rewrite put_if_absent_lookup_ne by done.
    by apply put_if_absent_lookup. }
  assert (Ht : db r.1 !! treeHash = Some treeData).
  { subst r. unfold commit, commit_object in *. cbn [fst snd db] in *.
    rewrite lookup_insert_ne by done.
    apply put_if_absent_lookup.
    destruct Htree as [Hfree | Hsame]; [left | right];
      by rewrite put_if_absent_lookup_ne by done. }
  assert (Hc : exists c, db r.1 !! r.2 = Some (GCommit c) /\ tree c = treeHash).
  { subst r. unfold commit, commit_object. cbn [fst snd db]. rewrite lookup_insert_eq. eauto. }
  destruct Hc as (c & Hc & Htree_c).
  assert (Hfile : filename r.1 = filename vh) by done.
  pose proof (hashObject_nonempty (GBlob content)) as Hne_blob. fold blobHash in Hne_blob.
  assert (Hne_commit : r.2 <> []) by apply hashObject_nonempty.
  clearbody r. unfold getContent.
  destruct r.2 as [| x h] eqn:Hh; [done |].
  rewrite Hc. cbn [falsy_object get_property].
  rewrite bool_decide_eq_true_2 by done. cbn [db_get].
  rewrite Htree_c, Ht. subst treeData. cbn [falsy_object get_property].
  rewrite Hfile, bool_decide_eq_true_2 by done.
  destruct blobHash as [| y bh] eqn:Hbh; [done |].
  cbn [falsy db_get]. by rewrite Hb.
Qed.

Lemma chain_ok_mono (d d' : gmap Hash GitObject) (h : option Hash) :
  d ⊆ d' -> chain_ok d h -> chain_ok d' h.
Proof.
  intros Hsub. induction 1 as [| h c Hc (fn & bh & Htree & [o Hblob]) _ IH];
    [constructor |].
  econstructor; [by eapply lookup_weaken | | exact IH].
  exists fn, bh. split; [by eapply lookup_weaken |].
  exists o. by eapply lookup_weaken.
Qed.

(** The invariants survive a commit whose blob and tree keys are free or
    already hold this blob and this tree, and whose commit key is new. *)
Lemma commit_preserves_invariant (vh : VersionHistory)
    (content message_ now_message now_timestamp : jsstring) :
  let blobHash := hashObject (GBlob content) in
  let treeData := GTree (filename vh) blobHash in
  let treeHash := hashObject treeData in
  let r := commit vh content message_ now_message now_timestamp in
  store_invariant vh ->
  free_or_same (db vh) blobHash (GBlob content) ->
  free_or_same (db vh) treeHash treeData ->
  treeHash <> blobHash ->
  put_if_absent (put_if_absent (db vh) blobHash (GBlob content)) treeHash treeData
    !! r.2 = None ->
  store_invariant r.1.
Proof.
  intros blobHash treeData treeHash r [_ Hchain] Hblob Htree Htb Hfresh.
  pose proof (put_if_absent_lookup _ _ _ Hblob) as Hb.
  assert (Ht : put_if_absent (put_if_absent (db vh) blobHash (GBlob content))
                 treeHash treeData !! treeHash = Some treeData).
  { apply put_if_absent_lookup.
    destruct Htree as [Hfree | Hsame]; [left | right];
      by rewrite put_if_absent_lookup_ne by done. }
  assert (Hb2 : put_if_absent (put_if_absent (db vh) blobHash (GBlob content))
                  treeHash treeData !! blobHash = Some (GBlob content)).
  { by rewrite put_if_absent_lookup_ne by done. }
  split; [apply commit_head |].
  subst r blobHash treeData treeHash. unfold commit, commit_object in *. cbn [fst snd db HEAD] in *.
  econstructor.
  - apply lookup_insert_eq.
  - exists (filename vh), (hashObject (GBlob content)). cbn [tree]. split.
    + rewrite lookup_insert_ne; [exact Ht |].
      intros Heq. rewrite Heq, Ht in Hfresh. discriminate.
    + exists (GBlob content).
      rewrite lookup_insert_ne; [exact Hb2 |].
      intros Heq. rewrite Heq, Hb2 in Hfresh. discriminate.
  - cbn [parent]. eapply chain_ok_mono; [| exact Hchain].
    etrans; [apply put_if_absent_subseteq |].
    etrans; [apply put_if_absent_subseteq |].
    by apply insert_subseteq.
Qed.

(** C3, evaluated. In a history with the default file name, commit "x" and
    then commit the text [{"note.txt":"11f6ad8ec52a2984abaafd7c3b516503785c2072"}],
    which is the JSON of the tree of the first commit.  Its hash is the key
    of that tree, so the blob is not stored; [HEAD] is the new commit, and
    [getContent] of the new commit returns the tree object of the first
    commit, not the text committed. *)
Theorem commit_of_tree_text_reads_tree :
  note_text
  = js "{" ++ [34%N] ++ js "note.txt" ++ [34%N] ++ js ":" ++ [34%N]
      ++ js "11f6ad8ec52a2984abaafd7c3b516503785c2072" ++ [34%N] ++ js "}"
  /\ hashObject (GBlob note_text)
     = hashObject (GTree note (hashObject (GBlob (js "x"))))
  /\ getContent note_x.1 (Some note_x.2) = CStr (js "x")
  /\ getHeadHash note_x_text.1 = Some note_x_text.2
  /\ getContent note_x_text.1 (Some note_x_text.2)
     = CObject (GTree note (js "11f6ad8ec52a2984abaafd7c3b516503785c2072"))
  /\ getContent note_x_text.1 (Some note_x_text.2) <> CStr note_text.
Proof. compute_done. Qed.

(** A head whose tree key holds a string breaks the invariants. *)
Lemma string_at_tree_key (vh : VersionHistory) (h : Hash) (c : Commit) (s : jsstring) :
  HEAD vh = Some h ->
  db vh !! h = Some (GCommit c) ->
  db vh !! tree c = Some (GBlob s) ->
  ~ links_resolve (db vh) c /\ ~ store_invariant vh.
Proof.
  intros Hhead Hc Ht.
  assert (Hlinks : ~ links_resolve (db vh) c).
  { intros (fn & bh & Htree & _). rewrite Ht in Htree. discriminate. }
  split; [exact Hlinks |].
  intros [_ Hchain]. rewrite Hhead in Hchain.
  inversion Hchain as [| h' c' Hc' Hlinks' _ Heq]; subst.
  rewrite Hc in Hc'. injection Hc' as <-. contradiction.
Qed.

(** C8, evaluated. In a history with the default file name, commit the text
    [{"note.txt":"11f6ad8ec52a2984abaafd7c3b516503785c2072"}] and then
    commit "x".  After the first commit the invariants hold.  The tree of
    the second commit has the hash of the first blob, so it is not stored:
    the tree hash of the commit at [HEAD] is the key of a string, its blob
    hash does not resolve, the invariants do not hold any more, and
    [getContent] of [HEAD] is [null]. *)
Theorem commit_after_tree_text_breaks_links :
  store_invariant note_text_first.1
  /\ exists c,
       HEAD note_text_x.1 = Some note_text_x.2
       /\ db note_text_x.1 !! note_text_x.2 = Some (GCommit c)
       /\ db note_text_x.1 !! tree c = Some (GBlob note_text)
       /\ ~ links_resolve (db note_text_x.1) c
       /\ ~ store_invariant note_text_x.1
       /\ getContent note_text_x.1 (Some note_text_x.2) = CNull.
Proof.
  split.
  { apply (commit_preserves_invariant (new_VersionHistory note) note_text
             (js "first") t0 t1).
    - split; [exact I | constructor].
    - left. apply lookup_empty.
    - left. apply lookup_empty.
    - compute_done.
    - compute_done. }
  pose (c := mkCommit (hashObject (GTree note (hashObject (GBlob (js "x")))))
               (Some note_text_first.2) (js "second") t2).
  assert (Hhead : HEAD note_text_x.1 = Some note_text_x.2) by compute_done.
  assert (Hc : db note_text_x.1 !! note_text_x.2 = Some (GCommit c)) by compute_done.
  assert (Ht : db note_text_x.1 !! tree c = Some (GBlob note_text)) by compute_done.
  assert (Hnull : getContent note_text_x.1 (Some note_text_x.2) = CNull)
    by compute_done.
  destruct (string_at_tree_key _ _ _ _ Hhead Hc Ht) as [Hlinks Hinv].
  exists c.
  exact (conj Hhead (conj Hc (conj Ht (conj Hlinks (conj Hinv Hnull))))).
Qed.

(** * Further properties *)

(** ** [transformOperations]: empty lists, and what is kept *)

Lemma with_position_same (op : Operation) :
  with_position op (position op + 0) = op.
Proof. destruct op. unfold with_position. simpl. f_equal. lia. Qed.

Lemma transform_loop_no_server (clientOps : list Operation) (fuel : nat) :
  forall (ci si : nat) (out : list Operation),
  transformed (transform_loop fuel clientOps [] (mkTransformState ci si 0 out))
  = out ++ take fuel (drop ci clientOps).
Proof.
  induction fuel as [| fuel IH]; intros ci si out; simpl.
  - by rewrite take_0, app_nil_r.
  - unfold transform_step. simpl.
    destruct (ci <? length clientOps) eqn:Hci.
    + apply Nat.ltb_lt in Hci.
      destruct (lookup_lt_is_Some_2 clientOps ci Hci) as [op Hop].
      rewrite Hop, with_position_same, IH.
      rewrite (drop_S _ _ _ Hop), Nat.add_1_r. simpl. by rewrite <- app_assoc.
    + apply Nat.ltb_ge in Hci. simpl. by rewrite drop_ge, take_nil, app_nil_r.
Qed.

(** X1. Without server operations the client operations come back as they
    are, and without client operations the result is empty. *)
Theorem transformOperations_empty :
  (forall clientOps : list Operation, transformOperations clientOps [] = clientOps)
  /\ (forall serverOps : list Operation, transformOperations [] serverOps = []).
Proof.
  split.
  - intros clientOps. unfold transformOperations.
    rewrite transform_loop_no_server. simpl.
    by rewrite drop_0, Nat.add_0_r, firstn_all.
  - intros serverOps. unfold transformOperations. simpl.
    destruct (length serverOps); done.
Qed.

Lemma rebased_snoc_keep (clientOps out : list Operation) (op : Operation) (p : Z) :
  rebased clientOps out ->
  rebased (clientOps ++ [op]) (out ++ [with_position op p]).
Proof.
  induction 1; simpl; try (by constructor).
  repeat constructor.
Qed.

Lemma rebased_snoc_drop (clientOps out : list Operation) (op : Operation) :
  op_type op = delete ->
  rebased clientOps out -> rebased (clientOps ++ [op]) out.
Proof.
  intros Hdel. induction 1; simpl; try (by constructor).
  apply rebased_drop; [done | constructor].
Qed.

Lemma transform_step_rebased (clientOps serverOps : list Operation)
    (s s' : TransformState) :
  transform_step clientOps serverOps s = Some s' ->
  rebased (take (clientIndex s) clientOps) (transformed s) ->
  rebased (take (clientIndex s') clientOps) (transformed s').
Proof.
  unfold transform_step.
  destruct (clientIndex s <? length clientOps) eqn:Hci; [| done].
  destruct (clientOps !! clientIndex s) as [clientOp |] eqn:Hc.
  2:{ intros [= <-] H. simpl. apply lookup_ge_None in Hc.
      by rewrite !take_ge in * by lia. }
  assert (Htake : take (clientIndex s + 1) clientOps
                  = take (clientIndex s) clientOps ++ [clientOp]).
  { rewrite Nat.add_1_r. by apply take_S_r. }
  destruct (serverOps !! serverIndex s) as [serverOp |].
  2:{ intros [= <-] H. simpl. rewrite Htake. by apply rebased_snoc_keep. }
  destruct (position clientOp <? position serverOp)%Z.
  { intros [= <-] H. simpl. rewrite Htake. by apply rebased_snoc_keep. }
  destruct (position serverOp <? position clientOp)%Z.
  { destruct (op_type serverOp); intros [= <-] H; exact H. }
  destruct (op_type clientOp) eqn:Htc, (op_type serverOp);
    intros [= <-] H; simpl; rewrite Htake;
    first [ by apply rebased_snoc_keep | by apply rebased_snoc_drop ].
Qed.

Lemma transform_loop_rebased (clientOps serverOps : list Operation) (fuel : nat) :
  forall s,
  rebased (take (clientIndex s) clientOps) (transformed s) ->
  rebased (take (clientIndex (transform_loop fuel clientOps serverOps s)) clientOps)
          (transformed (transform_loop fuel clientOps serverOps s)).
Proof.
  induction fuel as [| fuel IH]; intros s H; simpl; [done |].
  destruct (transform_step clientOps serverOps s) as [s' |] eqn:Hstep; [| done].
  apply IH. by eapply transform_step_rebased.
Qed.

Lemma rebased_length (clientOps out : list Operation) :
  rebased clientOps out -> length out <= length clientOps.
Proof. induction 1; simpl; lia. Qed.

Lemma rebased_no_delete (clientOps out : list Operation) :
  rebased clientOps out ->
  Forall (fun op => op_type op <> delete) clientOps ->
  length out = length clientOps
  /\ map op_type out = map op_type clientOps
  /\ map op_text out = map op_text clientOps.
Proof.
  induction 1 as [| op p c out H IH | op c out Hdel H IH]; intros Hall.
  - done.
  - apply Forall_cons in Hall as [_ Hall].
    destruct (IH Hall) as (Hl & Hty & Htx). simpl. by rewrite Hl, Hty, Htx.
  - apply Forall_cons in Hall as [Hop _]. done.
Qed.

(** X2. The result of [transformOperations] is the client operations in
    their order, each with a position of its own but with its type, length
    and text as they were, and with some of the client deletes left out
    (never an insert or a retain).  So it is never longer than the client
    list, and a client list without deletes keeps all its operations. *)
Theorem transformOperations_rebased (clientOps serverOps : list Operation) :
  rebased clientOps (transformOperations clientOps serverOps)
  /\ length (transformOperations clientOps serverOps) <= length clientOps
  /\ (Forall (fun op => op_type op <> delete) clientOps ->
      map op_type (transformOperations clientOps serverOps) = map op_type clientOps
      /\ map op_text (transformOperations clientOps serverOps) = map op_text clientOps).
Proof.
  assert (H : rebased clientOps (transformOperations clientOps serverOps)).
  { unfold transformOperations.
    pose proof (transform_loop_rebased clientOps serverOps
                  (length clientOps + length serverOps)
                  (mkTransformState 0 0 0 []) rebased_nil) as Hinv.
    pose proof (transformOperations_finished clientOps serverOps) as Hfin.
    unfold transform_step in Hfin.
    destruct (clientIndex _ <? length clientOps) eqn:Hci.
    - by repeat case_match.
    - apply Nat.ltb_ge in Hci. by rewrite take_ge in Hinv. }
  split_and!; [exact H | by apply rebased_length |].
  intros Hall. by destruct (rebased_no_delete _ _ H Hall) as (_ & ? & ?).
Qed.

(** A list without deletes, for X2: the client operations of scenario 3. *)
Lemma transformOperations_rebased_witness :
  map op_type (transformOperations
                 [Retain 1 0; Insert (js "Y") 1; Retain 1 1]
                 [Retain 1 0; Insert (js "X") 1; Retain 1 1])
  = [retain; insert; retain].
Proof.
  refine (proj1 (proj2 (proj2 (transformOperations_rebased
            [Retain 1 0; Insert (js "Y") 1; Retain 1 1]
            [Retain 1 0; Insert (js "X") 1; Retain 1 1])) _)).
  repeat constructor; discriminate.
Defined.

(** ** [applyOperations]: retains, single operations *)

Lemma insert_by_position_lower (op : Operation) (l : list Operation) :
  Forall (fun z => position_le op z) l -> insert_by_position op l = op :: l.
Proof.
  destruct 1 as [| y l Hy _]; simpl; [done |].
  unfold position_le in Hy. by rewrite (proj2 (Z.leb_le _ _) Hy).
Qed.

Section SortFilter.
Variable P : Operation -> Prop.
Context `{!forall op, Decision (P op)}.

Lemma filter_insert_skip (op : Operation) (l : list Operation) :
  ~ P op -> filter P (insert_by_position op l) = filter P l.
Proof.
  intros Hop. induction l as [| y l IH]; simpl.
  - by rewrite filter_cons_False.
  - destruct (position op <=? position y)%Z.
    + by rewrite filter_cons_False.
    + rewrite !filter_cons. by rewrite IH.
Qed.

Lemma filter_insert_keep (op : Operation) (l : list Operation) :
  StronglySorted position_le l -> P op ->
  filter P (insert_by_position op l) = insert_by_position op (filter P l).
Proof.
  intros Hsorted Hop. induction Hsorted as [| y l Hl IH Hy]; simpl.
  - by rewrite filter_cons_True.
  - destruct (position op <=? position y)%Z eqn:E.
    + rewrite filter_cons_True by done.
      symmetry. apply insert_by_position_lower.
      apply Z.leb_le in E.
      apply Forall_forall. intros z Hz.
      apply list_elem_of_filter in Hz as [_ Hz].
      apply elem_of_cons in Hz as [-> | Hz]; [done |].
      rewrite Forall_forall in Hy. specialize (Hy z Hz).
      unfold position_le in *. lia.
    + rewrite !filter_cons. destruct (decide (P y)); simpl.
      * by rewrite E, IH.
      * exact IH.
Qed.

Lemma sort_by_position_filter (l : list Operation) :
  filter P (sort_by_position l) = sort_by_position (filter P l).
Proof.
  induction l as [| x l IH]; [done |].
  change (sort_by_position (x :: l))
    with (insert_by_position x (sort_by_position l)).
  rewrite filter_cons. destruct (decide (P x)) as [Hx | Hx].
  - rewrite filter_insert_keep; [| | done].
    + by rewrite IH.
    + apply Sorted_StronglySorted; [| apply sort_by_position_Sorted].
      intros a b c. unfold position_le. lia.
  - by rewrite filter_insert_skip, IH.
Qed.
End SortFilter.

Lemma apply_loop_skip_retains (l : list Operation) : forall st,
  apply_loop st l = apply_loop st (filter (fun op => ~ is_retain op) l).
Proof.
  induction l as [| op l IH]; intros st; [done |].
  rewrite filter_cons. destruct (decide (~ is_retain op)) as [Hop | Hop]; simpl.
  - destruct (apply_step st op); simpl; [apply IH | done].
  - apply dec_stable in Hop. unfold is_retain in Hop.
    unfold apply_step. destruct st as [result offset]. rewrite Hop. simpl.
    apply IH.
Qed.

(** X3. A retain has no effect on the result of [applyOperations], for any
    content: the operations without their retains give the same result (or
    the same exception), and a list of retains returns the content as it
    is. *)
Theorem applyOperations_ignores_retains (content : Content) (operations : list Operation) :
  applyOperations content operations
  = applyOperations content (filter (fun op => ~ is_retain op) operations)
  /\ applyOperations content (filter is_retain operations) = Ok content.
Proof.
  split.
  - unfold applyOperations.
    rewrite <- sort_by_position_filter, <- apply_loop_skip_retains. done.
  - unfold applyOperations.
    assert (Hall : Forall is_retain (sort_by_position (filter is_retain operations))).
    { rewrite sort_by_position_Permutation. apply Forall_forall.
      by intros op [Hop _]%list_elem_of_filter. }
    assert (Hloop : forall l st, Forall is_retain l -> apply_loop st l = Ok st).
    { clear. induction l as [| op l IH]; intros [result offset] Hl; [done |].
      apply Forall_cons in Hl as [Hop Hl]. simpl. unfold apply_step.
      rewrite Hop. simpl. by apply IH. }
    by rewrite Hloop.
Qed.

Lemma slice_to_nonneg (s : jsstring) (p : Z) :
  (0 <= p)%Z -> slice s 0 p = take (Z.to_nat p) s.
Proof.
  intros Hp. unfold slice, slice_index. pose proof (jslength_nonneg s) as Hs.
  rewrite (proj2 (Z.ltb_ge 0 0)) by lia. rewrite (proj2 (Z.ltb_ge p 0)) by lia.
  rewrite (Z.min_l 0) by lia. rewrite Z.sub_0_r. change (Z.to_nat 0) with 0.
  rewrite drop_0. unfold jslength in *.
  destruct (Z.le_ge_cases p (Z.of_nat (length s))) as [Hle | Hge].
  - by rewrite Z.min_l.
  - rewrite Z.min_r by lia. rewrite Nat2Z.id. by rewrite !take_ge by lia.
Qed.

Lemma slice_from_nonneg (s : jsstring) (p : Z) :
  (0 <= p)%Z -> slice_from s p = drop (Z.to_nat p) s.
Proof.
  intros Hp. unfold slice_from, slice_index. pose proof (jslength_nonneg s) as Hs.
  rewrite (proj2 (Z.ltb_ge p 0)) by lia. unfold jslength in *.
  destruct (Z.le_ge_cases p (Z.of_nat (length s))) as [Hle | Hge].
  - by rewrite Z.min_l.
  - rewrite Z.min_r by lia. rewrite Nat2Z.id. by rewrite !drop_ge by lia.
Qed.

(** X4. One insert at a position [p >= 0] splices its text after the first
    [p] characters, and at the end when [p] is beyond the end; one delete of
    [n >= 0] characters at [p >= 0] removes the characters from [p] up to
    [p + n], as many of them as the string has. *)
Theorem applyOperations_single (s text : jsstring) (p n : Z) :
  (0 <= p)%Z -> (0 <= n)%Z ->
  applyOperations (CStr s) [Insert text p]
  = Ok (CStr (take (Z.to_nat p) s ++ text ++ drop (Z.to_nat p) s))
  /\ applyOperations (CStr s) [Delete n p]
     = Ok (CStr (take (Z.to_nat p) s ++ drop (Z.to_nat (p + n)) s)).
Proof.
  intros Hp Hn. unfold applyOperations, apply_loop, apply_step. simpl.
  unfold length_or_0. simpl. rewrite !Z.add_0_r.
  by rewrite slice_to_nonneg, !slice_from_nonneg by lia.
Qed.

(** An insert beyond the end and a delete across the end, for X4. *)
Lemma applyOperations_single_witness :
  applyOperations (CStr (js "abc")) [Insert (js "X") 7] = Ok (CStr (js "abcX"))
  /\ applyOperations (CStr (js "abc")) [Delete 5 1] = Ok (CStr (js "a")).
Proof.
  destruct (applyOperations_single (js "abc") (js "X") 7 0) as [Hins _]; [lia | lia |].
  destruct (applyOperations_single (js "abc") [] 1 5) as [_ Hdel]; [lia | lia |].
  split; [exact Hins | exact Hdel].
Defined.

(** ** [operationalTransform] when one side has not changed *)

Lemma transformOperations_nil_r (clientOps : list Operation) :
  transformOperations clientOps [] = clientOps.
Proof.
  unfold transformOperations. rewrite transform_loop_no_server. simpl.
  by rewrite drop_0, Nat.add_0_r, firstn_all.
Qed.

Lemma diff_same (a : Content) : diff a a = Ok [].
Proof. unfold diff, strict_eq. by rewrite bool_decide_eq_true_2. Qed.

Lemma diff_then_apply (a b : jsstring) :
  exists d, diff (CStr a) (CStr b) = Ok d
    /\ applyOperations (CStr a) (diffToOperations d) = Ok (CStr b).
Proof.
  destruct (decide (a = b)) as [-> | Hne].
  - exists []. by rewrite diff_same.
  - destruct (diff_script a b Hne) as (E & Hd & Hs & Ht & Hall).
    exists (map diff_entry E). split; [done |].
    rewrite diffToOperations_script. unfold applyOperations.
    rewrite sort_by_position_sorted by apply script_ops_sorted.
    destruct (apply_loop_script E [] [] 0 0 Hall) as [off' Hrun]; [done |].
    simpl in Hrun. rewrite !app_nil_r, Hs, Ht in Hrun.
    by rewrite Hrun.
Qed.

(** X5. A merge in which one side has not changed is the other side: when
    the server content is the base, the merged content is the client
    content, and when the client content is the base, the merged content is
    the server content. *)
Theorem operationalTransform_one_side_unchanged (base other : jsstring) :
  operationalTransform (CStr base) (CStr other) (CStr base) diff
  = mkOTResult true (Some (CStr other)) None
  /\ operationalTransform (CStr base) (CStr base) (CStr other) diff
     = mkOTResult true (Some (CStr other)) None.
Proof.
  unfold operationalTransform, operationalTransform_try, transformedClientOps.
  rewrite !diff_same.
  destruct (diff_then_apply base other) as (d & -> & Happly).
  cbn [mbind Result_bind]. split.
  - change (diffToOperations []) with (@nil Operation).
    by rewrite transformOperations_nil_r, Happly.
  - change (diffToOperations []) with (@nil Operation).
    unfold transformOperations. simpl. by destruct (length (diffToOperations d)).
Qed.

(** ** The entries of [diff] *)

Lemma old_text_entries (E : list CharDiff) :
  old_text (map diff_entry E) = source_of E
  /\ new_text (map diff_entry E) = target_of E.
Proof.
  unfold old_text, new_text, source_of, target_of.
  induction E as [| [c []] E [IHs IHt]]; [done | ..];
    cbn [map concat]; rewrite IHs, IHt; done.
Qed.

Lemma diff_entry_char_entry (E : list CharDiff) :
  Forall (fun cd => single (char cd)) E -> Forall char_entry (map diff_entry E).
Proof.
  intros Hall. apply Forall_fmap. eapply Forall_impl; [exact Hall |].
  intros [c []] Hc; unfold char_entry, diff_entry; by simpl.
Qed.

(** X6. [diff] of two strings returns the empty list when they are equal.
    Otherwise every entry is one character, added, removed or unchanged
    (never modified, and without character diffs); the characters of the
    unchanged and removed entries, in order, are the first string, and those
    of the unchanged and added entries are the second. *)
Theorem diff_edit_script (a b : jsstring) :
  exists d, diff (CStr a) (CStr b) = Ok d
    /\ if decide (a = b) then d = []
       else Forall char_entry d /\ old_text d = a /\ new_text d = b.
Proof.
  destruct (decide (a = b)) as [-> | Hne].
  - exists []. by rewrite diff_same.
  - destruct (diff_script a b Hne) as (E & Hd & Hs & Ht & Hall).
    exists (map diff_entry E). split; [done |].
    destruct (old_text_entries E) as [-> ->].
    split_and!; [by apply diff_entry_char_entry | done | done].
Qed.

(** ** [diff] against the empty string *)

Lemma backtrack_added_only (chars2 : list jsstring) (dp : list (list Z)) (fuel : nat) :
  forall (j : nat) (acc : list CharDiff),
  j <= fuel -> j <= length chars2 ->
  backtrack fuel [] chars2 dp 0 j acc
  = map (fun c => mkCharDiff c cd_added) (take j chars2) ++ acc.
Proof.
  induction fuel as [| fuel IH]; intros j acc Hfuel Hj.
  - assert (j = 0) as -> by lia. by rewrite take_0.
  - destruct j as [| j]; [by rewrite take_0 |].
    destruct (lookup_lt_is_Some_2 chars2 j) as [c Hc]; [lia |].
    cbn [backtrack]. change (0 <? 0) with false. change (0 <? S j) with true.
    cbn [orb andb negb Nat.eqb]. replace (S j - 1) with j by lia.
    rewrite IH by lia. unfold char_at. rewrite Hc. cbn [default].
    rewrite (take_S_r _ _ _ Hc), map_app. by rewrite <- app_assoc.
Qed.

Lemma backtrack_removed_only (chars1 : list jsstring) (dp : list (list Z)) (fuel : nat) :
  forall (i : nat) (acc : list CharDiff),
  i <= fuel -> i <= length chars1 ->
  backtrack fuel chars1 [] dp i 0 acc
  = map (fun c => mkCharDiff c cd_removed) (take i chars1) ++ acc.
Proof.
  induction fuel as [| fuel IH]; intros i acc Hfuel Hi.
  - assert (i = 0) as -> by lia. by rewrite take_0.
  - destruct i as [| i]; [by rewrite take_0 |].
    destruct (lookup_lt_is_Some_2 chars1 i) as [c Hc]; [lia |].
    cbn [backtrack]. change (0 <? 0) with false. change (0 <? S i) with true.
    cbn [orb andb negb Nat.eqb]. replace (S i - 1) with i by lia.
    rewrite IH by lia. unfold char_at. rewrite Hc. cbn [default].
    rewrite (take_S_r _ _ _ Hc), map_app. by rewrite <- app_assoc.
Qed.

Lemma script_ops_inserts (s : jsstring) (p : Z) :
  script_ops p (map (fun c => mkCharDiff [c] cd_added) s)
  = map (fun c => Insert [c] p) s.
Proof. induction s as [| c s IH]; simpl; [done | by rewrite IH]. Qed.

Lemma script_ops_deletes (s : jsstring) : forall p : Z,
  script_ops p (map (fun c => mkCharDiff [c] cd_removed) s)
  = imap (fun i _ => Delete 1 (p + Z.of_nat i)) s.
Proof.
  induction s as [| c s IH]; intros p; simpl; [done |].
  rewrite IH, Z.add_0_r. unfold jslength. simpl. f_equal.
  apply imap_ext. intros i x _. simpl. f_equal. lia.
Qed.

(** X7. The diff of the empty string with a string that is not empty is
    one added entry for each of its characters, and the operations made of
    it insert every character at position 0, in order.  The diff of a string
    that is not empty with the empty string is one removed entry for each
    character, and the operations delete one character at each of the
    positions 0, 1, 2, and so on. *)
Theorem diff_with_empty (s : jsstring) :
  s <> [] ->
  diff (CStr []) (CStr s) = Ok (map (fun c => mkDiffResult added [c] None None) s)
  /\ diffToOperations (map (fun c => mkDiffResult added [c] None None) s)
     = map (fun c => Insert [c] 0) s
  /\ diff (CStr s) (CStr []) = Ok (map (fun c => mkDiffResult removed [c] None None) s)
  /\ diffToOperations (map (fun c => mkDiffResult removed [c] None None) s)
     = imap (fun i _ => Delete 1 (Z.of_nat i)) s.
Proof.
  intros Hne.
  assert (Hadd : map (fun c => mkDiffResult added [c] None None) s
                 = map diff_entry (map (fun c => mkCharDiff [c] cd_added) s)).
  { by rewrite map_map. }
  assert (Hrem : map (fun c => mkDiffResult removed [c] None None) s
                 = map diff_entry (map (fun c => mkCharDiff [c] cd_removed) s)).
  { by rewrite map_map. }
  split_and!.
  - unfold diff, strict_eq. rewrite bool_decide_eq_false_2 by congruence.
    unfold generateCharacterDiff. cbn [split_chars mbind Result_bind map length].
    rewrite Nat.add_0_l, backtrack_added_only by done.
    by rewrite firstn_all, app_nil_r, Hadd, !map_map.
  - by rewrite Hadd, diffToOperations_script, script_ops_inserts.
  - unfold diff, strict_eq. rewrite bool_decide_eq_false_2 by congruence.
    unfold generateCharacterDiff. cbn [split_chars mbind Result_bind map length].
    rewrite Nat.add_0_r, backtrack_removed_only by done.
    by rewrite firstn_all, app_nil_r, Hrem, !map_map.
  - rewrite Hrem, diffToOperations_script, script_ops_deletes. done.
Qed.

(** Typing "hi" into an empty note, and clearing a note that reads "hi". *)
Lemma diff_with_empty_witness :
  diff (CStr []) (CStr (js "hi"))
  = Ok [mkDiffResult added (js "h") None None; mkDiffResult added (js "i") None None]
  /\ diffToOperations
       [mkDiffResult removed (js "h") None None; mkDiffResult removed (js "i") None None]
     = [Delete 1 0; Delete 1 1].
Proof.
  destruct (diff_with_empty (js "hi")) as (Hadd & _ & _ & Hdel); [discriminate |].
  split; [exact Hadd | exact Hdel].
Defined.

(** ** [diffToOperations] on a diff of lines *)

Lemma source_of_app (E1 E2 : list CharDiff) :
  source_of (E1 ++ E2) = source_of E1 ++ source_of E2.
Proof. unfold source_of. by rewrite map_app, concat_app. Qed.

Lemma target_of_app (E1 E2 : list CharDiff) :
  target_of (E1 ++ E2) = target_of E1 ++ target_of E2.
Proof. unfold target_of. by rewrite map_app, concat_app. Qed.

Lemma script_ops_app (E1 E2 : list CharDiff) : forall p,
  script_ops p (E1 ++ E2)
  = script_ops p E1 ++ script_ops (p + jslength (source_of E1)) E2.
Proof.
  induction E1 as [| cd E1 IH]; intros p.
  - unfold source_of, jslength. simpl. by rewrite Z.add_0_r.
  - destruct cd as [c []]; unfold source_of; simpl; fold (source_of E1);
      by rewrite IH, ?jslength_app, ?Z.add_assoc.
Qed.

(** The inner loop of the ['modified'] case pushes the operations of the
    character script. *)
Lemma charDiff_fold (E : list CharDiff) : forall (ops0 : list Operation) (p : Z),
  Forall (fun cd => single (char cd)) E ->
  foldl charDiff_step (ops0, p) E
  = (ops0 ++ script_ops p E, (p + jslength (source_of E))%Z).
Proof.
  induction E as [| cd E IH]; intros ops0 p Hall.
  - unfold source_of, jslength. simpl. by rewrite app_nil_r, Z.add_0_r.
  - apply Forall_cons in Hall as [Hcd Hall].
    assert (Hlen : jslength (char cd) = 1%Z) by (unfold jslength; rewrite Hcd; done).
    destruct cd as [c []]; simpl in Hlen; unfold source_of; simpl; fold (source_of E);
      rewrite IH by done; rewrite <- app_assoc, ?jslength_app, ?Hlen, ?Z.add_assoc;
      done.
Qed.

Lemma diffToOperations_step_script (r : DiffResult) (ops0 : list Operation) (p : Z) :
  consistent r ->
  diffToOperations_step (ops0, p) r
  = (ops0 ++ script_ops p (entry_script r),
     (p + jslength (source_of (entry_script r)))%Z).
Proof.
  intros Hr. unfold diffToOperations_step, entry_script, consistent in *.
  destruct (d_type r) eqn:Hty.
  - unfold source_of, jslength. simpl. by rewrite Z.add_0_r.
  - unfold source_of. simpl. by rewrite app_nil_r.
  - unfold source_of. simpl. by rewrite app_nil_r.
  - destruct (charDiffs r) as [E |] eqn:HE; simpl.
    + destruct (Hr E eq_refl eq_refl) as [Hall Hlen].
      rewrite charDiff_fold by done. simpl.
      unfold oldLine_length in Hlen. by rewrite Hlen.
    + unfold source_of, jslength. simpl. by rewrite app_nil_r, Z.add_0_r.
Qed.

Lemma diffToOperations_lines (d : list DiffResult) :
  forall (ops0 : list Operation) (p : Z),
  Forall consistent d ->
  foldl diffToOperations_step (ops0, p) d
  = (ops0 ++ script_ops p (concat (map entry_script d)),
     (p + jslength (source_of (concat (map entry_script d))))%Z).
Proof.
  induction d as [| r d IH]; intros ops0 p Hall.
  - unfold source_of, jslength. simpl. by rewrite app_nil_r, Z.add_0_r.
  - apply Forall_cons in Hall as [Hr Hall].
    cbn [foldl map concat]. rewrite diffToOperations_step_script, IH by done.
    rewrite script_ops_app, source_of_app, jslength_app, <- app_assoc.
    f_equal. lia.
Qed.

Lemma entry_script_texts (d : list DiffResult) :
  source_of (concat (map entry_script d)) = old_text d
  /\ target_of (concat (map entry_script d)) = new_text d.
Proof.
  unfold old_text, new_text.
  induction d as [| r d [IHs IHt]]; [done |].
  cbn [map concat]. rewrite source_of_app, target_of_app, IHs, IHt.
  unfold entry_script, old_part, new_part, source_of, target_of.
  destruct (d_type r); simpl; by rewrite ?app_nil_r.
Qed.

(** Applying the operations of a script of lines rewrites its source into
    its target, in place. *)
Lemma apply_loop_lines (E : list CharDiff) :
  forall (out rest : jsstring) (p off : Z),
  (p + off)%Z = jslength out ->
  exists off',
    apply_loop (CStr (out ++ source_of E ++ rest), off) (script_ops p E)
    = Ok (CStr (out ++ target_of E ++ rest), off').
Proof.
  induction E as [| cd E IH]; intros out rest p off Hpos; simpl.
  - eexists. reflexivity.
  - unfold source_of, target_of. simpl.
    fold (source_of E). fold (target_of E).
    destruct (cd_type cd) eqn:Hty; simpl.
    + unfold apply_step. simpl. rewrite Hpos.
      rewrite slice_prefix, slice_from_suffix0. simpl.
      destruct (IH (out ++ char cd) rest p (off + jslength (char cd))%Z)
        as [off' Hoff'].
      { rewrite jslength_app. lia. }
      exists off'. unfold text_length, text_or_undefined. simpl.
      rewrite <- !app_assoc in Hoff'. rewrite <- !app_assoc. exact Hoff'.
    + unfold apply_step. simpl. rewrite Hpos.
      rewrite slice_prefix. unfold length_or_0. simpl.
      rewrite <- (app_assoc (char cd)), slice_from_suffix. simpl.
      destruct (IH out rest (p + jslength (char cd))%Z (off - jslength (char cd))%Z)
        as [off' Hoff']; [lia |].
      exists off'. exact Hoff'.
    + destruct (IH (out ++ char cd) rest (p + jslength (char cd))%Z off)
        as [off' Hoff'].
      { rewrite jslength_app. lia. }
      exists off'.
      rewrite <- !app_assoc in Hoff'. rewrite <- !app_assoc. exact Hoff'.
Qed.

(** X8. For a diff of lines of any length, with modified lines that carry
    their character diffs: the operations of [diffToOperations] are in
    nondecreasing position order, and [applyOperations] with them turns the
    old text of the diff into its new text. *)
Theorem diffToOperations_apply (d : list DiffResult) :
  Forall consistent d ->
  Sorted position_le (diffToOperations d)
  /\ applyOperations (CStr (old_text d)) (diffToOperations d) = Ok (CStr (new_text d)).
Proof.
  intros Hall.
  assert (Hops : diffToOperations d = script_ops 0 (concat (map entry_script d))).
  { unfold diffToOperations. by rewrite diffToOperations_lines. }
  rewrite Hops. split; [apply script_ops_sorted |].
  unfold applyOperations.
  rewrite sort_by_position_sorted by apply script_ops_sorted.
  destruct (apply_loop_lines (concat (map entry_script d)) [] [] 0 0) as [off' Hrun];
    [done |].
  destruct (entry_script_texts d) as [Hs Ht].
  simpl in Hrun. rewrite !app_nil_r, Hs, Ht in Hrun.
  by rewrite Hrun.
Qed.

(** A diff of three parts: "ab " is unchanged, "cd" is modified into "cx"
    and "zz" is added. *)
Lemma diffToOperations_apply_witness :
  applyOperations (CStr (js "ab cd"))
    (diffToOperations
       [mkDiffResult unchanged (js "ab ") None None;
        mkDiffResult modified []
          (Some [mkCharDiff (js "c") cd_unchanged; mkCharDiff (js "x") cd_added;
                 mkCharDiff (js "d") cd_removed])
          (Some (js "cd"));
        mkDiffResult added (js "zz") None None])
  = Ok (CStr (js "ab cxzz")).
Proof.
  refine (proj2 (diffToOperations_apply
            [mkDiffResult unchanged (js "ab ") None None;
             mkDiffResult modified []
               (Some [mkCharDiff (js "c") cd_unchanged; mkCharDiff (js "x") cd_added;
                      mkCharDiff (js "d") cd_removed])
               (Some (js "cd"));
             mkDiffResult added (js "zz") None None] _)).
  repeat apply Forall_cons_2; [| | | apply Forall_nil_2];
    intros E Hty HE; try discriminate.
  injection HE as <-. split; [repeat constructor | reflexivity].
Defined.

(** ** Histories built by [commit] *)

Lemma put_if_absent_content_addressed (d : gmap Hash GitObject) (o : GitObject) :
  content_addressed d -> content_addressed (put_if_absent d (hashObject o) o).
Proof.
  intros Hd k o' Hk. unfold put_if_absent in Hk.
  destruct (db_has d (hashObject o)); [by apply Hd |].
  apply lookup_insert_Some in Hk as [[<- <-] | [_ Hk]]; [done | by apply Hd].
Qed.

Lemma commit_content_addressed (vh : VersionHistory)
    (content message_ now_message now_timestamp : jsstring) :
  content_addressed (db vh) ->
  content_addressed (db (commit vh content message_ now_message now_timestamp).1).
Proof.
  intros Hd k o Hk. unfold commit, commit_object in Hk. cbn [fst db] in Hk.
  apply lookup_insert_Some in Hk as [[<- <-] | [_ Hk]]; [done |].
  revert k o Hk. fold (content_addressed
    (put_if_absent (put_if_absent (db vh) (hashObject (GBlob content)) (GBlob content))
       (hashObject (GTree (filename vh) (hashObject (GBlob content))))
       (GTree (filename vh) (hashObject (GBlob content))))).
  by do 2 apply put_if_absent_content_addressed.
Qed.

Lemma commit_head_is_commit (vh : VersionHistory)
    (content message_ now_message now_timestamp : jsstring) :
  head_is_commit (commit vh content message_ now_message now_timestamp).1.
Proof.
  intros h Hh. unfold commit, commit_object in *. cbn [fst HEAD db] in *.
  injection Hh as <-. rewrite lookup_insert_eq. split; [| eauto].
  unfold hashObject. apply sha1_hex_length.
Qed.

(** The same for a commit of any object of the store. *)
Lemma commit_object_content_addressed (vh : VersionHistory) (content : GitObject)
    (message_ now_message now_timestamp : jsstring) :
  content_addressed (db vh) ->
  content_addressed
    (db (commit_object vh content message_ now_message now_timestamp).1).
Proof.
  intros Hd k o Hk. unfold commit_object in Hk. cbn [fst db] in Hk.
  apply lookup_insert_Some in Hk as [[<- <-] | [_ Hk]]; [done |].
  revert k o Hk. fold (content_addressed
    (put_if_absent (put_if_absent (db vh) (hashObject content) content)
       (hashObject (GTree (filename vh) (hashObject content)))
       (GTree (filename vh) (hashObject content)))).
  by do 2 apply put_if_absent_content_addressed.
Qed.

Lemma commit_object_head (vh : VersionHistory) (content : GitObject)
    (message_ now_message now_timestamp : jsstring) :
  let r := commit_object vh content message_ now_message now_timestamp in
  getHeadHash r.1 = Some r.2
  /\ filename r.1 = filename vh
  /\ length r.2 = 40
  /\ exists c, db r.1 !! r.2 = Some (GCommit c) /\ parent c = HEAD vh.
Proof.
  unfold commit_object, getHeadHash. cbn [fst snd HEAD db filename].
  rewrite lookup_insert_eq. split_and!; [done | done | | by eexists].
  unfold hashObject. apply sha1_hex_length.
Qed.

Lemma commit_object_head_is_commit (vh : VersionHistory) (content : GitObject)
    (message_ now_message now_timestamp : jsstring) :
  head_is_commit (commit_object vh content message_ now_message now_timestamp).1.
Proof.
  intros h Hh.
  destruct (commit_object_head vh content message_ now_message now_timestamp)
    as (Hhead & _ & Hlen & c & Hc & _).
  unfold getHeadHash in Hhead. rewrite Hhead in Hh. injection Hh as <-.
  split; [done | eauto].
Qed.

Lemma commits_snoc (vh : VersionHistory) (calls : list CommitCall) (c : CommitCall) :
  commits vh (calls ++ [c]) = commit_call (commits vh calls) c.
Proof. unfold commits. by rewrite foldl_app. Qed.

(** X9. Whatever is committed to a new history, and in whatever order:
    every object of the store sits under the key computed from it, the file
    name is the one given at creation, [HEAD] is null exactly when nothing
    has been committed, and otherwise it is a digest of forty characters
    and the key of a commit object. *)
Theorem history_invariants (name : jsstring) (calls : list CommitCall) :
  content_addressed (db (commits (new_VersionHistory name) calls))
  /\ filename (commits (new_VersionHistory name) calls) = name
  /\ (HEAD (commits (new_VersionHistory name) calls) = None <-> calls = [])
  /\ head_is_commit (commits (new_VersionHistory name) calls).
Proof.
  induction calls as [| c calls (IHd & IHf & IHh & IHc)] using rev_ind.
  - split_and!; [by intros k o Hk | done | done | by intros h Hh].
  - rewrite commits_snoc. unfold commit_call. split_and!.
    + by apply commit_content_addressed.
    + exact IHf.
    + split; [done | intros H; by destruct calls].
    + apply commit_head_is_commit.
Qed.

(** ** A commit whose keys are clean *)

Lemma db_get_weaken (d d' : gmap Hash GitObject) (key : PropValue) (o : GitObject) :
  d ⊆ d' -> db_get d key = Some o -> db_get d' key = Some o.
Proof. intros Hsub. destruct key; try done. simpl. intros H. by eapply lookup_weaken. Qed.

(** A version that reads as an object keeps reading as that object when the
    store grows. *)
Lemma getContent_weaken (vh vh' : VersionHistory) (h : option Hash) (o : GitObject) :
  db vh ⊆ db vh' -> filename vh' = filename vh ->
  getContent vh h = CObject o -> getContent vh' h = CObject o.
Proof.
  intros Hsub Hfile. unfold getContent. destruct h as [[| x h] |]; try done.
  destruct (db vh !! (x :: h)) as [c |] eqn:Hc; [| done].
  rewrite (lookup_weaken _ _ _ _ Hc Hsub).
  destruct (falsy_object c); [done |].
  destruct (db_get (db vh) (get_property c (js "tree"))) as [t |] eqn:Ht; [| done].
  rewrite (db_get_weaken _ _ _ _ Hsub Ht).
  destruct (falsy_object t); [done |]. rewrite Hfile.
  destruct (falsy (get_property t (filename vh))); [done |].
  destruct (db_get (db vh) (get_property t (filename vh))) as [b |] eqn:Hb; [| done].
  by rewrite (db_get_weaken _ _ _ _ Hsub Hb).
Qed.

Lemma commit_subseteq (vh : VersionHistory)
    (content message_ now_message now_timestamp : jsstring) :
  clean_keys vh content (commit vh content message_ now_message now_timestamp).2 ->
  db vh ⊆ db (commit vh content message_ now_message now_timestamp).1.
Proof.
  intros (_ & _ & Hfree & _ & Hct & Hcb). unfold commit, commit_object in *. cbn [fst snd db] in *.
  etrans; [apply put_if_absent_subseteq |].
  etrans; [apply put_if_absent_subseteq |].
  apply insert_subseteq. by rewrite !put_if_absent_lookup_ne.
Qed.

(** X10. A commit whose keys are clean: the new head reads as the content
    committed, the invariants of the store survive, and every version that
    read as an object before reads as the same object after. *)
Theorem clean_commit (vh : VersionHistory)
    (content message_ now_message now_timestamp : jsstring) :
  clean_keys vh content (commit vh content message_ now_message now_timestamp).2 ->
  getCurrentContent (commit vh content message_ now_message now_timestamp).1
  = CStr content
  /\ (store_invariant vh ->
      store_invariant (commit vh content message_ now_message now_timestamp).1)
  /\ (forall h o, getContent vh h = CObject o ->
        getContent (commit vh content message_ now_message now_timestamp).1 h
        = CObject o).
Proof.
  intros Hclean. pose proof (commit_subseteq _ _ _ _ _ Hclean) as Hsub.
  destruct Hclean as (Hblob & Htree & Hfree & Htb & Hct & Hcb).
  split_and!.
  - unfold getCurrentContent.
    destruct (commit_head vh content message_ now_message now_timestamp)
      as (Hhead & _ & _).
    unfold getHeadHash in Hhead. rewrite Hhead.
    by apply commit_getContent.
  - intros Hinv. apply commit_preserves_invariant; try done.
    by rewrite !put_if_absent_lookup_ne.
  - intros h o. by apply getContent_weaken.
Qed.

(** After the commit of "x" to a history with the default file name, the
    keys of a commit of "xy" are clean. *)
Lemma clean_commit_witness :
  getCurrentContent (commit note_x.1 (js "xy") (js "second") t0 t2).1 = CStr (js "xy")
  /\ getContent (commit note_x.1 (js "xy") (js "second") t0 t2).1 (Some note_x.2)
     = CStr (js "x").
Proof.
  destruct (clean_commit note_x.1 (js "xy") (js "second") t0 t2)
    as (Hhead & _ & Hold).
  - unfold clean_keys, free_or_same.
    split_and!; [left | left | ..]; compute_done.
  - split; [exact Hhead |]. apply Hold. compute_done.
Defined.

(** ** The sync handler: fast-forward and merge *)

Lemma applyOperations_string (content : jsstring) (operations : list Operation) :
  exists r, applyOperations (CStr content) operations = Ok (CStr r).
Proof.
  unfold applyOperations.
  destruct (apply_loop_string (sort_by_position operations) content 0)
    as (r & off' & ->).
  simpl. eauto.
Qed.

Lemma operationalTransform_try_strings (base client server : jsstring) :
  exists merged,
    operationalTransform_try (CStr base) (CStr client) (CStr server) diff
    = Ok (CStr merged).
Proof.
  unfold operationalTransform_try, transformedClientOps.
  destruct (diff_strings base server) as [sd ->].
  destruct (diff_strings base client) as [cd ->].
  simpl. apply applyOperations_string.
Qed.

Lemma fast_forward_path (st st1 : Server) (ws : Ws) (client_ops : list Operation)
    (now_init now : jsstring) (vh : VersionHistory) (base client : jsstring) :
  getHistoryForNote st (noteId ws) now_init = (st1, vh) ->
  getCurrentContent vh = CStr base ->
  applyOperations (CStr base) client_ops = Ok (CStr client) ->
  websocket_message st ws (Sync (HEAD vh) client_ops) now_init now
  = Some (Returned
            (set_history st1 (noteId ws)
               (commit vh client (js "Update from client") now now).1)
            ((ws, MsgAck (commit vh client (js "Update from client") now now).2)
             :: send_to_others st1 ws
                  (MsgUpdate (commit vh client (js "Update from client") now now).2
                     client_ops))).
Proof.
  intros Hroom Hbase Hclient. unfold websocket_message. rewrite Hroom.
  unfold getCurrentContent in *. rewrite Hbase.
  unfold strict_eq. rewrite bool_decide_eq_false_2 by done.
  unfold getHeadHash. rewrite bool_decide_eq_true_2 by done.
  rewrite Hclient. unfold commit.
  by destruct (commit_object vh (GBlob client) _ now now) as [vh' h'].
Qed.

(** The loop that sends an update goes through the set of the note as it
    was when the handler began. *)
Lemma send_to_others_before (st st1 : Server) (ws : Ws) (now : jsstring)
    (vh : VersionHistory) (m : ServerMsg) :
  getHistoryForNote st (noteId ws) now = (st1, vh) ->
  send_to_others st1 ws m
  = map (fun other => (other, m))
        (filter (fun other => other <> ws)
                (default [] (noteConnections st !! noteId ws))).
Proof.
  intros Hroom.
  destruct (getHistoryForNote_lookup _ _ _ _ _ Hroom) as (_ & Hconn & _).
  unfold send_to_others. by rewrite Hconn.
Qed.

(** X11. Fast-forward. A sync whose base is the head, when the head reads
    as a string: [applyOperations] returns a string, which is committed with
    the message "Update from client"; the new commit is the head of the
    history of the note; the handler sends the [ack] with its hash to the
    sender, and then, to every other socket in the set of the note, in the
    order of the set, one update with that hash and the operations of the
    client as they came; it sends nothing else. *)
Theorem fast_forward (st st1 : Server) (ws : Ws) (client_ops : list Operation)
    (now_init now : jsstring) (vh : VersionHistory) (base : jsstring) :
  getHistoryForNote st (noteId ws) now_init = (st1, vh) ->
  getCurrentContent vh = CStr base ->
  exists client : jsstring,
    applyOperations (CStr base) client_ops = Ok (CStr client)
    /\ websocket_message st ws (Sync (HEAD vh) client_ops) now_init now
       = Some (Returned
                 (set_history st1 (noteId ws)
                    (commit vh client (js "Update from client") now now).1)
                 ((ws, MsgAck (commit vh client (js "Update from client") now now).2)
                  :: map (fun other =>
                            (other,
                             MsgUpdate
                               (commit vh client (js "Update from client") now now).2
                               client_ops))
                         (filter (fun other => other <> ws)
                                 (default [] (noteConnections st !! noteId ws)))))
    /\ getHeadHash (commit vh client (js "Update from client") now now).1
       = Some (commit vh client (js "Update from client") now now).2.
Proof.
  intros Hroom Hbase.
  destruct (applyOperations_string base client_ops) as [client Hclient].
  exists client. split_and!; [done | | apply commit_head].
  rewrite <- (send_to_others_before st st1 ws now_init vh _ Hroom).
  by eapply fast_forward_path.
Qed.

(** Scenario 1 of the specification: the content is "ab", Alice inserts
    "X" at 1, and Bob is the other socket of the note. *)
Lemma fast_forward_witness :
  filter (fun other => other <> alice)
         (default [] (noteConnections with_ab !! noteId alice)) = [bob]
  /\ exists client : jsstring,
       applyOperations (CStr (js "ab")) [Insert (js "X") 1] = Ok (CStr client)
       /\ websocket_message with_ab alice (Sync (head with_ab) [Insert (js "X") 1])
            t0 t2
          = Some (Returned
                    (set_history with_ab room
                       (commit (history with_ab) client
                          (js "Update from client") t2 t2).1)
                    ((alice,
                      MsgAck (commit (history with_ab) client
                                (js "Update from client") t2 t2).2)
                     :: map (fun other =>
                               (other,
                                MsgUpdate
                                  (commit (history with_ab) client
                                     (js "Update from client") t2 t2).2
                                  [Insert (js "X") 1]))
                            (filter (fun other => other <> alice)
                                    (default []
                                       (noteConnections with_ab !! noteId alice))))).
Proof.
  split; [compute_done |].
  destruct (fast_forward with_ab with_ab alice [Insert (js "X") 1] t0 t2
              (history with_ab) (js "ab"))
    as (client & Hclient & Hrun & _).
  - compute_done.
  - compute_done.
  - exists client. split; [exact Hclient | exact Hrun].
Defined.

Lemma script_ops_length (E : list CharDiff) (p : Z) :
  length (script_ops p E) = length E.
Proof.
  revert p. induction E as [| cd E IH]; intros p; simpl; [done |].
  destruct (cd_type cd); simpl; by rewrite IH.
Qed.

(** The operations of the diff of two strings are empty exactly when the
    strings are equal. *)
Lemma diff_operations_empty (a b : jsstring) (d : list DiffResult) :
  diff (CStr a) (CStr b) = Ok d ->
  (0 <? length (diffToOperations d)) = bool_decide (a <> b).
Proof.
  intros Hd. destruct (decide (a = b)) as [-> | Hne].
  - rewrite diff_same in Hd. injection Hd as <-.
    by rewrite bool_decide_eq_false_2 by (intros H; by apply H).
  - destruct (diff_script a b Hne) as (E & HE & Hs & Ht & _).
    rewrite HE in Hd. injection Hd as <-.
    rewrite diffToOperations_script, script_ops_length.
    rewrite bool_decide_eq_true_2 by done.
    destruct E; [| done]. by subst.
Qed.

(** X12. Merge. A sync whose base reads as a string and is not the head,
    when the head reads as a string: the handler returns; a merged string is
    committed with the message "Merged update from client"; the handler
    sends the [ack] with its hash to the sender.  If the merged string is
    the server content, it sends nothing else.  Otherwise it then sends, to
    every other socket in the set of the note, in the order of the set, one
    update with that hash and with operations that turn the server content
    into the merged string, and nothing else. *)
Theorem merge_converges (st st1 : Server) (ws : Ws) (base_hash : option Hash)
    (client_ops : list Operation) (now_init now : jsstring) (vh : VersionHistory)
    (base server : jsstring) :
  getHistoryForNote st (noteId ws) now_init = (st1, vh) ->
  getContent vh base_hash = CStr base ->
  getCurrentContent vh = CStr server ->
  base_hash <> HEAD vh ->
  exists (merged : jsstring) (update_ops : list Operation),
    websocket_message st ws (Sync base_hash client_ops) now_init now
    = Some (Returned
              (set_history st1 (noteId ws)
                 (commit vh merged (js "Merged update from client") now now).1)
              ((ws, MsgAck (commit vh merged (js "Merged update from client") now now).2)
               :: if bool_decide (server <> merged)
                  then map (fun other =>
                              (other,
                               MsgUpdate
                                 (commit vh merged (js "Merged update from client")
                                    now now).2
                                 update_ops))
                           (filter (fun other => other <> ws)
                                   (default [] (noteConnections st !! noteId ws)))
                  else []))
    /\ applyOperations (CStr server) update_ops = Ok (CStr merged).
Proof.
  intros Hroom Hbase Hserver Hne.
  destruct (applyOperations_string base client_ops) as [client Hclient].
  destruct (operationalTransform_try_strings base client server) as [merged Hmerge].
  destruct (diff_then_apply server merged) as (d & Hd & Happly).
  exists merged, (diffToOperations d). split; [| done].
  rewrite (merge_path_strings st st1 ws base_hash client_ops now_init now vh
             base server client merged d) by done.
  rewrite (diff_operations_empty _ _ _ Hd).
  by rewrite (send_to_others_before st st1 ws now_init vh _ Hroom).
Qed.

(** Scenario 3 of the specification: Bob's insert of "Y" at 1 in "ab"
    arrives when the content is "aXb", and Alice is the other socket of the
    note. *)
Lemma merge_converges_witness :
  filter (fun other => other <> bob)
         (default [] (noteConnections with_aXb !! noteId bob)) = [alice]
  /\ exists (merged : jsstring) (update_ops : list Operation),
       websocket_message with_aXb bob (Sync (head with_ab) [Insert (js "Y") 1]) t0 t3
       = Some (Returned
                 (set_history with_aXb room
                    (commit (history with_aXb) merged
                       (js "Merged update from client") t3 t3).1)
                 ((bob, MsgAck (commit (history with_aXb) merged
                                  (js "Merged update from client") t3 t3).2)
                  :: if bool_decide (js "aXb" <> merged)
                     then map (fun other =>
                                 (other,
                                  MsgUpdate
                                    (commit (history with_aXb) merged
                                       (js "Merged update from client") t3 t3).2
                                    update_ops))
                              (filter (fun other => other <> bob)
                                      (default []
                                         (noteConnections with_aXb !! noteId bob)))
                     else []))
       /\ applyOperations (CStr (js "aXb")) update_ops = Ok (CStr merged).
Proof.
  split; [compute_done |].
  apply (merge_converges with_aXb with_aXb bob (head with_ab) [Insert (js "Y") 1]
           t0 t3 (history with_aXb) (js "ab") (js "aXb")).
  - compute_done.
  - compute_done.
  - compute_done.
  - compute_done.
Defined.

(** ** The sync handler: what it leaves alone *)

Lemma getHistoryForNote_other (st st1 : Server) (note now : jsstring)
    (vh : VersionHistory) (n : jsstring) :
  getHistoryForNote st note now = (st1, vh) -> n <> note ->
  noteHistories st1 !! n = noteHistories st !! n.
Proof.
  unfold getHistoryForNote. destruct (noteHistories st !! note).
  - by intros [= <- <-].
  - intros [= <- <-] Hne. simpl. by rewrite lookup_insert_ne.
Qed.

Lemma send_to_others_frames (st : Server) (ws : Ws) (m : ServerMsg) :
  is_update m ->
  Forall (fun cm => cm.1 <> ws /\ cm.1 ∈ connections_of st (noteId ws)
                    /\ is_update cm.2)
         (send_to_others st ws m).
Proof.
  intros Hm. unfold send_to_others. apply Forall_fmap, Forall_forall.
  by intros c [Hne Hin]%list_elem_of_filter.
Qed.

(** [applyOperations] returns [null] only for a content that is [null]. *)
Lemma apply_loop_not_null (ops : list Operation) (c c' : Content) (off off' : Z) :
  apply_loop (c, off) ops = Ok (c', off') -> c <> CNull -> c' <> CNull.
Proof.
  revert c off. induction ops as [| op ops IH]; intros c off; cbn [apply_loop].
  - by intros [= <- <-].
  - destruct (apply_step (c, off) op) as [[c1 off1] | e] eqn:Hstep; [| done].
    cbn [mbind Result_bind]. intros Hrest Hc. apply (IH _ _ Hrest).
    unfold apply_step in Hstep. destruct (op_type op).
    + by injection Hstep as <- <-.
    + destruct (slice_of c 0 (position op + off)); [| done].
      destruct (slice_from_of c (position op + off)); [| done].
      by injection Hstep as <- <-.
    + destruct (slice_of c 0 (position op + off)); [| done].
      destruct (slice_from_of c (position op + off + length_or_0 op)); [| done].
      by injection Hstep as <- <-.
Qed.

Lemma applyOperations_not_null (c c' : Content) (ops : list Operation) :
  applyOperations c ops = Ok c' -> c <> CNull -> c' <> CNull.
Proof.
  unfold applyOperations.
  destruct (apply_loop (c, 0%Z) (sort_by_position ops)) as [[c1 off1] | e] eqn:Hloop;
    [| done].
  intros [= <-]. by eapply apply_loop_not_null.
Qed.

(** [diff] raises on a second text that is [null], unless the first is
    [null] too. *)
Lemma diff_null_r (c : Content) (d : list DiffResult) :
  diff c CNull = Ok d -> c = CNull.
Proof.
  unfold diff, strict_eq. case_bool_decide as Heq; [done |].
  unfold generateCharacterDiff. by destruct c as [| | [s | f b | k]].
Qed.

(** The merged content is [null] only for a base content that is [null]. *)
Lemma operationalTransform_try_not_null (base client server merged : Content) :
  operationalTransform_try base client server diff = Ok merged ->
  base <> CNull -> merged <> CNull.
Proof.
  unfold operationalTransform_try, transformedClientOps.
  destruct (diff base server) as [sd | e] eqn:Hs; [| done].
  destruct (diff base client) as [cd | e]; [| done].
  cbn [mbind Result_bind]. intros Hm Hbase.
  eapply applyOperations_not_null; [exact Hm |].
  intros ->. by apply diff_null_r in Hs.
Qed.

(** The ways in which the message handler ends.  It always ends: it
    returns at once on a frame that is not a sync; it returns after one
    frame to the sender that is neither an [ack] nor an update; an
    exception leaves it before anything is committed or sent; or it commits
    an object, sends the [ack] with the hash of the commit, and then no
    update or one update to the others, with that hash. *)
Lemma websocket_message_cases (st st1 : Server) (ws : Ws) (msg : ClientMsg)
    (now_init now : jsstring) (vh : VersionHistory) :
  getHistoryForNote st (noteId ws) now_init = (st1, vh) ->
  exists o,
    websocket_message st ws msg now_init now = Some o
    /\ (o = Returned st []
        \/ (exists m, o = Returned st1 [(ws, m)]
                      /\ (forall h, m <> MsgAck h) /\ ~ is_update m)
        \/ (exists e, o = Uncaught e st1 [])
        \/ exists (content : GitObject) (message_ : jsstring) (updates : Sent),
             let r := commit_object vh content message_ now now in
             state_of o = set_history st1 (noteId ws) r.1
             /\ sent_of o = (ws, MsgAck r.2) :: updates
             /\ (updates = []
                 \/ exists ops,
                      updates = send_to_others st1 ws (MsgUpdate r.2 ops))).
Proof.
  intros Hroom. destruct msg as [base_hash client_ops | ty].
  2:{ eexists. split; [reflexivity | by left]. }
  unfold websocket_message. rewrite Hroom. unfold strict_eq.
  case_bool_decide as Hnull.
  { eexists. split; [reflexivity |]. right; left. eexists.
    split_and!; [reflexivity | done | by intros []]. }
  destruct (applyOperations (getContent vh base_hash) client_ops)
    as [client | e] eqn:Hclient.
  2:{ case_bool_decide; (eexists; split; [reflexivity |]); right; right; left; eauto. }
  pose proof (applyOperations_not_null _ _ _ Hclient Hnull) as Hclient_not_null.
  case_bool_decide as Hhead.
  - destruct client as [| | data]; [done | |].
    { eexists. split; [reflexivity |]. right; right; left; eauto. }
    destruct (commit_object vh data (js "Update from client") now now)
      as [vh' h'] eqn:Hcommit.
    eexists. split; [reflexivity |]. do 3 right.
    exists data, (js "Update from client"), (send_to_others st1 ws (MsgUpdate h' client_ops)).
    rewrite Hcommit. cbn [state_of sent_of fst snd].
    split_and!; [done | done | right; eauto].
  - unfold operationalTransform.
    destruct (operationalTransform_try (getContent vh base_hash) client
                (getCurrentContent vh) diff) as [merged | e] eqn:Hmerge;
      cbn [success negb mergedContent error from_option id].
    2:{ eexists. split; [reflexivity |]. right; left. eexists.
        split_and!; [reflexivity | done | by intros []]. }
    pose proof (operationalTransform_try_not_null _ _ _ _ Hmerge Hnull) as Hmerged.
    destruct merged as [| | data]; [done | |].
    { eexists. split; [reflexivity |]. right; right; left; eauto. }
    destruct (commit_object vh data (js "Merged update from client") now now)
      as [vh' h'] eqn:Hcommit.
    destruct (diff (getCurrentContent vh) (CObject data)) as [d | e].
    + destruct (0 <? length (diffToOperations d)) eqn:Hlen;
        (eexists; split; [reflexivity |]); do 3 right.
      * exists data, (js "Merged update from client"),
          (send_to_others st1 ws (MsgUpdate h' (diffToOperations d))).
        rewrite Hcommit. cbn [state_of sent_of fst snd].
        split_and!; [done | done | right; eauto].
      * exists data, (js "Merged update from client"), [].
        rewrite Hcommit. cbn [state_of sent_of fst snd]. auto.
    + eexists. split; [reflexivity |]. do 3 right.
      exists data, (js "Merged update from client"), [].
      rewrite Hcommit. cbn [state_of sent_of fst snd]. auto.
Qed.

(** X13. Whatever the frame and the state, the message handler ends, and
    it leaves the sets of sockets and the histories of the other notes as
    they were.  It sends nothing, or it sends first one frame to the
    sender, which is not an update, and then only updates, to sockets of
    the note of the sender other than the sender. *)
Theorem sync_isolation (st : Server) (ws : Ws) (msg : ClientMsg)
    (now_init now : jsstring) :
  exists o : Outcome,
    websocket_message st ws msg now_init now = Some o
    /\ noteConnections (state_of o) = noteConnections st
    /\ (forall n, n <> noteId ws ->
          noteHistories (state_of o) !! n = noteHistories st !! n)
    /\ (sent_of o = []
        \/ exists m rest,
             sent_of o = (ws, m) :: rest /\ ~ is_update m
             /\ Forall (fun cm => cm.1 <> ws
                                  /\ cm.1 ∈ connections_of st (noteId ws)
                                  /\ is_update cm.2) rest).
Proof.
  destruct (getHistoryForNote st (noteId ws) now_init) as [st1 vh] eqn:Hroom.
  destruct (getHistoryForNote_lookup _ _ _ _ _ Hroom) as (_ & Hconn & _).
  pose proof (fun n => getHistoryForNote_other _ _ _ _ _ n Hroom) as Hother.
  destruct (websocket_message_cases st st1 ws msg now_init now vh Hroom)
    as (o & Ho & Hcases).
  exists o. split; [exact Ho |].
  destruct Hcases
    as [-> | [(m & -> & _ & Hm) | [(e & ->)
        | (content & message_ & updates & Hst & Hsent & Hupd)]]];
    cbn [state_of sent_of].
  - auto.
  - split_and!; [done | done |]. right. exists m, []. by split_and!.
  - split_and!; [done | done | by left].
  - rewrite Hst, Hsent. cbn [set_history noteConnections noteHistories].
    split_and!; [done | intros n Hn; rewrite lookup_insert_ne by done; by apply Hother |].
    right. eexists _, _. split_and!; [reflexivity | by intros [] |].
    destruct Hupd as [-> | (ops & ->)]; [constructor |].
    pose proof (send_to_others_frames st1 ws
                  (MsgUpdate (commit_object vh content message_ now now).2 ops) I)
      as Hframes.
    unfold connections_of in *. by rewrite Hconn in Hframes.
Qed.

(** Alice syncs at a head that reads as a tree object, with no operation:
    the handler commits the object, acknowledges and broadcasts. *)
Lemma commit_of_tree_object :
  getCurrentContent (history with_tree_text)
  = CObject (GTree room (hashObject (GBlob (js "x"))))
  /\ websocket_message with_tree_text alice (Sync (head with_tree_text) []) t0 t3
     = Some (Returned with_tree_object
               [(alice, MsgAck (default [] (head with_tree_object)));
                (bob, MsgUpdate (default [] (head with_tree_object)) [])])
  /\ is_Some (head with_tree_object)
  /\ head with_tree_object <> head with_tree_text.
Proof. split_and!; compute_done. Qed.

Lemma sync_isolation_witness :
  exists o : Outcome,
    websocket_message with_tree_text alice (Sync (head with_tree_text) []) t0 t3
    = Some o
    /\ noteConnections (state_of o) = noteConnections with_tree_text.
Proof.
  destruct (sync_isolation with_tree_text alice (Sync (head with_tree_text) []) t0 t3)
    as (o & Ho & Hconn & _).
  exists o. split; [exact Ho | exact Hconn].
Defined.

(** ** Sockets: [open] and [close] *)

Lemma filter_all {A} (P : A -> Prop) `{!forall x, Decision (P x)} (l : list A) :
  Forall P l -> filter P l = l.
Proof.
  induction 1 as [| x l Hx _ IH]; [done |].
  by rewrite filter_cons_True, IH.
Qed.

Lemma connections_of_Some (st : Server) (n : jsstring) (ws : Ws) :
  ws ∈ connections_of st n ->
  noteConnections st !! n = Some (connections_of st n).
Proof.
  unfold connections_of. destruct (noteConnections st !! n); [done |].
  by intros ?%elem_of_nil.
Qed.

Lemma websocket_open_connections_ok (st : Server) (ws : Ws) :
  connections_ok st -> connections_ok (websocket_open st ws).1.
Proof.
  intros Hok n l. unfold websocket_open. cbn [fst noteConnections].
  fold (connections_of st (noteId ws)).
  intros [[<- <-] | [_ Hl]]%lookup_insert_Some; [| by apply Hok].
  case_bool_decide as Hin.
  - apply Hok. by apply connections_of_Some in Hin.
  - split_and!.
    + by destruct (connections_of st (noteId ws)).
    + apply NoDup_app. split_and!.
      * unfold connections_of. destruct (noteConnections st !! noteId ws) as [l |] eqn:Hl;
          [by apply (Hok _ _ Hl) | constructor].
      * intros x Hx ->%list_elem_of_singleton. done.
      * apply NoDup_singleton.
    + apply Forall_app. split; [| by repeat constructor].
      unfold connections_of. destruct (noteConnections st !! noteId ws) as [l |] eqn:Hl;
        [by apply (Hok _ _ Hl) | constructor].
Qed.

Lemma websocket_close_connections_ok (st : Server) (ws : Ws) :
  connections_ok st -> connections_ok (websocket_close st ws).1.
Proof.
  intros Hok n l. unfold websocket_close.
  destruct (noteConnections st !! noteId ws) as [connections |] eqn:Hc;
    [| by apply Hok].
  destruct (Hok _ _ Hc) as (_ & Hnodup & Hall).
  destruct (length (filter (fun client => client <> ws) connections) =? 0) eqn:Hlen;
    cbn [fst noteConnections].
  - intros [_ Hl]%lookup_delete_Some. by apply Hok.
  - intros [[<- <-] | [_ Hl]]%lookup_insert_Some; [| by apply Hok].
    apply Nat.eqb_neq in Hlen. split_and!.
    + intros Hnil. by rewrite Hnil in Hlen.
    + by apply NoDup_filter.
    + apply Forall_forall. intros x [_ Hx]%list_elem_of_filter.
      rewrite Forall_forall in Hall. by apply Hall.
Qed.

(** X14. Opening a socket twice is opening it once.  In a state whose sets
    of sockets are sets and not empty, closing a socket that has just been
    opened, and was not open before, gives the state back; the count sent at
    the close goes to the sockets that were there, and is their number. *)
Theorem open_then_close :
  (forall (st : Server) (ws : Ws),
     websocket_open (websocket_open st ws).1 ws = websocket_open st ws)
  /\ (forall (st : Server) (ws : Ws),
        connections_ok st ->
        ws ∉ connections_of st (noteId ws) ->
        websocket_close (websocket_open st ws).1 ws
        = (st, map (fun client =>
                      (client, MsgUserCount (length (connections_of st (noteId ws)))))
                   (connections_of st (noteId ws)))).
Proof.
  split.
  - intros st ws. unfold websocket_open. cbn [fst noteConnections noteHistories].
    rewrite lookup_insert_eq. cbn [default].
    assert (Hin : ws ∈ (if bool_decide (ws ∈ default [] (noteConnections st !! noteId ws))
                        then default [] (noteConnections st !! noteId ws)
                        else default [] (noteConnections st !! noteId ws) ++ [ws])).
    { case_bool_decide; [done |]. apply elem_of_app. right. by left. }
    rewrite (bool_decide_eq_true_2 _ Hin). by rewrite insert_insert_eq.
  - intros st ws Hok Hin. unfold websocket_open, websocket_close.
    cbn [fst noteConnections noteHistories].
    fold (connections_of st (noteId ws)).
    rewrite bool_decide_eq_false_2 by done.
    rewrite lookup_insert_eq, filter_app.
    rewrite filter_all by (apply Forall_forall; by intros x Hx ->).
    rewrite filter_cons_False by (by intros H; apply H).
    rewrite filter_nil, app_nil_r, insert_insert_eq.
    unfold broadcastUserCount. cbn [noteConnections]. rewrite lookup_insert_eq.
    destruct st as [histories conns]. cbn [noteConnections noteHistories] in *.
    unfold connections_of in *. cbn [noteConnections] in *.
    destruct (conns !! noteId ws) as [l |] eqn:Hl; cbn [default] in *; unfold id in *.
    + destruct (Hok _ _ Hl) as (Hne & _ & _).
      destruct l as [| x l]; [done |]. cbn [length Nat.eqb].
      by rewrite insert_id.
    + cbn [length Nat.eqb]. by rewrite delete_insert_id.
Qed.

(** Bob connects to a server on which Alice is connected, and leaves. *)
Lemma open_then_close_witness :
  websocket_close (websocket_open (websocket_open (mkServer ∅ ∅) alice).1 bob).1 bob
  = ((websocket_open (mkServer ∅ ∅) alice).1, [(alice, MsgUserCount 1)]).
Proof.
  refine (proj2 open_then_close (websocket_open (mkServer ∅ ∅) alice).1 bob _ _).
  - apply websocket_open_connections_ok. by intros n l H.
  - compute_done.
Defined.

(** ** [GET /api/note/<noteId>] *)

(** X15. A second [GET] of a note answers as the first and leaves the
    state as the first left it, whatever the clock; a [GET] never touches the
    sockets, and does not change the state at all when the note has a
    history. *)
Theorem fetch_note_idempotent (st : Server) (noteId : jsstring) (now now' : jsstring) :
  fetch_note (fetch_note st noteId now).1 noteId now' = fetch_note st noteId now
  /\ noteConnections (fetch_note st noteId now).1 = noteConnections st
  /\ (is_Some (noteHistories st !! noteId) -> (fetch_note st noteId now).1 = st).
Proof.
  unfold fetch_note.
  destruct (getHistoryForNote st noteId now) as [st1 vh] eqn:Hroom.
  destruct (getHistoryForNote_lookup _ _ _ _ _ Hroom) as (Hlook & Hconn & Hsame).
  cbn [fst]. split_and!; [| done | done].
  unfold getHistoryForNote. by rewrite Hlook.
Qed.

(** X16. Load, then sync. When [GET] has returned a string as the content
    of the note, a sync of the same socket that carries the hash returned
    takes the fast-forward path on the history of the note: the
    operations of the client are applied to the loaded content, the string
    that results is committed to that history with the message
    "Update from client", the [ack] names the new head, whose parent is the
    hash returned, and every other socket of the note gets one update with
    the new hash and the operations. *)
Theorem load_then_sync (st : Server) (ws : Ws) (now0 now_init now : jsstring)
    (loaded : jsstring) (client_ops : list Operation) :
  latest_content (fetch_note st (noteId ws) now0).2 = CStr loaded ->
  exists (client : jsstring) (vh : VersionHistory),
    noteHistories (fetch_note st (noteId ws) now0).1 !! noteId ws = Some vh
    /\ getHeadHash vh = latest_hash (fetch_note st (noteId ws) now0).2
    /\ getCurrentContent vh = CStr loaded
    /\ applyOperations (CStr loaded) client_ops = Ok (CStr client)
    /\ websocket_message (fetch_note st (noteId ws) now0).1 ws
         (Sync (latest_hash (fetch_note st (noteId ws) now0).2) client_ops)
         now_init now
       = Some (Returned
                 (set_history (fetch_note st (noteId ws) now0).1 (noteId ws)
                    (commit vh client (js "Update from client") now now).1)
                 ((ws, MsgAck (commit vh client (js "Update from client") now now).2)
                  :: map (fun other =>
                            (other,
                             MsgUpdate
                               (commit vh client (js "Update from client") now now).2
                               client_ops))
                         (filter (fun other => other <> ws)
                                 (default [] (noteConnections st !! noteId ws)))))
    /\ getHeadHash (commit vh client (js "Update from client") now now).1
       = Some (commit vh client (js "Update from client") now now).2
    /\ exists c,
         db (commit vh client (js "Update from client") now now).1
           !! (commit vh client (js "Update from client") now now).2
         = Some (GCommit c)
         /\ parent c = latest_hash (fetch_note st (noteId ws) now0).2.
Proof.
  unfold fetch_note.
  destruct (getHistoryForNote st (noteId ws) now0) as [st1 vh] eqn:Hroom.
  destruct (getHistoryForNote_lookup _ _ _ _ _ Hroom) as (Hlook & Hconn & _).
  cbn [fst snd latest_content latest_hash]. intros Hloaded.
  assert (Hroom1 : getHistoryForNote st1 (noteId ws) now_init = (st1, vh)).
  { unfold getHistoryForNote. by rewrite Hlook. }
  destruct (applyOperations_string loaded client_ops) as [client Hclient].
  exists client, vh.
  split_and!; [done | done | done | done | | apply commit_head |].
  - rewrite <- Hconn.
    rewrite <- (send_to_others_before st1 st1 ws now_init vh _ Hroom1).
    by eapply fast_forward_path.
  - by destruct (commit_head vh client (js "Update from client") now now)
      as (_ & Hc & _).
Qed.

(** Bob loads the note that reads "ab" and inserts "!" at its end; Alice is
    the other socket of the note. *)
Lemma load_then_sync_witness :
  filter (fun other => other <> bob)
         (default [] (noteConnections with_ab !! noteId bob)) = [alice]
  /\ exists (client : jsstring) (vh : VersionHistory),
       noteHistories (fetch_note with_ab (noteId bob) t1).1 !! noteId bob = Some vh
       /\ applyOperations (CStr (js "ab")) [Insert (js "!") 2] = Ok (CStr client)
       /\ websocket_message (fetch_note with_ab (noteId bob) t1).1 bob
            (Sync (latest_hash (fetch_note with_ab (noteId bob) t1).2)
               [Insert (js "!") 2])
            t2 t3
          = Some (Returned
                    (set_history (fetch_note with_ab (noteId bob) t1).1 (noteId bob)
                       (commit vh client (js "Update from client") t3 t3).1)
                    ((bob, MsgAck (commit vh client (js "Update from client") t3 t3).2)
                     :: map (fun other =>
                               (other,
                                MsgUpdate
                                  (commit vh client (js "Update from client") t3 t3).2
                                  [Insert (js "!") 2]))
                            (filter (fun other => other <> bob)
                                    (default []
                                       (noteConnections with_ab !! noteId bob))))).
Proof.
  split; [compute_done |].
  destruct (load_then_sync with_ab bob t1 t2 t3 (js "ab") [Insert (js "!") 2])
    as (client & vh & Hvh & _ & _ & Hclient & Hrun & _).
  - compute_done.
  - exists client, vh. split_and!; [exact Hvh | exact Hclient | exact Hrun].
Defined.

(** ** Every state of the server *)

Lemma websocket_message_state (st st1 : Server) (ws : Ws) (msg : ClientMsg)
    (now_init now : jsstring) (o : Outcome) (vh : VersionHistory) :
  websocket_message st ws msg now_init now = Some o ->
  getHistoryForNote st (noteId ws) now_init = (st1, vh) ->
  state_of o = st \/ state_of o = st1
  \/ exists content message_,
       state_of o
       = set_history st1 (noteId ws) (commit_object vh content message_ now now).1.
Proof.
  intros H Hroom. destruct msg as [base_hash client_ops | ty].
  2:{ injection H as <-. by left. }
  unfold websocket_message in H. rewrite Hroom in H.
  repeat case_match; simplify_eq; cbn [state_of]; auto;
    right; right; eexists _, _;
    match goal with Hc : commit_object _ _ _ _ _ = _ |- _ => by rewrite Hc end.
Qed.

Lemma new_history_ok (n now : jsstring) (message_ : jsstring) :
  let vh := (commit (new_VersionHistory n) [] message_ now now).1 in
  filename vh = n /\ is_Some (HEAD vh) /\ head_is_commit vh
  /\ content_addressed (db vh).
Proof.
  split_and!; [done | by eexists | apply commit_head_is_commit |].
  apply commit_content_addressed. by intros k o Hk.
Qed.

Lemma getHistoryForNote_ok (st st1 : Server) (n now : jsstring) (vh : VersionHistory) :
  histories_ok st -> getHistoryForNote st n now = (st1, vh) -> histories_ok st1.
Proof.
  intros Hok. unfold getHistoryForNote.
  destruct (noteHistories st !! n) eqn:Hn; intros H; injection H as <- <-;
    [exact Hok |].
  intros n' vh'. cbn [noteHistories].
  intros [[<- <-] | [_ H]]%lookup_insert_Some; [| by apply Hok].
  exact (new_history_ok n now (js "Initial empty commit")).
Qed.

Lemma set_history_ok (st1 : Server) (n : jsstring) (vh : VersionHistory)
    (content : GitObject) (message_ now_message now_timestamp : jsstring) :
  histories_ok st1 -> noteHistories st1 !! n = Some vh ->
  histories_ok (set_history st1 n
                  (commit_object vh content message_ now_message now_timestamp).1).
Proof.
  intros Hok Hvh n' vh'. unfold set_history. cbn [noteHistories].
  intros [[<- <-] | [_ H]]%lookup_insert_Some; [| by apply Hok].
  destruct (Hok _ _ Hvh) as (Hfile & _ & _ & Hdb).
  split_and!; [done | by eexists | apply commit_object_head_is_commit |].
  by apply commit_object_content_addressed.
Qed.

Lemma server_step_ok (st st' : Server) (ev : Event) :
  server_ok st -> server_step st ev = Some st' -> server_ok st'.
Proof.
  intros [Hconn Hhist]. destruct ev as [ws | ws | ws msg now_init now | n now];
    cbn [server_step].
  - intros [= <-]. split; [by apply websocket_open_connections_ok | done].
  - intros [= <-]. split; [by apply websocket_close_connections_ok |].
    unfold websocket_close. by repeat case_match.
  - destruct (websocket_message st ws msg now_init now) as [o |] eqn:Hmsg;
      [| done].
    intros [= <-].
    destruct (getHistoryForNote st (noteId ws) now_init) as [st1 vh] eqn:Hroom.
    destruct (getHistoryForNote_lookup _ _ _ _ _ Hroom) as (Hlook & Hc & _).
    pose proof (getHistoryForNote_ok _ _ _ _ _ Hhist Hroom) as Hhist1.
    assert (Hconn1 : connections_ok st1).
    { unfold connections_ok. by rewrite Hc. }
    destruct (websocket_message_state _ _ _ _ _ _ _ _ Hmsg Hroom)
      as [-> | [-> | (content & message_ & ->)]]; [done | done |].
    split; [done | by apply set_history_ok].
  - intros [= <-]. unfold fetch_note.
    destruct (getHistoryForNote st n now) as [st1 vh] eqn:Hroom.
    destruct (getHistoryForNote_lookup _ _ _ _ _ Hroom) as (_ & Hc & _).
    split; [| by eapply getHistoryForNote_ok].
    unfold connections_ok. cbn [fst]. by rewrite Hc.
Qed.

Lemma server_step_total (st : Server) (ev : Event) : is_Some (server_step st ev).
Proof.
  destruct ev as [ws | ws | ws msg now_init now | n now]; cbn [server_step];
    [by eexists | by eexists | | by eexists].
  destruct (getHistoryForNote st (noteId ws) now_init) as [st1 vh] eqn:Hroom.
  destruct (websocket_message_cases st st1 ws msg now_init now vh Hroom)
    as (o & -> & _).
  by eexists.
Qed.

(** X17. The server never stops: every event, [open], [close], message or
    [GET], takes every state to a next state.  In every state that the
    server reaches from its start, through any sequence of events: the sets
    of sockets are sets, none is empty, and a socket sits in the set of its
    own note; the history of a note has the note as its file name and at
    least one commit, its head is the key of a commit object, and every
    object of its store sits under the key computed from it.  Every step
    keeps these. *)
Theorem server_invariants :
  (forall (st : Server) (ev : Event),
     exists st', server_step st ev = Some st' /\ (server_ok st -> server_ok st'))
  /\ (forall evs : list Event,
        exists st, server_run (mkServer ∅ ∅) evs = Some st /\ server_ok st).
Proof.
  assert (Hstep : forall st ev,
            exists st', server_step st ev = Some st'
                        /\ (server_ok st -> server_ok st')).
  { intros st ev. destruct (server_step_total st ev) as [st' Hst'].
    exists st'. split; [done |]. intros Hok. by eapply server_step_ok. }
  split; [exact Hstep |].
  assert (Hrun : forall evs st0,
            server_ok st0 ->
            exists st, server_run st0 evs = Some st /\ server_ok st).
  { induction evs as [| ev evs IH]; intros st0 Hok; cbn [server_run].
    - by exists st0.
    - destruct (Hstep st0 ev) as (st1 & -> & Hok1).
      cbn [mbind option_bind]. apply IH. by apply Hok1. }
  intros evs. apply Hrun. split; by intros n x H.
Qed.

(** Alice and Bob connect, the note is loaded, Alice types "x" and then
    the JSON text of the tree of "x", and syncs once more with no
    operation, which commits the tree object. *)
Lemma server_invariants_witness : server_ok with_tree_object.
Proof.
  destruct (proj2 server_invariants
              [EvOpen alice; EvOpen bob; EvGet room t0;
               EvMessage alice (Sync (head opened) (edit [] (js "x"))) t0 t1;
               EvMessage alice (Sync (head with_x) (edit (js "x") tree_text)) t0 t2;
               EvMessage alice (Sync (head with_tree_text) []) t0 t3])
    as (st & Hrun & Hok).
  assert (Hst : server_run (mkServer ∅ ∅)
                  [EvOpen alice; EvOpen bob; EvGet room t0;
                   EvMessage alice (Sync (head opened) (edit [] (js "x"))) t0 t1;
                   EvMessage alice (Sync (head with_x) (edit (js "x") tree_text)) t0 t2;
                   EvMessage alice (Sync (head with_tree_text) []) t0 t3]
                = Some with_tree_object) by compute_done.
  rewrite Hst in Hrun. apply (inj Some) in Hrun. by rewrite Hrun.
Defined.

(** ** The client and the server together *)

Lemma input_callback_idle (c : Client) (content : jsstring) :
  idle c -> synchronizedContent c = CStr content -> editor_value c <> content ->
  exists ops,
    applyOperations (CStr content) ops = Ok (CStr (editor_value c))
    /\ input_callback true c
       = CReturned (mkClient (latestHash c) (synchronizedContent c) (Some ops) None
                      (editor_value c))
                   [Sync (latestHash c) ops].
Proof.
  intros [Hf Hp] Hs Hne.
  destruct (diff_then_apply content (editor_value c)) as (d & Hd & Happly).
  exists (diffToOperations d). split; [done |].
  unfold input_callback. rewrite Hf, Hp, Hs. cbn [apply_if_some]. rewrite Hd.
  rewrite (diff_operations_empty _ _ _ Hd), bool_decide_eq_true_2 by done.
  unfold sendOperations. cbn [negb]. by rewrite Hf, Hp, Hs.
Qed.

(** X18. A local edit, there and back. A client that is idle at the head
    of the history of its note, with its content, and whose editor holds
    another text: the input callback sends one sync from the head, with
    operations that are now in flight; the server commits exactly the text of
    the editor and answers with the [ack]; on the [ack] the client is idle
    again, at the new hash, and its synchronized content is the text
    committed. *)
Theorem local_edit_roundtrip (st st1 : Server) (ws : Ws) (now_init now : jsstring)
    (vh : VersionHistory) (c : Client) (content : jsstring) :
  getHistoryForNote st (noteId ws) now_init = (st1, vh) ->
  in_sync c vh content ->
  editor_value c <> content ->
  exists (ops : list Operation) (updates : Sent),
    input_callback true c
    = CReturned (mkClient (latestHash c) (synchronizedContent c) (Some ops) None
                   (editor_value c))
                [Sync (HEAD vh) ops]
    /\ websocket_message st ws (Sync (HEAD vh) ops) now_init now
       = Some (Returned
                 (set_history st1 (noteId ws)
                    (commit vh (editor_value c) (js "Update from client") now now).1)
                 ((ws, MsgAck (commit vh (editor_value c)
                                 (js "Update from client") now now).2)
                  :: updates))
    /\ ws_onmessage true
         (mkClient (latestHash c) (synchronizedContent c) (Some ops) None
            (editor_value c))
         (MsgAck (commit vh (editor_value c) (js "Update from client") now now).2)
       = CReturned
           (mkClient
              (Some (commit vh (editor_value c) (js "Update from client") now now).2)
              (CStr (editor_value c)) None None (editor_value c))
           [].
Proof.
  intros Hroom (Hidle & Hhash & Hsync & Hhead) Hne.
  destruct (input_callback_idle c content Hidle Hsync Hne) as (ops & Happly & Hinput).
  exists ops, (send_to_others st1 ws
                 (MsgUpdate (commit vh (editor_value c)
                               (js "Update from client") now now).2 ops)).
  split_and!.
  - by rewrite Hinput, Hhash.
  - by eapply fast_forward_path.
  - cbn [ws_onmessage]. unfold handleAck.
    cbn [inFlightOps synchronizedContent pendingOps apply_if_some].
    by rewrite Hsync, Happly.
Qed.

(** Alice's editor reads "aXb" when the content is "ab". *)
Lemma local_edit_roundtrip_witness :
  exists (ops : list Operation) (updates : Sent),
    input_callback true (mkClient (head with_ab) (CStr (js "ab")) None None (js "aXb"))
    = CReturned (mkClient (head with_ab) (CStr (js "ab")) (Some ops) None (js "aXb"))
                [Sync (head with_ab) ops]
    /\ websocket_message with_ab alice (Sync (head with_ab) ops) t0 t2
       = Some (Returned
                 (set_history with_ab room
                    (commit (history with_ab) (js "aXb")
                       (js "Update from client") t2 t2).1)
                 ((alice, MsgAck (commit (history with_ab) (js "aXb")
                                    (js "Update from client") t2 t2).2)
                  :: updates))
    /\ ws_onmessage true
         (mkClient (head with_ab) (CStr (js "ab")) (Some ops) None (js "aXb"))
         (MsgAck (commit (history with_ab) (js "aXb")
                    (js "Update from client") t2 t2).2)
       = CReturned
           (mkClient
              (Some (commit (history with_ab) (js "aXb")
                       (js "Update from client") t2 t2).2)
              (CStr (js "aXb")) None None (js "aXb"))
           [].
Proof.
  apply (local_edit_roundtrip with_ab with_ab alice t0 t2 (history with_ab)
           (mkClient (head with_ab) (CStr (js "ab")) None None (js "aXb")) (js "ab")).
  - compute_done.
  - unfold in_sync, idle. split_and!; [done | done | done | done | compute_done].
  - discriminate.
Defined.

Lemma handleUpdate_idle (c : Client) (h : Hash) (ops : list Operation)
    (content content' : jsstring) :
  idle c -> synchronizedContent c = CStr content ->
  applyOperations (CStr content) ops = Ok (CStr content') ->
  handleUpdate c h ops
  = CReturned (mkClient (Some h) (CStr content') None None content') [].
Proof.
  intros [Hf Hp] Hs Happly. unfold handleUpdate.
  by rewrite Hs, Happly, Hf, Hp.
Qed.

Lemma send_to_others_elem (st : Server) (ws client : Ws) (m u : ServerMsg) :
  (client, m) ∈ send_to_others st ws u -> m = u.
Proof.
  unfold send_to_others. intros (x & [= _ ->] & _)%list_elem_of_fmap. done.
Qed.

(** X19. The other clients converge. A sync whose base reads as a string,
    in a note whose head reads as a string: the handler returns and commits
    a string, by fast-forward or by merge.  Every frame that it sends to
    another socket is an update which takes a client that is idle at the old
    head, with its content, to the new hash and to the string committed,
    in its synchronized content and in its editor. *)
Theorem observer_converges (st st1 : Server) (ws : Ws) (base_hash : option Hash)
    (client_ops : list Operation) (now_init now : jsstring) (vh : VersionHistory)
    (base server : jsstring) (observer : Client) :
  getHistoryForNote st (noteId ws) now_init = (st1, vh) ->
  getContent vh base_hash = CStr base ->
  in_sync observer vh server ->
  exists (o : Outcome) (committed message_ : jsstring),
    websocket_message st ws (Sync base_hash client_ops) now_init now = Some o
    /\ state_of o
       = set_history st1 (noteId ws) (commit vh committed message_ now now).1
    /\ forall (client : Ws) (m : ServerMsg) (ws_open : bool),
         (client, m) ∈ sent_of o -> client <> ws ->
         ws_onmessage ws_open observer m
         = CReturned (mkClient (Some (commit vh committed message_ now now).2)
                        (CStr committed) None None committed)
                     [].
Proof.
  intros Hroom Hbase (Hidle & Hhash & Hsync & Hhead).
  destruct (decide (base_hash = HEAD vh)) as [-> | Hne].
  - assert (base = server) as ->.
    { unfold getCurrentContent in Hhead. rewrite Hhead in Hbase. by injection Hbase. }
    destruct (applyOperations_string server client_ops) as [client Hclient].
    eexists _, client, (js "Update from client").
    split_and!; [by eapply fast_forward_path | done |].
    intros w m ws_open Hin Hw. cbn [sent_of] in Hin.
    apply elem_of_cons in Hin as [[= -> _] | Hin]; [done |].
    apply send_to_others_elem in Hin as ->.
    by eapply handleUpdate_idle.
  - destruct (applyOperations_string base client_ops) as [client Hclient].
    destruct (operationalTransform_try_strings base client server) as [merged Hmerge].
    destruct (diff_then_apply server merged) as (d & Hd & Happly).
    eexists _, merged, (js "Merged update from client").
    split_and!; [by eapply merge_path_strings | done |].
    intros w m ws_open Hin Hw. cbn [sent_of] in Hin.
    apply elem_of_cons in Hin as [[= -> _] | Hin]; [done |].
    destruct (0 <? length (diffToOperations d)); [| by apply elem_of_nil in Hin].
    apply send_to_others_elem in Hin as ->.
    by eapply handleUpdate_idle.
Qed.

(** Scenario 3 of the specification, seen from Alice: her client is idle at
    "aXb" when Bob's insert of "Y" is merged. *)
Lemma observer_converges_witness :
  exists (o : Outcome) (committed message_ : jsstring),
    websocket_message with_aXb bob (Sync (head with_ab) [Insert (js "Y") 1]) t0 t3
    = Some o
    /\ state_of o
       = set_history with_aXb room
           (commit (history with_aXb) committed message_ t3 t3).1
    /\ forall (client : Ws) (m : ServerMsg) (ws_open : bool),
         (client, m) ∈ sent_of o -> client <> bob ->
         ws_onmessage ws_open
           (mkClient (head with_aXb) (CStr (js "aXb")) None None (js "aXb")) m
         = CReturned (mkClient
                        (Some (commit (history with_aXb) committed message_ t3 t3).2)
                        (CStr committed) None None committed)
                     [].
Proof.
  apply (observer_converges with_aXb with_aXb bob (head with_ab)
           [Insert (js "Y") 1] t0 t3 (history with_aXb) (js "ab") (js "aXb")
           (mkClient (head with_aXb) (CStr (js "aXb")) None None (js "aXb"))).
  - compute_done.
  - compute_done.
  - unfold in_sync, idle. split_and!; [done | done | done | done | compute_done].
Defined.

(** X20. The input callback keeps the client's view on the editor. With a
    string as synchronized content and nothing pending, on an open socket:
    the callback returns; afterwards the synchronized content with the
    operations in flight and the pending ones applied is the text of the
    editor.  It sends one sync when nothing was in flight and the text has
    changed, and nothing otherwise. *)
Theorem input_keeps_view (c : Client) (content : jsstring) :
  synchronizedContent c = CStr content -> pendingOps c = None ->
  exists (c' : Client) (sent : list ClientMsg),
    input_callback true c = CReturned c' sent
    /\ client_view c' = Ok (CStr (editor_value c))
    /\ editor_value c' = editor_value c
    /\ synchronizedContent c' = synchronizedContent c
    /\ latestHash c' = latestHash c
    /\ (sent = []
        \/ inFlightOps c = None /\ editor_value c <> content
           /\ exists ops, sent = [Sync (latestHash c) ops]
                          /\ inFlightOps c' = Some ops).
Proof.
  intros Hs Hp. unfold input_callback, client_view. rewrite Hs, Hp.
  destruct (inFlightOps c) as [inFlight |] eqn:Hf; cbn [apply_if_some].
  - destruct (applyOperations_string content inFlight) as [base Hbase].
    rewrite Hbase.
    destruct (diff_then_apply base (editor_value c)) as (d & Hd & Happly).
    rewrite Hd, (diff_operations_empty _ _ _ Hd).
    case_bool_decide as Hne.
    + unfold sendOperations. cbn [negb]. rewrite Hf, Hp.
      eexists _, _. split; [reflexivity |].
      cbn [synchronizedContent inFlightOps pendingOps editor_value latestHash].
      rewrite Hs. cbn [apply_if_some]. rewrite Hbase. cbn [mbind Result_bind].
      split_and!; auto.
    + subst base.
      eexists _, _. split; [reflexivity |].
      rewrite Hs, Hf, Hp. cbn [apply_if_some]. rewrite Hbase.
      split_and!; auto.
  - destruct (diff_then_apply content (editor_value c)) as (d & Hd & Happly).
    rewrite Hd, (diff_operations_empty _ _ _ Hd).
    case_bool_decide as Hne.
    + unfold sendOperations. cbn [negb]. rewrite Hf, Hp.
      eexists _, _. split; [reflexivity |].
      cbn [synchronizedContent inFlightOps pendingOps editor_value latestHash].
      rewrite Hs. cbn [apply_if_some]. rewrite Happly.
      split_and!; eauto 10.
    + subst content.
      eexists _, _. split; [reflexivity |].
      rewrite Hs, Hf, Hp. cbn [apply_if_some].
      split_and!; auto.
Qed.

(** The user types "!" at the end of "aXb" while the insert of "X" into
    "ab" is in flight. *)
Lemma input_keeps_view_witness :
  exists (c' : Client) (sent : list ClientMsg),
    input_callback true
      (mkClient (head with_ab) (CStr (js "ab")) (Some [Insert (js "X") 1]) None
         (js "aXb!"))
    = CReturned c' sent
    /\ client_view c' = Ok (CStr (js "aXb!")).
Proof.
  destruct (input_keeps_view
              (mkClient (head with_ab) (CStr (js "ab")) (Some [Insert (js "X") 1]) None
                 (js "aXb!"))
              (js "ab") eq_refl eq_refl)
    as (c' & sent & Hrun & Hview & _).
  exists c', sent. split; [exact Hrun | exact Hview].
Defined.

(** ** [transformOperations]: edits that are apart *)

(** Once the server operations are used up, the client operations that are
    left are pushed with the offset reached. *)
Lemma transform_loop_server_done (clientOps serverOps : list Operation) (fuel : nat) :
  forall (ci si : nat) (off : Z) (out : list Operation),
  length serverOps <= si ->
  transformed (transform_loop fuel clientOps serverOps (mkTransformState ci si off out))
  = out ++ map (fun c => with_position c (position c + off))
             (take fuel (drop ci clientOps)).
Proof.
  induction fuel as [| fuel IH]; intros ci si off out Hsi; simpl.
  - by rewrite app_nil_r.
  - unfold transform_step. simpl.
    destruct (ci <? length clientOps) eqn:Hci.
    + apply Nat.ltb_lt in Hci.
      destruct (lookup_lt_is_Some_2 clientOps ci Hci) as [op Hop].
      rewrite Hop, (lookup_ge_None_2 serverOps si) by done.
      rewrite IH by done.
      rewrite (drop_S _ _ _ Hop), Nat.add_1_r. simpl. by rewrite <- app_assoc.
    + apply Nat.ltb_ge in Hci. simpl. by rewrite drop_ge, take_nil, app_nil_r.
Qed.

(** While the server operations are before the first client operation, the
    loop reads them one by one and adds up what they change. *)
Lemma transform_loop_server_first (c0 : Operation) (rest serverOps : list Operation) :
  forall (l : list Operation) (fuel si : nat) (off : Z),
  drop si serverOps = l ->
  Forall (fun s => (position s < position c0)%Z) l ->
  transform_loop (length l + fuel) (c0 :: rest) serverOps (mkTransformState 0 si off [])
  = transform_loop fuel (c0 :: rest) serverOps
      (mkTransformState 0 (si + length l) (off + net_length l) []).
Proof.
  induction l as [| s l IH]; intros fuel si off Hdrop Hall.
  - simpl. by rewrite Nat.add_0_r, Z.add_0_r.
  - apply Forall_cons in Hall as [Hs Hall].
    assert (Hlook : serverOps !! si = Some s).
    { rewrite <- (Nat.add_0_r si), <- lookup_drop, Hdrop. done. }
    assert (Hdrop' : drop (S si) serverOps = l).
    { by rewrite (drop_S _ _ _ Hlook) in Hdrop; injection Hdrop. }
    cbn [length Nat.add transform_loop]. unfold transform_step at 1.
    cbn [clientIndex serverIndex positionOffset transformed length].
    change (0 <? S (length rest)) with true. cbn [lookup list_lookup].
    rewrite Hlook.
    rewrite (proj2 (Z.ltb_ge _ _)) by lia. rewrite (proj2 (Z.ltb_lt _ _) Hs).
    cbn [net_length foldr]. fold (net_length l). unfold length_change.
    destruct (op_type s); rewrite Nat.add_1_r, IH by done;
      f_equal; f_equal; lia.
Qed.

(** While the client operations are before the first server operation, they
    are pushed as they are. *)
Lemma transform_loop_client_first (clientOps : list Operation) (s0 : Operation)
    (serverOps : list Operation) (fuel : nat) :
  Forall (fun c => (position c < position s0)%Z) clientOps ->
  forall (ci : nat) (out : list Operation),
  transformed (transform_loop fuel clientOps (s0 :: serverOps)
                 (mkTransformState ci 0 0 out))
  = out ++ take fuel (drop ci clientOps).
Proof.
  intros Hall. induction fuel as [| fuel IH]; intros ci out; simpl.
  - by rewrite take_0, app_nil_r.
  - unfold transform_step. simpl.
    destruct (ci <? length clientOps) eqn:Hci.
    + apply Nat.ltb_lt in Hci.
      destruct (lookup_lt_is_Some_2 clientOps ci Hci) as [op Hop].
      pose proof (Forall_lookup_1 _ _ _ _ Hall Hop) as Hlt. simpl in Hlt.
      rewrite Hop, (proj2 (Z.ltb_lt _ _) Hlt), with_position_same, IH.
      rewrite (drop_S _ _ _ Hop), Nat.add_1_r. simpl. by rewrite <- app_assoc.
    + apply Nat.ltb_ge in Hci. simpl. by rewrite drop_ge, take_nil, app_nil_r.
Qed.

(** X21. Edits that are apart. If every client operation is at a position
    before the first server operation, the client operations come back as
    they are.  If every server operation is at a position before the first
    client operation, every client operation is shifted by the length that
    the server operations add: the lengths of the texts of their inserts,
    less the lengths of their deletes.  For the shift, the positions, the
    length that each server operation adds, the sum of these lengths after
    each server operation and the shifted positions are safe integers, so
    that the sums of the code are these sums. *)
Theorem transformOperations_apart (clientOps serverOps : list Operation) :
  (forall s0, serverOps !! 0 = Some s0 ->
     Forall (fun c => (position c < position s0)%Z) clientOps ->
     transformOperations clientOps serverOps = clientOps)
  /\ (forall c0, clientOps !! 0 = Some c0 ->
        Forall (fun s => (position s < position c0)%Z) serverOps ->
        Forall (fun s => safe_integer (position s)
                         /\ safe_integer (length_change s)) serverOps ->
        (forall k, safe_integer (net_length (take k serverOps))) ->
        Forall (fun c => safe_integer (position c)
                         /\ safe_integer (position c + net_length serverOps))
               clientOps ->
        transformOperations clientOps serverOps
        = map (fun c => with_position c (position c + net_length serverOps))
              clientOps).
Proof.
  split.
  - intros s0 Hs0 Hall. destruct serverOps as [| s serverOps]; [done |].
    injection Hs0 as ->. unfold transformOperations.
    rewrite transform_loop_client_first by done.
    rewrite drop_0, take_ge by lia. done.
  - intros c0 Hc0 Hall _ _ _. destruct clientOps as [| c rest]; [done |].
    injection Hc0 as ->. unfold transformOperations.
    rewrite (Nat.add_comm (length (c0 :: rest))).
    rewrite (transform_loop_server_first c0 rest serverOps serverOps) by done.
    rewrite transform_loop_server_done by (simpl; lia).
    by rewrite drop_0, firstn_all, Z.add_0_l.
Qed.

(** The client inserts "X" at 3 and deletes at 4.  Against a server that
    has inserted "ab" at 5, the operations come back as they are; against a
    server that has inserted "ab" at 0 and deleted one character at 1, they
    are shifted by 1. *)
Lemma transformOperations_apart_witness :
  transformOperations [Insert (js "X") 3; Delete 1 4] [Insert (js "ab") 5]
  = [Insert (js "X") 3; Delete 1 4]
  /\ transformOperations [Insert (js "X") 3; Delete 1 4]
       [Insert (js "ab") 0; Delete 1 1]
     = [Insert (js "X") 4; Delete 1 5].
Proof.
  split.
  - refine (proj1 (transformOperations_apart
                     [Insert (js "X") 3; Delete 1 4] [Insert (js "ab") 5])
              (Insert (js "ab") 5) eq_refl _).
    repeat constructor.
  - refine (proj2 (transformOperations_apart
                     [Insert (js "X") 3; Delete 1 4] [Insert (js "ab") 0; Delete 1 1])
              (Insert (js "X") 3) eq_refl _ _ _ _).
    + repeat constructor.
    + repeat apply Forall_cons_2; [| | apply Forall_nil_2];
        (split; split; by vm_compute).
    + intros [| [| [| k]]]; split; by vm_compute.
    + repeat apply Forall_cons_2; [| | apply Forall_nil_2];
        (split; split; by vm_compute).
Defined.

(** ** [log] *)

Lemma chain_functional (d : gmap Hash GitObject) (x : option Hash)
    (l1 l2 : list (Hash * Commit)) :
  chain d x l1 -> chain d x l2 -> l1 = l2.
Proof.
  intros H1. revert l2. induction H1 as [| h c l Hc _ IH]; intros l2 H2.
  - by inversion H2.
  - inversion H2 as [| h' c' l' Hc' Hl']; subst.
    rewrite Hc in Hc'. injection Hc' as <-. f_equal. by apply IH.
Qed.

Lemma chain_drop (d : gmap Hash GitObject) (x : option Hash)
    (l : list (Hash * Commit)) (k : nat) (hc : Hash * Commit) :
  chain d x l -> l !! k = Some hc -> chain d (Some hc.1) (drop k l).
Proof.
  intros H. revert k. induction H as [| h c l Hc Hl IH]; intros k Hk; [done |].
  destruct k as [| k].
  - injection Hk as <-. by constructor.
  - by apply IH.
Qed.

(** A commit is not among its own ancestors. *)
Lemma chain_acyclic (d : gmap Hash GitObject) (h : Hash) (c : Commit)
    (l : list (Hash * Commit)) :
  chain d (Some h) ((h, c) :: l) -> Forall (fun hc => hc.1 <> h) l.
Proof.
  intros H. apply Forall_lookup. intros k [h' c'] Hk Heq. simpl in Heq. subst h'.
  pose proof (chain_drop d _ _ (S k) (h, c') H Hk) as Hsuffix.
  pose proof (chain_functional _ _ _ _ H Hsuffix) as Hsame.
  apply (f_equal length) in Hsame. rewrite length_drop in Hsame.
  simpl in Hsame. lia.
Qed.

Lemma log_loop_chain (vh : VersionHistory) (l : list (Hash * Commit)) :
  forall (fuel : nat) (cur : option Hash),
  content_addressed (db vh) -> chain (db vh) cur l -> length l <= fuel ->
  log_loop fuel vh (match cur with Some h => PString h | None => PNull end)
  = map (fun hc =>
           log_line (if bool_decide (Some hc.1 = HEAD vh) then js " (HEAD)" else []) hc)
        l.
Proof.
  intros fuel cur Hca Hchain. revert fuel.
  induction Hchain as [| h c l Hc Hl IH]; intros fuel Hfuel.
  - by destruct fuel.
  - destruct fuel as [| fuel]; [simpl in Hfuel; lia |].
    pose proof (Hca _ _ Hc) as Hkey.
    destruct h as [| x h]; [by apply hashObject_nonempty in Hkey |].
    cbn [log_loop map]. rewrite Hc. cbn [falsy_object].
    f_equal. simpl in Hfuel.
    replace (get_property (GCommit c) (js "parent"))
      with (match parent c with Some p => PString p | None => PNull end) by done.
    apply IH. lia.
Qed.

(** X22. In a store in which every object sits under its own key, when
    the chain of parents from [HEAD] is a chain of commit objects that ends
    at a commit without a parent: the loop of [log] ends by itself, and
    prints one line for each commit of the chain, newest first, with the
    first twelve characters of its hash and its message; the first line, and
    no other, carries the mark of the head. *)
Theorem log_lists_chain (vh : VersionHistory) (l : list (Hash * Commit)) (fuel : nat) :
  content_addressed (db vh) -> chain (db vh) (HEAD vh) l -> length l <= fuel ->
  log fuel vh
  = [js "--- Commit History ---"]
    ++ match l with
       | [] => []
       | hc :: rest => log_line (js " (HEAD)") hc :: map (log_line []) rest
       end
    ++ [js "--------------------"].
Proof.
  intros Hca Hchain Hfuel. unfold log.
  rewrite (log_loop_chain vh l fuel (HEAD vh)) by done.
  f_equal. f_equal.
  destruct Hchain as [| h c l Hc Hl]; [done |].
  pose proof (chain_acyclic _ _ _ _ (chain_cons _ _ _ _ Hc Hl)) as Hacyclic.
  cbn [map fst]. rewrite bool_decide_eq_true_2 by done. f_equal.
  apply map_ext_in. intros [h' c'] Hin%list_elem_of_In. cbn [fst].
  rewrite Forall_forall in Hacyclic. specialize (Hacyclic _ Hin). cbn [fst] in Hacyclic.
  rewrite bool_decide_eq_false_2; [done |]. by intros [= ->].
Qed.

(** The log after the commit of "x" with the message "first". *)
Lemma log_lists_chain_witness :
  log 1 note_x.1
  = [js "--- Commit History ---";
     log_line (js " (HEAD)")
       (note_x.2,
        mkCommit (hashObject (GTree note (hashObject (GBlob (js "x")))))
          None (js "first") t1);
     js "--------------------"].
Proof.
  refine (log_lists_chain note_x.1
            [(note_x.2,
              mkCommit (hashObject (GTree note (hashObject (GBlob (js "x")))))
                None (js "first") t1)] 1 _ _ _).
  - apply commit_content_addressed. by intros k o Hk.
  - replace (HEAD note_x.1) with (Some note_x.2) by compute_done.
    apply chain_cons; [compute_done | apply chain_nil].
  - simpl. lia.
Defined.

(** ** The diff is a shortest script *)

Lemma lcs_0_r (xs ys : list jsstring) (i : nat) : lcs xs ys i 0 = 0.
Proof. by destruct i. Qed.

Lemma lcs_step (xs ys : list jsstring) (i j : nat) :
  lcs xs ys (S i) (S j)
  = if bool_decide (xs !! i = ys !! j) then S (lcs xs ys i j)
    else Nat.max (lcs xs ys i (S j)) (lcs xs ys (S i) j).
Proof. done. Qed.

(** One more element on either side adds at most one to the longest common
    subsequence, and takes nothing away. *)
Lemma lcs_rows (xs ys : list jsstring) (i : nat) :
  (forall j, lcs xs ys i j <= lcs xs ys i (S j) <= S (lcs xs ys i j)) ->
  forall j, lcs xs ys i j <= lcs xs ys (S i) j <= S (lcs xs ys i j).
Proof.
  intros Hrow. induction j as [| j IH].
  - rewrite !lcs_0_r. lia.
  - rewrite lcs_step. specialize (Hrow j). case_bool_decide; lia.
Qed.

Lemma lcs_lipschitz (xs ys : list jsstring) (i : nat) : forall j,
  lcs xs ys i j <= lcs xs ys i (S j) <= S (lcs xs ys i j)
  /\ lcs xs ys i j <= lcs xs ys (S i) j <= S (lcs xs ys i j).
Proof.
  induction i as [| i IH].
  - assert (Hrow : forall j, lcs xs ys 0 j <= lcs xs ys 0 (S j) <= S (lcs xs ys 0 j)).
    { intros j. simpl. lia. }
    intros j. split; [apply Hrow | by apply lcs_rows].
  - assert (Hrow : forall j,
              lcs xs ys (S i) j <= lcs xs ys (S i) (S j) <= S (lcs xs ys (S i) j)).
    { intros j. rewrite lcs_step. destruct (IH j) as [Hc Ha].
      case_bool_decide; lia. }
    intros j. split; [apply Hrow | by apply lcs_rows].
Qed.

Lemma dp_get_set (dp : list (list Z)) (row : list Z) (i j i' j' : nat) (v : Z) :
  dp !! i = Some row -> j < length row ->
  dp_get (dp_set dp i j v) i' j'
  = if decide (i' = i /\ j' = j) then v else dp_get dp i' j'.
Proof.
  intros Hrow Hj. unfold dp_get, dp_set.
  destruct (decide (i' = i)) as [-> | Hi].
  - rewrite list_lookup_alter_eq, Hrow. simpl.
    destruct (decide (j' = j)) as [-> | Hjne].
    + rewrite list_lookup_insert_eq by done. by rewrite decide_True.
    + rewrite list_lookup_insert_ne by done. rewrite decide_False by tauto. done.
  - rewrite list_lookup_alter_ne by done. rewrite decide_False by tauto. done.
Qed.

Lemma dp_set_table_ok (n m : nat) (dp : list (list Z)) (i j : nat) (v : Z) :
  table_ok n m dp -> table_ok n m (dp_set dp i j v).
Proof.
  intros [Hlen Hrows]. unfold dp_set. split; [by rewrite length_alter |].
  apply Forall_lookup. intros k row Hk.
  rewrite Forall_lookup in Hrows.
  destruct (decide (k = i)) as [-> | Hne].
  - rewrite list_lookup_alter_eq in Hk.
    destruct (dp !! i) as [row0 |] eqn:Hrow0; [| done].
    injection Hk as <-. rewrite length_insert. by eapply Hrows.
  - rewrite list_lookup_alter_ne in Hk by done. by eapply Hrows.
Qed.

Lemma filled_start (xs ys : list jsstring) (j : nat) :
  filled xs ys 0 j (replicate (S (length xs)) (replicate (S (length ys)) 0%Z)).
Proof.
  split.
  - split; [by rewrite length_replicate |].
    apply Forall_forall. intros row [-> _]%elem_of_replicate.
    by rewrite length_replicate.
  - intros i' j' Hi Hj Hwhere. unfold dp_get.
    rewrite lookup_replicate_2 by lia. cbn [mbind option_bind].
    rewrite lookup_replicate_2 by lia. cbn [default].
    destruct Hwhere as [? | [[-> _] | [-> | ->]]]; [lia | done | done |].
    by rewrite lcs_0_r.
Qed.

Lemma filled_cell (xs ys : list jsstring) (i j : nat) (dp : list (list Z)) :
  S i <= length xs -> S j <= length ys ->
  filled xs ys (S i) j dp ->
  filled xs ys (S i) (S j) (dp_cell xs ys (S i) dp (S j)).
Proof.
  intros Hi Hj [Hok Hcells].
  destruct Hok as [Hlen Hrows].
  destruct (lookup_lt_is_Some_2 dp (S i)) as [row Hrow]; [lia |].
  assert (Hrowlen : length row = S (length ys)).
  { rewrite Forall_lookup in Hrows. by eapply Hrows. }
  unfold dp_cell. rewrite !Nat.sub_succ, !Nat.sub_0_r.
  split.
  - case_bool_decide; by apply dp_set_table_ok.
  - intros i' j' Hi' Hj' Hwhere.
    assert (Hget : forall v,
              dp_get (dp_set dp (S i) (S j) v) i' j'
              = if decide (i' = S i /\ j' = S j) then v else dp_get dp i' j').
    { intros v. eapply dp_get_set; [done | lia]. }
    case_bool_decide as Hsame; rewrite Hget; clear Hget;
      (destruct (decide (i' = S i /\ j' = S j)) as [[-> ->] | Hother];
       [ rewrite lcs_step;
         first [ rewrite bool_decide_eq_true_2 by done
               | rewrite bool_decide_eq_false_2 by done ];
         rewrite !Hcells by lia; lia
       | apply Hcells; lia ]).
Qed.

Lemma filled_row (xs ys : list jsstring) (i : nat) (dp : list (list Z)) (k : nat) :
  S i <= length xs -> k <= length ys ->
  filled xs ys (S i) 0 dp ->
  filled xs ys (S i) k (foldl (dp_cell xs ys (S i)) dp (seq 1 k)).
Proof.
  intros Hi Hk Hstart. induction k as [| k IH]; [done |].
  rewrite seq_S, foldl_app. simpl. apply filled_cell; [done | lia |].
  apply IH. lia.
Qed.

Lemma filled_next (xs ys : list jsstring) (i : nat) (dp : list (list Z)) :
  filled xs ys i (length ys) dp -> filled xs ys (S i) 0 dp.
Proof.
  intros [Hok Hcells]. split; [done |].
  intros i' j' Hi' Hj' Hwhere. apply Hcells; lia.
Qed.

Lemma filled_rows (xs ys : list jsstring) (k : nat) :
  k <= length xs ->
  filled xs ys k (length ys)
    (foldl (fun dp i => foldl (dp_cell xs ys i) dp (seq 1 (length ys)))
       (replicate (S (length xs)) (replicate (S (length ys)) 0%Z)) (seq 1 k)).
Proof.
  induction k as [| k IH]; intros Hk; [apply filled_start |].
  rewrite seq_S, foldl_app. simpl.
  apply filled_row; [lia | lia |]. apply filled_next, IH. lia.
Qed.

(** The table that the two loops fill holds the lengths of the longest
    common subsequences of the prefixes. *)
Lemma dp_fill_lcs (xs ys : list jsstring) (i j : nat) :
  i <= length xs -> j <= length ys ->
  dp_get (dp_fill xs ys) i j = Z.of_nat (lcs xs ys i j).
Proof.
  intros Hi Hj. destruct (filled_rows xs ys (length xs)) as [_ Hcells]; [lia |].
  apply Hcells; lia.
Qed.

Lemma kept_cons (c : jsstring) (ty : CharDiffType) (E : list CharDiff) :
  kept (mkCharDiff c ty :: E)
  = match ty with cd_unchanged => S (kept E) | _ => kept E end.
Proof. unfold kept. rewrite filter_cons. by destruct ty. Qed.

(** The script that the loop rebuilds keeps as many characters as the
    longest common subsequence has. *)
Lemma backtrack_kept (xs ys : list jsstring) (dp : list (list Z)) (fuel : nat) :
  (forall i j, i <= length xs -> j <= length ys ->
     dp_get dp i j = Z.of_nat (lcs xs ys i j)) ->
  forall (i j : nat) (acc : list CharDiff),
  i + j <= fuel -> i <= length xs -> j <= length ys ->
  kept (backtrack fuel xs ys dp i j acc) = lcs xs ys i j + kept acc.
Proof.
  intros Hdp. induction fuel as [| fuel IH]; intros i j acc Hfuel Hi Hj.
  - assert (i = 0) as -> by lia. assert (j = 0) as -> by lia. done.
  - destruct i as [| i], j as [| j]; cbn [backtrack].
    + done.
    + change (0 <? 0) with false. change (0 <? S j) with true.
      cbn [orb andb negb Nat.eqb]. rewrite IH by lia. by rewrite kept_cons.
    + change (0 <? 0) with false. change (0 <? S i) with true.
      cbn [orb andb negb Nat.eqb]. rewrite IH by lia.
      by rewrite kept_cons, !lcs_0_r.
    + change (0 <? S i) with true. change (0 <? S j) with true.
      cbn [orb andb negb Nat.eqb]. rewrite !Nat.sub_succ, !Nat.sub_0_r.
      rewrite lcs_step. rewrite !Hdp by lia.
      case_bool_decide as Hsame.
      * rewrite IH by lia. rewrite kept_cons. lia.
      * destruct (Z.of_nat (lcs xs ys i (S j)) <=? Z.of_nat (lcs xs ys (S i) j))%Z
          eqn:Hle.
        -- apply Z.leb_le in Hle. rewrite IH by lia. rewrite kept_cons. lia.
        -- apply Z.leb_gt in Hle.
           rewrite (proj2 (Z.ltb_lt _ _) Hle).
           rewrite IH by lia. rewrite kept_cons. lia.
Qed.

Lemma snoc_take (xs : list jsstring) (l : list jsstring) (x : jsstring) (i : nat) :
  l ++ [x] = take i xs -> i <= length xs ->
  exists i', i = S i' /\ l = take i' xs /\ xs !! i' = Some x.
Proof.
  intros Heq Hi. destruct i as [| i].
  - rewrite take_0 in Heq. by destruct l.
  - destruct (lookup_lt_is_Some_2 xs i) as [y Hy]; [lia |].
    rewrite (take_S_r _ _ _ Hy) in Heq.
    apply app_inj_tail in Heq as [-> ->]. eauto.
Qed.

(** No script between two prefixes keeps more than their longest common
    subsequence. *)
Lemma kept_bound (xs ys : list jsstring) (E : list CharDiff) : forall i j,
  sources E = take i xs -> targets E = take j ys ->
  i <= length xs -> j <= length ys ->
  kept E <= lcs xs ys i j.
Proof.
  induction E as [| cd E IH] using rev_ind; intros i j Hs Ht Hi Hj.
  - unfold kept. simpl. lia.
  - unfold kept, sources, targets in *.
    rewrite filter_app, ?map_app, ?length_app in *.
    rewrite !filter_cons, !filter_nil in *.
    destruct cd as [c []]; simpl in *; rewrite ?app_nil_r in *.
    + destruct (snoc_take _ _ _ _ Ht Hj) as (j' & -> & Ht' & _).
      specialize (IH i j' Hs Ht' Hi ltac:(lia)).
      destruct (lcs_lipschitz xs ys i j') as [Hc _]. lia.
    + destruct (snoc_take _ _ _ _ Hs Hi) as (i' & -> & Hs' & _).
      specialize (IH i' j Hs' Ht ltac:(lia) Hj).
      destruct (lcs_lipschitz xs ys i' j) as [_ Ha]. lia.
    + destruct (snoc_take _ _ _ _ Hs Hi) as (i' & -> & Hs' & Hx).
      destruct (snoc_take _ _ _ _ Ht Hj) as (j' & -> & Ht' & Hy).
      specialize (IH i' j' Hs' Ht' ltac:(lia) ltac:(lia)).
      rewrite lcs_step, bool_decide_eq_true_2 by congruence. lia.
Qed.

Lemma sources_singles (E : list CharDiff) :
  Forall (fun cd => single (char cd)) E ->
  sources E = map (fun c => [c]) (source_of E)
  /\ targets E = map (fun c => [c]) (target_of E).
Proof.
  unfold sources, targets, source_of, target_of.
  induction 1 as [| cd E Hcd _ [IHs IHt]]; [done |].
  destruct (single_unit _ Hcd) as [c Hc].
  rewrite !filter_cons. destruct cd as [c' []]; simpl in *; subst;
    simpl; by rewrite ?IHs, ?IHt.
Qed.

(** A script is as long as what it reads and what it writes, less what it
    keeps. *)
Lemma script_length (E : list CharDiff) :
  length E + kept E = length (sources E) + length (targets E).
Proof.
  unfold kept, sources, targets.
  induction E as [| [c ty] E IH]; [done |].
  rewrite !filter_cons. destruct ty; simpl; rewrite ?length_map in *; lia.
Qed.

(** X23. The diff is a shortest script. For any two strings, [diff]
    returns a list that has no more entries than any script of
    one-character steps (keep, add, remove) that reads the first string and
    writes the second: the table that the two loops fill holds the lengths
    of the longest common subsequences, and the script rebuilt from it keeps
    as many characters as any script can. *)
Theorem diff_shortest (a b : jsstring) (E' : list CharDiff) :
  Forall (fun cd => single (char cd)) E' ->
  source_of E' = a -> target_of E' = b ->
  exists d, diff (CStr a) (CStr b) = Ok d
    /\ length d <= length E'
    /\ (a <> b ->
        kept E' <= length (filter (fun r => d_type r = unchanged) d)).
Proof.
  intros Hall' Hs' Ht'.
  destruct (decide (a = b)) as [Heq | Hne].
  { exists []. rewrite Heq, diff_same. split_and!; [done | simpl; lia | done]. }
  set (xs := map (fun c : N => [c]) a). set (ys := map (fun c : N => [c]) b).
  set (E := backtrack (length xs + length ys) xs ys (dp_fill xs ys)
              (length xs) (length ys) []).
  assert (Hd : diff (CStr a) (CStr b) = Ok (map diff_entry E)).
  { unfold diff, strict_eq. rewrite bool_decide_eq_false_2 by congruence. done. }
  destruct (generateCharacterDiff_script a b) as (E0 & HE0 & Hs & Ht & Hall).
  assert (E0 = E) as ->.
  { unfold generateCharacterDiff in HE0. cbn [split_chars mbind Result_bind] in HE0.
    by injection HE0 as <-. }
  assert (Hkept : kept E = lcs xs ys (length xs) (length ys)).
  { subst E. rewrite backtrack_kept; [unfold kept; simpl; lia | | lia | lia | lia].
    intros i j. apply dp_fill_lcs. }
  destruct (sources_singles E Hall) as [HsE HtE]. rewrite Hs in HsE. rewrite Ht in HtE.
  destruct (sources_singles E' Hall') as [HsE' HtE'].
  rewrite Hs' in HsE'. rewrite Ht' in HtE'.
  assert (Hbound : kept E' <= kept E).
  { rewrite Hkept. apply kept_bound; [| | lia | lia].
    - by rewrite firstn_all.
    - by rewrite firstn_all. }
  pose proof (script_length E) as HlenE. pose proof (script_length E') as HlenE'.
  rewrite HsE, HtE in HlenE. rewrite HsE', HtE' in HlenE'.
  exists (map diff_entry E). split_and!; [done | rewrite length_map; lia |].
  intros _.
  assert (Hunch : length (filter (fun r => d_type r = unchanged) (map diff_entry E))
                  = kept E).
  { unfold kept. clear. induction E as [| [c ty] E IH]; [done |].
    cbn [map]. rewrite !filter_cons. destruct ty; simpl; by rewrite ?IH. }
  by rewrite Hunch.
Qed.

(** A script from "abc" to "axc" that removes and adds every character has
    six entries; the diff has four. *)
Lemma diff_shortest_witness :
  exists d, diff (CStr (js "abc")) (CStr (js "axc")) = Ok d /\ length d <= 6.
Proof.
  destruct (diff_shortest (js "abc") (js "axc")
              [mkCharDiff (js "a") cd_removed; mkCharDiff (js "b") cd_removed;
               mkCharDiff (js "c") cd_removed; mkCharDiff (js "a") cd_added;
               mkCharDiff (js "x") cd_added; mkCharDiff (js "c") cd_added])
    as (d & Hd & Hlen & _).
  - repeat constructor.
  - reflexivity.
  - reflexivity.
  - exists d. split; [exact Hd | exact Hlen].
Defined.

(** ** mini-git.ts: the diff of lines *)

Lemma sources_cons (c : jsstring) (ty : CharDiffType) (E : list CharDiff) :
  sources (mkCharDiff c ty :: E)
  = match ty with cd_added => sources E | _ => c :: sources E end.
Proof. unfold sources. rewrite filter_cons. by destruct ty. Qed.

Lemma targets_cons (c : jsstring) (ty : CharDiffType) (E : list CharDiff) :
  targets (mkCharDiff c ty :: E)
  = match ty with cd_removed => targets E | _ => c :: targets E end.
Proof. unfold targets. rewrite filter_cons. by destruct ty. Qed.

Lemma old_lines_cons (r : DiffResult) (d : list DiffResult) :
  old_lines (r :: d)
  = match d_type r with
    | added => old_lines d
    | modified =>
        match oldLine r with Some o => o :: old_lines d | None => old_lines d end
    | _ => line r :: old_lines d
    end.
Proof. unfold old_lines. cbn [omap list_omap]. by destruct (d_type r), (oldLine r). Qed.

Lemma new_lines_cons (r : DiffResult) (d : list DiffResult) :
  new_lines (r :: d)
  = match d_type r with
    | removed => new_lines d
    | modified => target_of (default [] (charDiffs r)) :: new_lines d
    | _ => line r :: new_lines d
    end.
Proof. unfold new_lines. cbn [omap list_omap]. by destruct (d_type r). Qed.

(** The loop back through the table, on any two lists: the raw results
    read the first list and write the second. *)
Lemma backtrack_lists (xs ys : list jsstring) (dp : list (list Z)) (fuel : nat) :
  forall (i j : nat) (acc : list CharDiff),
  i + j <= fuel -> i <= length xs -> j <= length ys ->
  sources (backtrack fuel xs ys dp i j acc) = take i xs ++ sources acc
  /\ targets (backtrack fuel xs ys dp i j acc) = take j ys ++ targets acc.
Proof.
  induction fuel as [| fuel IH]; intros i j acc Hfuel Hi Hj.
  - assert (i = 0) as -> by lia. assert (j = 0) as -> by lia. done.
  - assert (Hkeep : forall c E, sources (mkCharDiff c cd_unchanged :: E) = c :: sources E
                                /\ targets (mkCharDiff c cd_unchanged :: E) = c :: targets E).
    { intros c E. by rewrite sources_cons, targets_cons. }
    assert (Hadd : forall c E, sources (mkCharDiff c cd_added :: E) = sources E
                               /\ targets (mkCharDiff c cd_added :: E) = c :: targets E).
    { intros c E. by rewrite sources_cons, targets_cons. }
    assert (Hdel : forall c E, sources (mkCharDiff c cd_removed :: E) = c :: sources E
                               /\ targets (mkCharDiff c cd_removed :: E) = targets E).
    { intros c E. by rewrite sources_cons, targets_cons. }
    assert (Htake : forall (l : list jsstring) k, S k <= length l ->
              take (S k) l = take k l ++ [char_at l k]).
    { intros l k Hk. unfold char_at.
      destruct (lookup_lt_is_Some_2 l k) as [x Hx]; [lia |].
      rewrite Hx. by apply take_S_r. }
    destruct i as [| i], j as [| j]; cbn [backtrack].
    + done.
    + change (0 <? 0) with false. change (0 <? S j) with true.
      cbn [orb andb negb Nat.eqb]. rewrite !Nat.sub_succ, !Nat.sub_0_r.
      destruct (IH 0 j (mkCharDiff (char_at ys j) cd_added :: acc)) as [-> ->];
        [lia .. |].
      destruct (Hadd (char_at ys j) acc) as [-> ->].
      rewrite (Htake ys j) by lia. by rewrite <- app_assoc.
    + change (0 <? 0) with false. change (0 <? S i) with true.
      cbn [orb andb negb Nat.eqb]. rewrite !Nat.sub_succ, !Nat.sub_0_r.
      destruct (IH i 0 (mkCharDiff (char_at xs i) cd_removed :: acc)) as [-> ->];
        [lia .. |].
      destruct (Hdel (char_at xs i) acc) as [-> ->].
      rewrite (Htake xs i) by lia. by rewrite <- app_assoc.
    + change (0 <? S i) with true. change (0 <? S j) with true.
      cbn [orb andb negb Nat.eqb]. rewrite !Nat.sub_succ, !Nat.sub_0_r.
      rewrite (Htake xs i), (Htake ys j) by lia.
      case_bool_decide as Hsame.
      { destruct (IH i j (mkCharDiff (char_at xs i) cd_unchanged :: acc)) as [-> ->];
          [lia .. |].
        destruct (Hkeep (char_at xs i) acc) as [-> ->].
        unfold char_at. rewrite Hsame. by rewrite <- !app_assoc. }
      destruct (dp_get dp i (S j) <=? dp_get dp (S i) j)%Z eqn:Hle.
      { destruct (IH (S i) j (mkCharDiff (char_at ys j) cd_added :: acc)) as [-> ->];
          [lia .. |].
        destruct (Hadd (char_at ys j) acc) as [-> ->].
        rewrite (Htake xs i) by lia. by rewrite <- !app_assoc. }
      apply Z.leb_gt in Hle. rewrite (proj2 (Z.ltb_lt _ _) Hle).
      destruct (IH i (S j) (mkCharDiff (char_at xs i) cd_removed :: acc)) as [-> ->];
        [lia .. |].
      destruct (Hdel (char_at xs i) acc) as [-> ->].
      rewrite (Htake ys j) by lia. by rewrite <- !app_assoc.
Qed.

(** The final results take the lines that the raw results read and give
    the lines that they write, and their modified lines are consistent. *)
Lemma post_process_lines (n : nat) : forall raw : list CharDiff,
  length raw <= n ->
  exists d, MiniGit.post_process raw = Ok d
    /\ old_lines d = sources raw /\ new_lines d = targets raw
    /\ Forall consistent d.
Proof.
  induction n as [| n IH]; intros raw Hlen.
  - destruct raw; [| simpl in Hlen; lia]. exists []. by split_and!.
  - destruct raw as [| current rest]; [exists []; by split_and! |].
    simpl in Hlen.
    assert (Hplain : exists d,
              (finalResult ← MiniGit.post_process rest;
               Ok (diff_entry current :: finalResult)) = Ok d
              /\ old_lines d = sources (current :: rest)
              /\ new_lines d = targets (current :: rest)
              /\ Forall consistent d).
    { destruct (IH rest) as (d & -> & Hold & Hnew & Hcons); [lia |].
      exists (diff_entry current :: d). split; [done |].
      rewrite old_lines_cons, new_lines_cons, Hold, Hnew.
      destruct current as [c ty]. rewrite sources_cons, targets_cons.
      destruct ty; (split_and!; [done | done |]);
        (constructor; [by intros E HE | done]). }
    cbn [MiniGit.post_process].
    destruct (cd_type current) eqn:Hcur; [done | | done].
    destruct rest as [| next rest']; [done |].
    destruct (cd_type next) eqn:Hnext; [| done | done].
    destruct (generateCharacterDiff_script (char current) (char next))
      as (E & -> & Hs & Ht & Hall).
    destruct (IH rest') as (d & -> & Hold & Hnew & Hcons); [simpl in Hlen; lia |].
    eexists. split; [reflexivity |].
    rewrite old_lines_cons, new_lines_cons, Hold, Hnew.
    destruct current as [c ty], next as [c' ty'].
    simpl in Hcur, Hnext, Hs, Ht. subst ty ty'.
    rewrite !sources_cons, !targets_cons.
    cbn [d_type oldLine charDiffs default from_option char]. unfold id.
    rewrite Ht. split_and!; [done | done |].
    constructor; [| done].
    intros E' _ [= <-]. split; [done |]. unfold oldLine_length. simpl. by rewrite Hs.
Qed.

Lemma split_lines_concat (s : jsstring) :
  concat (MiniGit.split_lines s) = without_newlines s.
Proof.
  unfold without_newlines. induction s as [| c s IH]; [done |].
  cbn [MiniGit.split_lines]. rewrite filter_cons.
  destruct (c =? 10)%N eqn:Hc.
  - apply N.eqb_eq in Hc as ->. rewrite decide_False by (by intros H; apply H).
    simpl. exact IH.
  - apply N.eqb_neq in Hc. rewrite decide_True by done.
    destruct (MiniGit.split_lines s) as [| l ls]; simpl in *; by rewrite <- IH.
Qed.

(** X24. The diff of lines of mini-git.ts, on two strings: it returns;
    the unchanged and removed lines and the old lines of its modified
    entries are, in order, the lines of the first text; the unchanged and
    added lines and the lines that the character diffs of its modified
    entries write are the lines of the second; and the character diffs of a
    modified entry are one-character steps that read its old line. *)
Theorem minigit_diff_lines (text1 text2 : jsstring) :
  exists d, MiniGit.diff (CStr text1) (CStr text2) = Ok d
    /\ old_lines d = MiniGit.split_lines text1
    /\ new_lines d = MiniGit.split_lines text2
    /\ Forall consistent d.
Proof.
  unfold MiniGit.diff. cbn [MiniGit.split_lines_of mbind Result_bind].
  set (xs := MiniGit.split_lines text1). set (ys := MiniGit.split_lines text2).
  destruct (post_process_lines
              (length (backtrack (length xs + length ys) xs ys (dp_fill xs ys)
                         (length xs) (length ys) []))
              (backtrack (length xs + length ys) xs ys (dp_fill xs ys)
                 (length xs) (length ys) []))
    as (d & Hd & Hold & Hnew & Hcons); [done |].
  destruct (backtrack_lists xs ys (dp_fill xs ys) (length xs + length ys)
              (length xs) (length ys) []) as [Hs Ht]; [lia .. |].
  exists d. rewrite Hold, Hnew, Hs, Ht, !firstn_all.
  split_and!; [done | by rewrite app_nil_r | by rewrite app_nil_r | done].
Qed.

Lemma old_lines_text (d : list DiffResult) :
  Forall consistent d ->
  (forall r, r ∈ d -> d_type r = modified ->
     exists E, charDiffs r = Some E /\ oldLine r = Some (source_of E)) ->
  concat (old_lines d) = old_text d /\ concat (new_lines d) = new_text d.
Proof.
  induction d as [| r d IH]; intros Hcons Hmod; [done |].
  apply Forall_cons in Hcons as [_ Hcons].
  destruct IH as [IHo IHn]; [done | intros r' Hr'; apply Hmod; by right |].
  rewrite old_lines_cons, new_lines_cons. unfold old_text, new_text in *.
  cbn [map concat]. rewrite <- IHo, <- IHn. unfold old_part, new_part.
  destruct (d_type r) eqn:Hty; try done.
  destruct (Hmod r ltac:(by left) Hty) as (E & HE & Hold).
  by rewrite HE, Hold.
Qed.

(** Every modified entry of the final results carries the old line that
    its character diffs read. *)
Lemma post_process_modified (n : nat) : forall (raw : list CharDiff) (d : list DiffResult),
  length raw <= n -> MiniGit.post_process raw = Ok d ->
  forall r, r ∈ d -> d_type r = modified ->
    exists E, charDiffs r = Some E /\ oldLine r = Some (source_of E).
Proof.
  induction n as [| n IH]; intros raw d Hlen Hd r Hr Hty.
  - destruct raw; [| simpl in Hlen; lia]. injection Hd as <-. by apply elem_of_nil in Hr.
  - destruct raw as [| current rest]; [injection Hd as <-; by apply elem_of_nil in Hr |].
    simpl in Hlen.
    assert (Hplain : forall d,
              (finalResult ← MiniGit.post_process rest;
               Ok (diff_entry current :: finalResult)) = Ok d ->
              forall r, r ∈ d -> d_type r = modified ->
                exists E, charDiffs r = Some E /\ oldLine r = Some (source_of E)).
    { intros d0 Hd0 r0 Hr0 Hty0.
      destruct (MiniGit.post_process rest) as [d1 |] eqn:Hd1; [| done].
      injection Hd0 as <-. apply elem_of_cons in Hr0 as [-> | Hr0].
      - by destruct current as [c []].
      - eapply (IH rest d1); [lia | done | done | done]. }
    cbn [MiniGit.post_process] in Hd.
    destruct (cd_type current) eqn:Hcur; [by eapply Hplain | | by eapply Hplain].
    destruct rest as [| next rest']; [by eapply Hplain |].
    destruct (cd_type next) eqn:Hnext; [| by eapply Hplain | by eapply Hplain].
    destruct (generateCharacterDiff_script (char current) (char next))
      as (E & HE & Hs & Ht & Hall).
    rewrite HE in Hd. cbn [mbind Result_bind] in Hd.
    destruct (MiniGit.post_process rest') as [d1 |] eqn:Hd1; [| done].
    injection Hd as <-. apply elem_of_cons in Hr as [-> | Hr].
    + exists E. by rewrite Hs.
    + eapply (IH rest' d1); [simpl in Hlen; lia | done | done | done].
Qed.

(** X25. The diff of lines, turned into operations. With the diff of
    mini-git.ts, [diffToOperations] and [applyOperations] turn the first
    text without its line feeds into the second text without its line
    feeds: the operations of a diff of lines do not carry the line feeds. *)
Theorem minigit_diff_apply (text1 text2 : jsstring) :
  exists d, MiniGit.diff (CStr text1) (CStr text2) = Ok d
    /\ applyOperations (CStr (without_newlines text1)) (diffToOperations d)
       = Ok (CStr (without_newlines text2)).
Proof.
  unfold MiniGit.diff. cbn [MiniGit.split_lines_of mbind Result_bind].
  set (xs := MiniGit.split_lines text1). set (ys := MiniGit.split_lines text2).
  set (raw := backtrack (length xs + length ys) xs ys (dp_fill xs ys)
                (length xs) (length ys) []).
  destruct (post_process_lines (length raw) raw)
    as (d & Hd & Hold & Hnew & Hcons); [done |].
  destruct (backtrack_lists xs ys (dp_fill xs ys) (length xs + length ys)
              (length xs) (length ys) []) as [Hs Ht]; [lia .. |].
  fold raw in Hs, Ht. rewrite !firstn_all, app_nil_r in Hs, Ht.
  exists d. split; [done |].
  destruct (old_lines_text d Hcons) as [Ho Hn].
  { by apply (post_process_modified (length raw) raw). }
  rewrite <- !split_lines_concat. fold xs ys.
  rewrite <- Hs, <- Ht, <- Hold, <- Hnew, Ho, Hn.
  assert (Hops : diffToOperations d = script_ops 0 (concat (map entry_script d))).
  { unfold diffToOperations. by rewrite diffToOperations_lines. }
  rewrite Hops. unfold applyOperations.
  rewrite sort_by_position_sorted by apply script_ops_sorted.
  destruct (apply_loop_lines (concat (map entry_script d)) [] [] 0 0) as [off' Hrun];
    [done |].
  destruct (entry_script_texts d) as [Hst Htt].
  simpl in Hrun. rewrite !app_nil_r, Hst, Htt in Hrun.
  by rewrite Hrun.
Qed.

(** ** mini-linear.ts *)

Section MiniLinearProperties.
Context {V : Type}.
Variable undefined : V.
Variable strict_equal : V -> V -> bool.
Variable string_value : jsstring -> V.

(** X26. Saving a model. For the model that the pool holds under its own
    id, with changes pending and an empty outbox: [save] sends one
    transaction, which the server merges into its entry for the model and
    echoes back at once.  Afterwards nothing is pending, the outbox is empty
    again, the sync id has advanced by one, and for every property that was
    pending the view of the model and the entry of the server both hold the
    new value. *)
Theorem save_roundtrip (w : MiniLinear.World) (ref uuid : jsstring)
    (m : MiniLinear.SyncableModel) :
  MiniLinear.objectPool w !! ref = Some m ->
  MiniLinear.id m = ref ->
  ref ∉ Object_prototype_names ->
  MiniLinear._pendingChanges m <> ∅ ->
  MiniLinear.outbox w = [] ->
  exists (w' : MiniLinear.World) (m' : MiniLinear.SyncableModel),
    MiniLinear.save string_value w ref uuid = Some w'
    /\ MiniLinear.objectPool w' !! ref = Some m'
    /\ MiniLinear._pendingChanges m' = ∅
    /\ MiniLinear.outbox w' = []
    /\ MiniLinear.lastSyncId w' = (MiniLinear.lastSyncId w + 1)%Z
    /\ forall (key : jsstring) (c : MiniLinear.PendingChange),
         MiniLinear._pendingChanges m !! key = Some c ->
         MiniLinear.data m' !! key = Some (MiniLinear.newValue c)
         /\ (MiniLinear.database w' !! ref ≫= (.!! key))
            = Some (MiniLinear.newValue c).
Proof.
  intros Hpool Hid Hname Hpending Houtbox.
  unfold MiniLinear.save. rewrite Hpool. cbn [mbind option_bind].
  rewrite bool_decide_eq_false_2 by done.
  unfold MiniLinear.enqueue, MiniLinear.flush. rewrite Houtbox.
  cbn [app MiniLinear.outbox MiniLinear.processTransactions].
  unfold MiniLinear.process_transaction.
  cbn [MiniLinear.modelId MiniLinear.payload MiniLinear.database
       MiniLinear.lastSyncId MiniLinear.objectPool MiniLinear.outbox].
  rewrite Hid, bool_decide_eq_false_2 by done.
  cbn [mbind option_bind MiniLinear.objectPool].
  unfold MiniLinear.handleDeltaPacket. rewrite Hpool, lookup_insert_eq.
  cbn [mbind option_bind MiniLinear.database MiniLinear.lastSyncId
       MiniLinear.objectPool MiniLinear.outbox MiniLinear._applyServerUpdate
       MiniLinear.id MiniLinear._data].
  eexists _, _. split; [reflexivity |].
  cbn [MiniLinear.database MiniLinear.lastSyncId MiniLinear.objectPool
       MiniLinear.outbox].
  rewrite !lookup_insert_eq.
  split_and!; [reflexivity | done | done | done |].
  intros key c Hc.
  assert (Hpayload : (MiniLinear.newValue <$> MiniLinear._pendingChanges m) !! key
                     = Some (MiniLinear.newValue c)).
  { by rewrite lookup_fmap, Hc. }
  unfold MiniLinear.data. cbn [MiniLinear._pendingChanges MiniLinear._data].
  rewrite fmap_empty, (left_id_L ∅ (∪)). cbn [mbind option_bind].
  split.
  - apply lookup_union_Some_l. by apply lookup_union_Some_l.
  - by apply lookup_union_Some_l.
Qed.

(** X27. An optimistic edit stays in view. When a setter of [Issue] is
    given a value that is not [===] to the one in place, the getter returns
    the new value at once, and keeps returning it after any update from the
    server, whatever the update holds for that property; the properties with
    no pending change read as the server has them. *)
Theorem optimistic_edit_survives (m : MiniLinear.SyncableModel)
    (key : MiniLinear.Field) (value : V) (serverData : gmap jsstring V) :
  strict_equal
    (default undefined (MiniLinear._data m !! MiniLinear.field_key key)) value
  = false ->
  MiniLinear.get_field undefined
    (MiniLinear.setProperty undefined strict_equal m key value) key = value
  /\ MiniLinear.get_field undefined
       (MiniLinear._applyServerUpdate
          (MiniLinear.setProperty undefined strict_equal m key value) serverData)
       key = value
  /\ forall (k : jsstring) (v : V),
       MiniLinear._pendingChanges
         (MiniLinear.setProperty undefined strict_equal m key value) !! k = None ->
       serverData !! k = Some v ->
       MiniLinear.data
         (MiniLinear._applyServerUpdate
            (MiniLinear.setProperty undefined strict_equal m key value) serverData)
       !! k = Some v.
Proof.
  intros Hne. unfold MiniLinear.setProperty. rewrite Hne.
  unfold MiniLinear.get_field, MiniLinear.data, MiniLinear._applyServerUpdate.
  cbn [MiniLinear._pendingChanges MiniLinear._data MiniLinear.id].
  assert (Hnew : forall base : gmap jsstring V,
            ((MiniLinear.newValue
                <$> <[MiniLinear.field_key key :=
                        MiniLinear.mkPendingChange
                          (default undefined
                             (MiniLinear._data m !! MiniLinear.field_key key))
                          value]> (MiniLinear._pendingChanges m)) ∪ base)
            !! MiniLinear.field_key key = Some value).
  { intros base. apply lookup_union_Some_l.
    by rewrite lookup_fmap, lookup_insert_eq. }
  split_and!.
  - by rewrite Hnew.
  - by rewrite Hnew.
  - intros k v Hk Hv. rewrite lookup_union_r by (by rewrite lookup_fmap, Hk).
    by apply lookup_union_Some_l.
Qed.

End MiniLinearProperties.

(** The issue of the demo, with a new title pending. *)
Lemma save_roundtrip_witness :
  exists (w' : MiniLinear.World) (m' : MiniLinear.SyncableModel),
    MiniLinear.save (fun s : jsstring => s)
      (MiniLinear.mkWorld
         {[ js "issue_123" := {[ js "title" := js "Initial Title" ]} ]} 100
         {[ js "issue_123" :=
              MiniLinear.mkSyncableModel (js "issue_123")
                {[ js "title" := js "Updated by client"; js "id" := js "issue_123" ]}
                {[ js "title" :=
                     MiniLinear.mkPendingChange (js "Initial Title")
                       (js "Updated by client") ]} ]}
         [])
      (js "issue_123") (js "tx-1") = Some w'
    /\ MiniLinear.objectPool w' !! js "issue_123" = Some m'
    /\ MiniLinear.data m' !! js "title" = Some (js "Updated by client")
    /\ (MiniLinear.database w' !! js "issue_123" ≫= (.!! js "title"))
       = Some (js "Updated by client").
Proof.
  destruct (save_roundtrip (fun s : jsstring => s)
              (MiniLinear.mkWorld
                 {[ js "issue_123" := {[ js "title" := js "Initial Title" ]} ]} 100
                 {[ js "issue_123" :=
                      MiniLinear.mkSyncableModel (js "issue_123")
                        {[ js "title" := js "Updated by client";
                           js "id" := js "issue_123" ]}
                        {[ js "title" :=
                             MiniLinear.mkPendingChange (js "Initial Title")
                               (js "Updated by client") ]} ]}
                 [])
              (js "issue_123") (js "tx-1")
              (MiniLinear.mkSyncableModel (js "issue_123")
                 {[ js "title" := js "Updated by client"; js "id" := js "issue_123" ]}
                 {[ js "title" :=
                      MiniLinear.mkPendingChange (js "Initial Title")
                        (js "Updated by client") ]}))
    as (w' & m' & Hsave & Hpool & _ & _ & _ & Hkeys).
  - apply lookup_singleton_eq.
  - reflexivity.
  - compute_done.
  - apply insert_non_empty.
  - reflexivity.
  - destruct (Hkeys (js "title")
                (MiniLinear.mkPendingChange (js "Initial Title") (js "Updated by client")))
      as [Hview Hserver]; [apply lookup_singleton_eq |].
    exists w', m'. split_and!; [exact Hsave | exact Hpool | exact Hview | exact Hserver].
Defined.

(** The title of the demo is edited, and then an update arrives that
    changes the assignee and still carries the old title. *)
Lemma optimistic_edit_survives_witness :
  MiniLinear.get_field []
    (MiniLinear._applyServerUpdate
       (MiniLinear.setProperty [] (fun a b : jsstring => bool_decide (a = b))
          (MiniLinear.mkSyncableModel (js "issue_456")
             {[ js "title" := js "Another Issue"; js "assigneeId" := js "user_A" ]} ∅)
          MiniLinear.title (js "My Local Edit"))
       {[ js "title" := js "Another Issue"; js "assigneeId" := js "user_B" ]})
    MiniLinear.title
  = js "My Local Edit".
Proof.
  refine (proj1 (proj2 (optimistic_edit_survives []
            (fun a b : jsstring => bool_decide (a = b))
            (MiniLinear.mkSyncableModel (js "issue_456")
               {[ js "title" := js "Another Issue"; js "assigneeId" := js "user_A" ]} ∅)
            MiniLinear.title (js "My Local Edit")
            {[ js "title" := js "Another Issue"; js "assigneeId" := js "user_B" ]} _))).
  compute_done.
Defined.

(** ** The client: the [ack] *)

(** X28. An [ack] keeps the client's view. With a string as synchronized
    content, on an open socket: the handler returns; the operations in
    flight are folded into the synchronized content; the pending
    operations, if any, are sent as one sync from the new hash and are now in
    flight, and nothing is pending.  The synchronized content with the
    operations in flight and the pending ones applied is what it was before
    the [ack], and the editor is not touched. *)
Theorem ack_keeps_view (c : Client) (content : jsstring) (new_hash : Hash) :
  synchronizedContent c = CStr content ->
  exists c' : Client,
    ws_onmessage true c (MsgAck new_hash)
    = CReturned c' (match pendingOps c with
                    | Some pending => [Sync (Some new_hash) pending]
                    | None => []
                    end)
    /\ client_view c' = client_view c
    /\ Ok (synchronizedContent c')
       = apply_if_some (synchronizedContent c) (inFlightOps c)
    /\ latestHash c' = Some new_hash
    /\ inFlightOps c' = pendingOps c
    /\ pendingOps c' = None
    /\ editor_value c' = editor_value c.
Proof.
  intros Hs. cbn [ws_onmessage]. unfold handleAck, client_view. rewrite Hs.
  assert (Hbase : exists base,
            apply_if_some (CStr content) (inFlightOps c) = Ok (CStr base)).
  { destruct (inFlightOps c) as [inFlight |]; cbn [apply_if_some]; [| eauto].
    apply applyOperations_string. }
  destruct Hbase as [base ->]. cbn [mbind Result_bind].
  destruct (pendingOps c) as [pending |].
  - unfold sendOperations. cbn [negb inFlightOps].
    eexists. split; [reflexivity |].
    cbn [synchronizedContent inFlightOps pendingOps latestHash editor_value
         apply_if_some].
    split_and!; try done.
    by destruct (applyOperations (CStr base) pending).
  - eexists. split; [reflexivity |]. by split_and!.
Qed.

(** The insert of "X" into "ab" is acknowledged while the insert of "!" is
    pending. *)
Lemma ack_keeps_view_witness :
  exists c' : Client,
    ws_onmessage true
      (mkClient (head with_ab) (CStr (js "ab")) (Some [Insert (js "X") 1])
         (Some [Insert (js "!") 3]) (js "aXb!"))
      (MsgAck (js "h"))
    = CReturned c' [Sync (Some (js "h")) [Insert (js "!") 3]]
    /\ client_view c' = Ok (CStr (js "aXb!")).
Proof.
  destruct (ack_keeps_view
              (mkClient (head with_ab) (CStr (js "ab")) (Some [Insert (js "X") 1])
                 (Some [Insert (js "!") 3]) (js "aXb!"))
              (js "ab") (js "h") eq_refl)
    as (c' & Hrun & Hview & _).
  exists c'. split; [exact Hrun |]. rewrite Hview. reflexivity.
Defined.

(** ** The sync handler: the hash of the [ack] *)

(** X29. Whatever the frame and the state, the handler ends, and when it
    has sent an [ack], the [ack] went to the sender, its hash is the head of
    the history of the note in the state that the handler leaves, and every
    update sent in the same run carries that hash. *)
Theorem ack_names_head (st : Server) (ws : Ws) (msg : ClientMsg)
    (now_init now : jsstring) :
  exists o : Outcome,
    websocket_message st ws msg now_init now = Some o
    /\ forall (client : Ws) (new_hash : Hash),
         (client, MsgAck new_hash) ∈ sent_of o ->
         client = ws
         /\ (exists vh, noteHistories (state_of o) !! noteId ws = Some vh
                        /\ getHeadHash vh = Some new_hash)
         /\ forall other h ops, (other, MsgUpdate h ops) ∈ sent_of o -> h = new_hash.
Proof.
  destruct (getHistoryForNote st (noteId ws) now_init) as [st1 vh] eqn:Hroom.
  destruct (websocket_message_cases st st1 ws msg now_init now vh Hroom)
    as (o & Ho & Hcases).
  exists o. split; [exact Ho |]. intros client new_hash Hack.
  destruct Hcases
    as [-> | [(m & -> & Hm & _) | [(e & ->)
        | (content & message_ & updates & Hst & Hsent & Hupd)]]];
    cbn [state_of sent_of] in Hack.
  - by apply elem_of_nil in Hack.
  - apply list_elem_of_singleton in Hack. injection Hack as _ Hack.
    by destruct (Hm new_hash).
  - by apply elem_of_nil in Hack.
  - rewrite Hsent in Hack |- *. rewrite Hst.
    assert (Hnew : client = ws
                   /\ new_hash = (commit_object vh content message_ now now).2).
    { apply elem_of_cons in Hack as [Hack | Hack]; [by injection Hack |].
      destruct Hupd as [-> | (ops & ->)]; [by apply elem_of_nil in Hack |].
      by apply send_to_others_elem in Hack. }
    destruct Hnew as [-> ->]. split_and!; [done | |].
    + eexists. split; [apply lookup_insert_eq |].
      by destruct (commit_object_head vh content message_ now now) as (Hh & _).
    + intros other h ops Hin.
      apply elem_of_cons in Hin as [Hin | Hin]; [done |].
      destruct Hupd as [-> | (ops' & ->)]; [by apply elem_of_nil in Hin |].
      apply send_to_others_elem in Hin. by injection Hin.
Qed.

(** Scenario 5: the [ack] of Alice's delete. *)
Lemma ack_names_head_witness :
  exists vh, noteHistories with_b !! room = Some vh
             /\ getHeadHash vh = Some (default [] (head with_b)).
Proof.
  destruct (ack_names_head with_ab alice (Sync (head with_ab) [Delete 1 0]) t0 t2)
    as (o & Ho & Hack).
  assert (Hrun : websocket_message with_ab alice (Sync (head with_ab) [Delete 1 0])
                   t0 t2
                 = Some (Returned with_b
                           [(alice, MsgAck (default [] (head with_b)));
                            (bob, MsgUpdate (default [] (head with_b)) [Delete 1 0])]))
    by compute_done.
  rewrite Hrun in Ho. apply (inj Some) in Ho. rewrite <- Ho in Hack.
  exact (proj1 (proj2 (Hack alice (default [] (head with_b)) ltac:(by left)))).
Defined.

(** ** A note that is new *)

Lemma commit_getCurrentContent (vh : VersionHistory)
    (content message_ now_message now_timestamp : jsstring) :
  clean_keys vh content (commit vh content message_ now_message now_timestamp).2 ->
  getCurrentContent (commit vh content message_ now_message now_timestamp).1
  = CStr content.
Proof.
  intros (Hblob & Htree & Hfree & Htb & Hct & Hcb). unfold getCurrentContent.
  destruct (commit_head vh content message_ now_message now_timestamp)
    as (Hhead & _ & _).
  unfold getHeadHash in Hhead. rewrite Hhead.
  by apply commit_getContent.
Qed.

(** X30. Connecting to a new note. For a note without a history, when the
    three keys of the initial commit are three different keys: [GET]
    creates the history and returns the hash of its initial commit with the
    empty string as content, and a client that takes this response at
    [ws.onopen], with nothing in flight or pending, is idle at the head of
    the history of the note, with the empty string as content and in its
    editor. *)
Theorem new_note_is_empty (st : Server) (note now : jsstring) (c : Client) :
  noteHistories st !! note = None ->
  clean_keys (new_VersionHistory note) []
    (commit (new_VersionHistory note) [] (js "Initial empty commit") now now).2 ->
  idle c ->
  exists vh,
    noteHistories (fetch_note st note now).1 !! note = Some vh
    /\ (fetch_note st note now).2
       = mkNoteResponse
           (Some (commit (new_VersionHistory note) [] (js "Initial empty commit")
                    now now).2)
           (CStr [])
    /\ in_sync (ws_onopen c (fetch_note st note now).2) vh []
    /\ editor_value (ws_onopen c (fetch_note st note now).2) = [].
Proof.
  intros Hnew Hclean [Hf Hp].
  pose proof (commit_getCurrentContent _ _ _ _ _ Hclean) as Hcontent.
  unfold fetch_note, getHistoryForNote. rewrite Hnew. cbn [fst snd].
  eexists. split; [apply lookup_insert_eq |].
  rewrite Hcontent.
  destruct (commit_head (new_VersionHistory note) [] (js "Initial empty commit") now now)
    as (Hhead & _ & _).
  rewrite Hhead. split_and!; [done | | done].
  unfold in_sync, idle, ws_onopen.
  cbn [latest_hash latest_content inFlightOps pendingOps latestHash
       synchronizedContent].
  split_and!; done.
Qed.

(** The note "n" on a server that has just started. *)
Lemma new_note_is_empty_witness :
  (fetch_note (mkServer ∅ ∅) room t0).2
  = mkNoteResponse
      (Some (commit (new_VersionHistory room) [] (js "Initial empty commit") t0 t0).2)
      (CStr []).
Proof.
  destruct (new_note_is_empty (mkServer ∅ ∅) room t0
              (mkClient None CNull None None []))
    as (vh & _ & Hresp & _).
  - apply lookup_empty.
  - unfold clean_keys, free_or_same.
    split_and!; [left | left | ..]; compute_done.
  - split; reflexivity.
  - exact Hresp.
Defined.
